(** * Urho3D scene index: Drawable and Octant

    A shallow embedding of [Engine/Graphics/Drawable.cpp] and of the inline
    members of [Engine/Graphics/Octree.h], with the properties of the
    drawable bookkeeping and of the octant drawable counts.

    Conventions.
    - [unsigned] is a [Z] in [0, 2^32), every operation that can leave the
      range is wrapped with [u32].
    - [float] is a [spec_float] (IEEE 754 data without NaN payload); only
      comparisons of floats are used.
    - Objects live in stores, pointers are keys: a [DrawablePtr] is a key of
      the drawable store, an [OctantPtr] is the position of an octant in the
      tree (see [OctantPtr]). The null pointer is [None]. *)

From Stdlib Require Import ZArith Lia Bool.
From Stdlib Require Import Floats.SpecFloat.
From stdpp Require Import base option list fin gmap sorting.

#[local] Set Warnings "-register-all".
#[local] Open Scope Z_scope.

(** ** Machine integers *)

Definition u32 (z : Z) : Z := z mod 2 ^ 32.

(** [a << n] and [a >> n] on [unsigned]. *)
Definition shl32 (a n : Z) : Z := u32 (Z.shiftl a n).
Definition shr32 (a n : Z) : Z := Z.shiftr a n.

(** ** Pointers *)

Definition DrawablePtr := nat.
Definition LightPtr := nat.
Definition NodePtr := nat.
Definition CameraPtr := nat.

(** An octant is identified by its place in the tree: the indices into
    [children_] that lead to it, the octant's own slot first and the slot
    below the root last. The root is [[]]; [parent_] of [i :: p] is [p]. *)
Definition OctantPtr := list nat.

Definition NUM_OCTANTS : nat := 8.

(** ** External primitives *)

Record Vector3 := mkVector3 { x_ : spec_float; y_ : spec_float; z_ : spec_float }.

Record BoundingBox := mkBoundingBox { min_ : Vector3; max_ : Vector3 }.

Record FrameInfo := mkFrameInfo { frameNumber_ : Z; camera_ : option CameraPtr }.

(** [lhs > rhs] on floats; false whenever an operand is NaN. *)
Definition fgt (lhs rhs : spec_float) : bool := SFltb rhs lhs.

(** Modelled from the spec: [Max] of MathDefs.h, which is not among the
    sources; the floor clamp of the spec, [lhs > rhs ? lhs : rhs]. *)
Definition Max (lhs rhs : spec_float) : spec_float :=
  if fgt lhs rhs then lhs else rhs.

Definition fzero : spec_float := S754_zero false.
Definition fone : spec_float := S754_finite false 8388608 (-23).

(** ** Drawable *)

(** The members of [Drawable] that the modelled methods read or write.
    [hookCalls_] is a ghost member: the number of times the world bounding
    box hook has run on the object. *)
Record Drawable := mkDrawable {
  node_ : option NodePtr;
  octant_ : option OctantPtr;
  lodBias_ : spec_float;
  maxLights_ : Z;
  viewFrameNumber_ : Z;
  viewCamera_ : option CameraPtr;
  firstLight_ : option LightPtr;
  lights_ : list LightPtr;
  basePassFlags_ : list Z;
  worldBoundingBox_ : BoundingBox;
  worldBoundingBoxDirty_ : bool;
  hookCalls_ : nat
}.

Definition set_octant (o : option OctantPtr) (d : Drawable) : Drawable :=
  mkDrawable (node_ d) o (lodBias_ d) (maxLights_ d) (viewFrameNumber_ d)
    (viewCamera_ d) (firstLight_ d) (lights_ d) (basePassFlags_ d)
    (worldBoundingBox_ d) (worldBoundingBoxDirty_ d) (hookCalls_ d).

Definition set_lodBias (b : spec_float) (d : Drawable) : Drawable :=
  mkDrawable (node_ d) (octant_ d) b (maxLights_ d) (viewFrameNumber_ d)
    (viewCamera_ d) (firstLight_ d) (lights_ d) (basePassFlags_ d)
    (worldBoundingBox_ d) (worldBoundingBoxDirty_ d) (hookCalls_ d).

Definition set_view (n : Z) (c : option CameraPtr) (d : Drawable) : Drawable :=
  mkDrawable (node_ d) (octant_ d) (lodBias_ d) (maxLights_ d) n c
    (firstLight_ d) (lights_ d) (basePassFlags_ d)
    (worldBoundingBox_ d) (worldBoundingBoxDirty_ d) (hookCalls_ d).

Definition set_lights (l : list LightPtr) (d : Drawable) : Drawable :=
  mkDrawable (node_ d) (octant_ d) (lodBias_ d) (maxLights_ d)
    (viewFrameNumber_ d) (viewCamera_ d) (firstLight_ d) l (basePassFlags_ d)
    (worldBoundingBox_ d) (worldBoundingBoxDirty_ d) (hookCalls_ d).

Definition set_basePassFlags (f : list Z) (d : Drawable) : Drawable :=
  mkDrawable (node_ d) (octant_ d) (lodBias_ d) (maxLights_ d)
    (viewFrameNumber_ d) (viewCamera_ d) (firstLight_ d) (lights_ d) f
    (worldBoundingBox_ d) (worldBoundingBoxDirty_ d) (hookCalls_ d).

Definition set_worldBoundingBox (b : BoundingBox) (d : Drawable) : Drawable :=
  mkDrawable (node_ d) (octant_ d) (lodBias_ d) (maxLights_ d)
    (viewFrameNumber_ d) (viewCamera_ d) (firstLight_ d) (lights_ d)
    (basePassFlags_ d) b (worldBoundingBoxDirty_ d) (hookCalls_ d).

Definition set_worldBoundingBoxDirty (b : bool) (d : Drawable) : Drawable :=
  mkDrawable (node_ d) (octant_ d) (lodBias_ d) (maxLights_ d)
    (viewFrameNumber_ d) (viewCamera_ d) (firstLight_ d) (lights_ d)
    (basePassFlags_ d) (worldBoundingBox_ d) b (hookCalls_ d).

Definition tick_hookCalls (d : Drawable) : Drawable :=
  mkDrawable (node_ d) (octant_ d) (lodBias_ d) (maxLights_ d)
    (viewFrameNumber_ d) (viewCamera_ d) (firstLight_ d) (lights_ d)
    (basePassFlags_ d) (worldBoundingBox_ d) (worldBoundingBoxDirty_ d)
    (S (hookCalls_ d)).

(** [Drawable::Drawable]; the containers start empty and the box is the
    default-constructed one. *)
Definition Drawable_new : Drawable :=
  mkDrawable None None fone 0 0 None None [] []
    (mkBoundingBox (mkVector3 fzero fzero fzero) (mkVector3 fzero fzero fzero))
    true 0.

(** The per-variant part of a drawable: the pure virtual
    [OnWorldBoundingBoxUpdate], which recomputes [worldBoundingBox_] from
    the object. *)
Class DrawableVariant := {
  ComputeWorldBoundingBox : Drawable -> BoundingBox
}.

Definition OnWorldBoundingBoxUpdate {variant : DrawableVariant}
    (d : Drawable) : Drawable :=
  tick_hookCalls (set_worldBoundingBox (ComputeWorldBoundingBox d) d).

(** [Drawable::SetLodBias]; [M_EPSILON] (MathDefs.h) is a parameter. *)
Definition SetLodBias (M_EPSILON bias : spec_float) (d : Drawable) : Drawable :=
  set_lodBias (Max bias M_EPSILON) d.

(** [Drawable::GetWorldBoundingBox]: the object after the call and the box
    the returned reference denotes. *)
Definition GetWorldBoundingBox {variant : DrawableVariant} (d : Drawable)
  : Drawable * BoundingBox :=
  let d1 :=
    if worldBoundingBoxDirty_ d
    then set_worldBoundingBoxDirty false (OnWorldBoundingBoxUpdate d)
    else d in
  (d1, worldBoundingBox_ d1).

(** [Drawable::MarkInView] *)
Definition MarkInView (frame : FrameInfo) (d : Drawable) : Drawable :=
  set_view (frameNumber_ frame) (camera_ frame) d.

(** [Drawable::MarkInShadowView] *)
Definition MarkInShadowView (frame : FrameInfo) (d : Drawable) : Drawable :=
  if decide (viewFrameNumber_ d <> frameNumber_ frame)
  then set_view (frameNumber_ frame) None d
  else d.

(** [Drawable::IsInView(const FrameInfo&)] *)
Definition IsInView (frame : FrameInfo) (d : Drawable) : bool :=
  bool_decide (viewFrameNumber_ d = frameNumber_ frame)
  && bool_decide (viewCamera_ d = camera_ frame).

(** [Drawable::IsInView(unsigned)] *)
Definition IsInViewFrame (frameNumber : Z) (d : Drawable) : bool :=
  bool_decide (viewFrameNumber_ d = frameNumber).

(** [PODVector<T>::Resize]: shrinking drops the tail, growing appends
    elements that are not initialised; [junk i] is what the memory of the
    new element [i] happens to hold. *)
Definition Resize {A} (junk : nat -> A) (n : nat) (v : list A) : list A :=
  take n v ++ (junk <$> seq (length v) (n - length v)).

(** [Drawable::SetBasePass] *)
Definition SetBasePass (junk : nat -> Z) (batchIndex : Z) (d : Drawable) : Drawable :=
  let index := shl32 batchIndex 5 in
  let flags := basePassFlags_ d in
  let flags1 :=
    if decide (Z.of_nat (length flags) <= index)
    then
      let oldSize := length flags in
      let resized := Resize junk (Z.to_nat (u32 (index + 1))) flags in
      foldl (fun v i => <[i := 0]> v) resized
        (seq oldSize (Z.to_nat index + 1 - oldSize))
    else flags in
  let bit := shl32 1 (Z.land batchIndex 31) in
  set_basePassFlags
    (alter (fun w => Z.lor w bit) (Z.to_nat index) flags1) d.

(** [Drawable::HasBasePass] *)
Definition HasBasePass (batchIndex : Z) (d : Drawable) : bool :=
  let index := shr32 batchIndex 5 in
  match basePassFlags_ d !! Z.to_nat index with
  | Some w => negb (Z.land w (shl32 1 (Z.land batchIndex 31)) =? 0)
  | None => false
  end.

(** [Drawable::ClearLights] *)
Definition ClearLights (d : Drawable) : Drawable :=
  let flags :=
    foldl (fun v i => <[i := 0]> v) (basePassFlags_ d)
      (seq 0 (length (basePassFlags_ d))) in
  mkDrawable (node_ d) (octant_ d) (lodBias_ d) (maxLights_ d)
    (viewFrameNumber_ d) (viewCamera_ d) None [] flags
    (worldBoundingBox_ d) (worldBoundingBoxDirty_ d) (hookCalls_ d).

(** [Drawable::AddLight] *)
Definition AddLight (light : LightPtr) (d : Drawable) : Drawable :=
  mkDrawable (node_ d) (octant_ d) (lodBias_ d) (maxLights_ d)
    (viewFrameNumber_ d) (viewCamera_ d)
    (if lights_ d is [] then Some light else firstLight_ d)
    (lights_ d ++ [light]) (basePassFlags_ d)
    (worldBoundingBox_ d) (worldBoundingBoxDirty_ d) (hookCalls_ d).

(** *** Light limiting *)

(** What [LimitLights] uses of the math and light classes, which are not
    among the sources: [BoundingBox::Center] and the value that
    [Light::SetIntensitySortValue(position, true)] stores into the light's
    [sortValue_]. *)
Class LightModel := {
  Center : BoundingBox -> Vector3;
  IntensitySortValue : LightPtr -> Vector3 -> spec_float
}.

(** The [sortValue_] member of every light. *)
Definition SortValues := LightPtr -> spec_float.

(** Modelled from the spec: [Light::SetIntensitySortValue], not among the
    sources; it stores the intensity-based sort value of the light for the
    given position into the light's [sortValue_]. *)
Definition SetIntensitySortValue {lightModel : LightModel}
    (light : LightPtr) (position : Vector3) (sv : SortValues) : SortValues :=
  fun l => if decide (l = light) then IntensitySortValue light position else sv l.

(** Modelled from the spec: [CompareDrawables], not among the sources; the
    order of the sort, [lhs->GetSortValue() < rhs->GetSortValue()]. *)
Definition CompareDrawables (sv : SortValues) (lhs rhs : LightPtr) : bool :=
  SFltb (sv lhs) (sv rhs).

(** Modelled from the spec: [Sort] of Sort.h, which is not among the
    sources. The spec asks for a stable sort by ascending sort value; this
    is the stable insertion sort, driven by the comparison function only. *)
Fixpoint SortInsert {A} (compare : A -> A -> bool) (x : A) (l : list A) : list A :=
  match l with
  | [] => [x]
  | y :: l' => if compare x y then x :: y :: l' else y :: SortInsert compare x l'
  end.

(** Modelled from the spec: [Sort(begin, end, compare)] of Sort.h, see
    [SortInsert]; the elements are inserted from first to last. *)
Definition Sort {A} (compare : A -> A -> bool) (l : list A) : list A :=
  foldl (fun acc x => SortInsert compare x acc) [] l.

(** [Drawable::LimitLights], on the drawable and the lights' sort values. *)
Definition LimitLights {variant : DrawableVariant} {lightModel : LightModel}
    (junk : nat -> LightPtr) (d : Drawable) (sv : SortValues)
  : Drawable * SortValues :=
  if decide (maxLights_ d = 0) then (d, sv)
  else
    let '(d1, box) := GetWorldBoundingBox d in
    let worldPos := Center box in
    let sv1 :=
      foldl (fun st light => SetIntensitySortValue light worldPos st) sv (lights_ d1) in
    let sorted := Sort (CompareDrawables sv1) (lights_ d1) in
    let cut :=
      if decide (maxLights_ d1 < Z.of_nat (length sorted))
      then Resize junk (Z.to_nat (maxLights_ d1)) sorted
      else sorted in
    (set_lights cut d1, sv1).

(** ** Octant *)

(** The members of [Octant] that the drawable bookkeeping uses. [parent_]
    and [level_] are given by the octant's position ([OctantPtr]); the
    boxes play no role in the counts. [children_] has [NUM_OCTANTS] slots,
    [None] is the null pointer. A child octant is owned by its slot. *)
Inductive Octant := mkOctant {
  drawables_ : list DrawablePtr;
  children_ : list (option Octant);
  numDrawables_ : Z
}.

Definition set_drawables (l : list DrawablePtr) (o : Octant) : Octant :=
  mkOctant l (children_ o) (numDrawables_ o).

Definition set_numDrawables (n : Z) (o : Octant) : Octant :=
  mkOctant (drawables_ o) (children_ o) n.

Definition set_child (i : nat) (c : option Octant) (o : Octant) : Octant :=
  mkOctant (drawables_ o) (<[i := c]> (children_ o)) (numDrawables_ o).

(** [children_[i]] *)
Definition child (i : nat) (o : Octant) : option Octant :=
  mjoin (children_ o !! i).

(** [Octant::GetParent] of a non-null pointer. *)
Definition parent_ (this : OctantPtr) : option OctantPtr :=
  match this with
  | [] => None
  | _ :: parent => Some parent
  end.

(** Dereference: the octant at a position, [None] when no octant is there. *)
Fixpoint octant_at (this : OctantPtr) (root : Octant) : option Octant :=
  match this with
  | [] => Some root
  | i :: parent => octant_at parent root ≫= child i
  end.

(** Store a new value for the octant at a position; the slots on the way
    from the root own the octant, so they are rebuilt around it. *)
Fixpoint set_octant_at (this : OctantPtr) (new : Octant) (root : Octant) : Octant :=
  match this with
  | [] => new
  | i :: parent =>
      match octant_at parent root with
      | Some p => set_octant_at parent (set_child i (Some new) p) root
      | None => root
      end
  end.

Definition modify_octant (this : OctantPtr) (f : Octant -> Octant)
    (root : Octant) : Octant :=
  match octant_at this root with
  | Some o => set_octant_at this (f o) root
  | None => root
  end.

(** Modelled from the spec: the octant that the [Octant] constructor, not
    among the sources, builds: no drawables, no children, count zero. *)
Definition Octant_new : Octant :=
  mkOctant [] (replicate NUM_OCTANTS None) 0.

(** [Octant::GetNumDrawables] *)
Definition GetNumDrawables (o : Octant) : Z := numDrawables_ o.

(** [Octant::IsEmpty] *)
Definition IsEmpty (o : Octant) : bool := numDrawables_ o =? 0.

(** All drawables held in an octant and below it, the octant's own first,
    then those of the children by slot. *)
Fixpoint subtree_drawables (o : Octant) : list DrawablePtr :=
  drawables_ o ++
  flat_map (fun c => match c with
                     | Some c' => subtree_drawables c'
                     | None => []
                     end) (children_ o).

(** [Octant::IncDrawableCount]; it touches the counts of the tree only. *)
Fixpoint IncDrawableCount (this : OctantPtr) (root : Octant) : Octant :=
  let root1 :=
    modify_octant this
      (fun o => set_numDrawables (u32 (numDrawables_ o + 1)) o) root in
  match this with
  | [] => root1
  | _ :: parent => IncDrawableCount parent root1
  end.

(** ** The scene: drawables, the octree and its queues *)

(** The drawable objects by pointer, the root octant of the one [Octree],
    and the two queues of the octree. A queue entry is live when its
    drawable is among the objects. *)
Record Scene := mkScene {
  objects : gmap DrawablePtr Drawable;
  octree : Octant;
  drawableUpdates_ : list DrawablePtr;
  drawableReinsertions_ : list DrawablePtr
}.

Definition set_objects (m : gmap DrawablePtr Drawable) (s : Scene) : Scene :=
  mkScene m (octree s) (drawableUpdates_ s) (drawableReinsertions_ s).

Definition set_octree (t : Octant) (s : Scene) : Scene :=
  mkScene (objects s) t (drawableUpdates_ s) (drawableReinsertions_ s).

Definition set_drawableUpdates (q : list DrawablePtr) (s : Scene) : Scene :=
  mkScene (objects s) (octree s) q (drawableReinsertions_ s).

Definition set_drawableReinsertions (q : list DrawablePtr) (s : Scene) : Scene :=
  mkScene (objects s) (octree s) (drawableUpdates_ s) q.

(** [drawable->SetOctant(octant)] *)
Definition SetOctant (drawable : DrawablePtr) (octant : option OctantPtr)
    (s : Scene) : Scene :=
  set_objects (alter (set_octant octant) drawable (objects s)) s.

(** [Octant::AddDrawable] *)
Definition AddDrawable (this : OctantPtr) (drawable : DrawablePtr) (s : Scene) : Scene :=
  let s1 := SetOctant drawable (Some this) s in
  let t2 :=
    modify_octant this
      (fun o => set_drawables (drawables_ o ++ [drawable]) o) (octree s1) in
  set_octree (IncDrawableCount this t2) s1.

(** Modelled from the spec: [Octant::DeleteChild] by pointer, whose body is
    not among the sources. The spec has the octant detached and freed by
    its parent, without touching the other children. The header adds for
    the destructor: drawables that still exist are moved to the root, and
    the child octants are freed with it. So the slot of [parent] that holds
    [octant] becomes null, the whole subtree of [octant] goes away, and the
    drawables still held in that subtree are appended to the root's list
    with their octant set to the root (no count is changed by the move). *)
Definition DeleteChild (parent octant : OctantPtr) (s : Scene) : Scene :=
  match octant with
  | i :: p =>
      if decide (p = parent) then
        match octant_at octant (octree s) with
        | Some c =>
            let moved := subtree_drawables c in
            let s1 := foldl (fun s' d => SetOctant d (Some []) s') s moved in
            let t1 :=
              modify_octant []
                (fun r => set_drawables (drawables_ r ++ moved) r) (octree s1) in
            set_octree (modify_octant parent (set_child i None) t1) s1
        | None => s
        end
      else s
  | [] => s
  end.

(** [Octant::DecDrawableCount]. [parent] is read before the count is
    changed, as in the source, so the octant may be freed in between. *)
Fixpoint DecDrawableCount (this : OctantPtr) (s : Scene) : Scene :=
  match octant_at this (octree s) with
  | None => s
  | Some o =>
      let n := u32 (numDrawables_ o - 1) in
      let s1 :=
        set_octree (set_octant_at this (set_numDrawables n o) (octree s)) s in
      match this with
      | [] => s1
      | _ :: parent =>
          let s2 := if decide (n = 0) then DeleteChild parent this s1 else s1 in
          DecDrawableCount parent s2
      end
  end.

(** [Octant::RemoveDrawable]: [Find] gives the first position of the
    drawable in [drawables_], [Erase] removes that element. *)
Definition RemoveDrawable (this : OctantPtr) (drawable : DrawablePtr)
    (resetOctant : bool) (s : Scene) : Scene :=
  match octant_at this (octree s) with
  | None => s
  | Some o =>
      match list_find (fun x => x = drawable) (drawables_ o) with
      | Some (i, _) =>
          let s1 := if resetOctant then SetOctant drawable None s else s in
          let t2 :=
            set_octant_at this (set_drawables (delete i (drawables_ o)) o)
              (octree s1) in
          DecDrawableCount this (set_octree t2 s1)
      | None => s
      end
  end.

(** Modelled from the spec: [Octant::GetOrCreateChild], not among the
    sources; the child in slot [index], created empty if absent. *)
Definition GetOrCreateChild (this : OctantPtr) (index : nat) (s : Scene) : Scene :=
  match octant_at this (octree s) with
  | Some o =>
      match child index o with
      | Some _ => s
      | None =>
          set_octree
            (set_octant_at this (set_child index (Some Octant_new) o) (octree s)) s
      end
  | None => s
  end.

(** The geometry of the octree, which the sources do not contain: the
    number of levels, and the fit tests of [InsertDrawable] as a function
    that says, for an octant and a drawable, into which of the
    [NUM_OCTANTS] children the drawable descends ([None]: it stays at this
    octant). *)
Class OctreeGeometry := {
  numLevels_ : nat;
  FitChild : OctantPtr -> Drawable -> option (fin NUM_OCTANTS)
}.

(** Modelled from the spec: [Octant::InsertDrawable], not among the
    sources. At the maximum level, or when the fit tests keep the drawable
    here, it is added to this octant; otherwise the insertion recurses into
    the child that contains it, creating the child if absent. [levels] is
    the number of levels left below this octant. *)
Fixpoint InsertDrawable {geometry : OctreeGeometry} (levels : nat) (this : OctantPtr)
    (drawable : DrawablePtr) (s : Scene) : Scene :=
  match levels with
  | O => AddDrawable this drawable s
  | S l =>
      match objects s !! drawable ≫= FitChild this with
      | Some i =>
          let index := fin_to_nat i in
          InsertDrawable l (index :: this) drawable (GetOrCreateChild this index s)
      | None => AddDrawable this drawable s
      end
  end.

(** Modelled from the spec: [Octree::QueueUpdate], whose body is not among
    the sources; it appends to the update queue. *)
Definition QueueUpdate (drawable : DrawablePtr) (s : Scene) : Scene :=
  set_drawableUpdates (drawableUpdates_ s ++ [drawable]) s.

(** Modelled from the spec: [Octree::QueueReinsertion], whose body is not
    among the sources; it appends to the reinsertion queue. The lock it
    takes has no counterpart here. *)
Definition QueueReinsertion (drawable : DrawablePtr) (s : Scene) : Scene :=
  set_drawableReinsertions (drawableReinsertions_ s ++ [drawable]) s.

(** Modelled from the spec: [Octree::CancelUpdate], not among the sources;
    it removes the pending entries of the drawable from the update queue. *)
Definition CancelUpdate (drawable : DrawablePtr) (s : Scene) : Scene :=
  set_drawableUpdates (filter (fun x => x <> drawable) (drawableUpdates_ s)) s.

(** Modelled from the spec: [Octree::CancelReinsertion], not among the
    sources; it removes the pending entries of the drawable from the
    reinsertion queue. *)
Definition CancelReinsertion (drawable : DrawablePtr) (s : Scene) : Scene :=
  set_drawableReinsertions
    (filter (fun x => x <> drawable) (drawableReinsertions_ s)) s.

(** Modelled from the spec: reinsertion of one queued drawable by
    [Octree::ReinsertDrawables]: it is removed from its current octant and
    inserted again from the root. *)
Definition Reinsert {geometry : OctreeGeometry}
    (drawable : DrawablePtr) (s : Scene) : Scene :=
  let s1 :=
    match objects s !! drawable ≫= octant_ with
    | Some o => RemoveDrawable o drawable true s
    | None => s
    end in
  InsertDrawable (numLevels_ - 1) [] drawable s1.

(** [Drawable::UpdateDistance], restricted to the modelled members: the
    distances are floats computed from the camera, the box is fetched with
    [GetWorldBoundingBox]. *)
Definition UpdateDistance {variant : DrawableVariant} (d : Drawable) : Drawable :=
  fst (GetWorldBoundingBox d).

(** Modelled from the spec: [Octree::UpdateDrawables], whose body is not
    among the sources. Every live entry of the update queue has its
    distance recomputed, then the queue is cleared. *)
Definition UpdateDrawables {variant : DrawableVariant} (s : Scene) : Scene :=
  set_drawableUpdates []
    (foldl (fun s' d => set_objects (alter UpdateDistance d (objects s')) s')
       s (drawableUpdates_ s)).

(** Modelled from the spec: [Octree::ReinsertDrawables], whose body is not
    among the sources. Every live entry of the reinsertion queue is
    reinserted, then the queue is cleared. *)
Definition ReinsertDrawables {geometry : OctreeGeometry} (s : Scene) : Scene :=
  set_drawableReinsertions []
    (foldl (fun s' d => if objects s' !! d is Some _ then Reinsert d s' else s')
       s (drawableReinsertions_ s)).

(** Modelled from the spec: [Octree::Update], whose body is not among the
    sources; the two stages in order. *)
Definition Update {variant : DrawableVariant} {geometry : OctreeGeometry}
    (s : Scene) : Scene :=
  ReinsertDrawables (UpdateDrawables s).

(** ** Drawable, octree side *)

(** [Drawable::MarkForUpdate] *)
Definition MarkForUpdate (this : DrawablePtr) (s : Scene) : Scene :=
  match objects s !! this ≫= octant_ with
  | Some _ => QueueUpdate this s
  | None => s
  end.

(** [Drawable::OnMarkedDirty] *)
Definition OnMarkedDirty (this : DrawablePtr) (node : option NodePtr)
    (s : Scene) : Scene :=
  match objects s !! this with
  | Some d =>
      if decide (node = node_ d) then
        let s1 :=
          set_objects (<[this := set_worldBoundingBoxDirty true d]> (objects s)) s in
        match octant_ d with
        | Some _ => QueueReinsertion this s1
        | None => s1
        end
      else s
  | None => s
  end.

(** [Drawable::AddToOctree]; [hasOctree] says whether the node's scene
    exists and has an [Octree] component. The drawable goes to the root
    octant, through [Octant::AddDrawable] of the octree. *)
Definition AddToOctree (hasOctree : bool) (this : DrawablePtr) (s : Scene) : Scene :=
  if hasOctree then AddDrawable [] this s else s.

(** [Drawable::RemoveFromOctree] *)
Definition RemoveFromOctree (this : DrawablePtr) (s : Scene) : Scene :=
  match objects s !! this ≫= octant_ with
  | Some octant =>
      let s1 := CancelUpdate this s in
      let s2 := CancelReinsertion this s1 in
      RemoveDrawable octant this true s2
  | None => s
  end.

(** [Drawable::~Drawable]: the body, then the object is gone. *)
Definition Drawable_destroy (this : DrawablePtr) (s : Scene) : Scene :=
  let s1 := RemoveFromOctree this s in
  set_objects (delete this (objects s1)) s1.

(** ** The count invariant *)

(** What a slot of [children_] adds to the count of its octant. *)
Definition child_count (c : option Octant) : Z :=
  if c is Some c' then numDrawables_ c' else 0.

(** The sum of [numDrawables_] over the existing children. *)
Definition children_count (o : Octant) : Z :=
  foldr (fun c acc => child_count c + acc) 0 (children_ o).

(** The count of one octant: its own drawables plus the counts of its
    existing children. *)
Definition count_ok (o : Octant) : Prop :=
  numDrawables_ o = Z.of_nat (length (drawables_ o)) + children_count o.

(** What the types of the members say: the count is an [unsigned] and
    [children_] has [NUM_OCTANTS] slots. *)
Definition octant_wf (o : Octant) : Prop :=
  0 <= numDrawables_ o < 2 ^ 32 /\ length (children_ o) = NUM_OCTANTS.

(** Every octant of the tree has a consistent count. *)
Definition CountInvariant (root : Octant) : Prop :=
  forall q o, octant_at q root = Some o -> count_ok o /\ octant_wf o.

(** The invariant with the count of the octant [this] off by [delta]: the
    state between the change of a drawable list and the count update. *)
Definition counts_ok_but (this : OctantPtr) (delta : Z) (root : Octant) : Prop :=
  forall q o, octant_at q root = Some o ->
    numDrawables_ o + (if decide (q = this) then delta else 0)
      = Z.of_nat (length (drawables_ o)) + children_count o /\
    octant_wf o.

(** [Octree::Octree]: an empty root octant and empty queues. *)
Definition Scene_new (objs : gmap DrawablePtr Drawable) : Scene :=
  mkScene objs Octant_new [] [].

(** The public mutations of the tree. A call needs a live octant to be
    called on, and adding needs the root count below the largest unsigned. *)
Inductive octree_mutation {geometry : OctreeGeometry} : Scene -> Scene -> Prop :=
  | mutation_AddDrawable this drawable s :
      is_Some (octant_at this (octree s)) ->
      numDrawables_ (octree s) < 2 ^ 32 - 1 ->
      octree_mutation s (AddDrawable this drawable s)
  | mutation_RemoveDrawable this drawable resetOctant s :
      octree_mutation s (RemoveDrawable this drawable resetOctant s)
  | mutation_InsertDrawable drawable s :
      numDrawables_ (octree s) < 2 ^ 32 - 1 ->
      octree_mutation s (InsertDrawable (numLevels_ - 1) [] drawable s)
  | mutation_Reinsert drawable s :
      numDrawables_ (octree s) < 2 ^ 32 - 1 ->
      octree_mutation s (Reinsert drawable s).

(** The scenes that the public mutations produce from a new octree. *)
Inductive octree_reachable {geometry : OctreeGeometry} : Scene -> Prop :=
  | reachable_new objs : octree_reachable (Scene_new objs)
  | reachable_step s s' :
      octree_reachable s -> octree_mutation s s' -> octree_reachable s'.

(** ** The drawable protocol *)

(** The calls that the scene, the nodes and the frame driver make on the
    drawables and the octree. *)
Inductive protocol_step {variant : DrawableVariant} {geometry : OctreeGeometry}
  : Scene -> Scene -> Prop :=
  | step_AddToOctree hasOctree this s :
      protocol_step s (AddToOctree hasOctree this s)
  | step_MarkForUpdate this s :
      protocol_step s (MarkForUpdate this s)
  | step_OnMarkedDirty this node s :
      protocol_step s (OnMarkedDirty this node s)
  | step_RemoveFromOctree this s :
      protocol_step s (RemoveFromOctree this s)
  | step_Update s :
      protocol_step s (Update s)
  | step_destroy this s :
      protocol_step s (Drawable_destroy this s).

(** The scenes that the protocol produces from a new octree. *)
Inductive protocol_reachable {variant : DrawableVariant} {geometry : OctreeGeometry}
  : Scene -> Prop :=
  | protocol_new objs : protocol_reachable (Scene_new objs)
  | protocol_next s s' :
      protocol_reachable s -> protocol_step s s' -> protocol_reachable s'.

(** Every drawable with a pending queue entry is alive and in an octant. *)
Definition queues_linked (s : Scene) : Prop :=
  forall d, d ∈ drawableUpdates_ s \/ d ∈ drawableReinsertions_ s ->
    is_Some (objects s !! d ≫= octant_).

(** Every drawable stays alive, and stays in an octant if it was in one,
    except possibly [but]. *)
Definition octants_kept (but : option DrawablePtr)
    (m m' : gmap DrawablePtr Drawable) : Prop :=
  forall d, Some d <> but ->
    is_Some (m !! d ≫= octant_) -> is_Some (m' !! d ≫= octant_).

(** ** Auxiliary notions of the proofs *)

(** Two positions in different subtrees of a common ancestor. *)
Definition diverge (q this : OctantPtr) : Prop :=
  exists s1 s2 i j p, i <> j /\ q = s1 ++ j :: p /\ this = s2 ++ i :: p.

(** [a] may stand before [b] in a list sorted with [compare]: [b] does not
    compare less than [a]. *)
Definition not_after {A} (compare : A -> A -> bool) (a b : A) : Prop :=
  compare b a = false.

(** The queues of [s'] are those of [s]. *)
Definition same_queues (s s' : Scene) : Prop :=
  drawableUpdates_ s' = drawableUpdates_ s /\
  drawableReinsertions_ s' = drawableReinsertions_ s.

(** [root'] has its octants at the places where [root] has them; the
    octant at [q] has its count changed by [delta q] and its drawable list
    changed by [change q], with as many child slots as before. *)
Definition same_octants (delta : OctantPtr -> Z)
    (change : OctantPtr -> list DrawablePtr -> list DrawablePtr)
    (root root' : Octant) : Prop :=
  forall q,
    match octant_at q root, octant_at q root' with
    | Some o, Some o' =>
        numDrawables_ o' = numDrawables_ o + delta q /\
        drawables_ o' = change q (drawables_ o) /\
        length (children_ o') = length (children_ o)
    | None, None => True
    | _, _ => False
    end.

(** No octant below the root is empty. *)
Definition no_empty_octant (root : Octant) : Prop :=
  forall i p o, octant_at (i :: p) root = Some o -> numDrawables_ o <> 0.

(** The count invariant as a test that runs on a tree. *)
Fixpoint check_counts (o : Octant) : bool :=
  (numDrawables_ o =? Z.of_nat (length (drawables_ o)) + children_count o)
  && (0 <=? numDrawables_ o) && (numDrawables_ o <? 2 ^ 32)
  && bool_decide (length (children_ o) = NUM_OCTANTS)
  && forallb (fun c => match c with
                       | Some c' => check_counts c'
                       | None => true
                       end) (children_ o).

(** ** A small scene *)

(** [M_EPSILON] of Urho3D, 0.000001f. *)
Definition M_EPSILON_f : spec_float := S754_finite false 8796093 (-43).

Definition fresh_junk : nat -> Z := fun _ => 3735928559.

Definition example_variant : DrawableVariant :=
  {| ComputeWorldBoundingBox := fun d => worldBoundingBox_ d |}.

Definition example_lights : LightModel :=
  {| Center := fun box => min_ box;
     IntensitySortValue := fun light _ =>
       S754_finite false (Pos.of_succ_nat light) 0 |}.

(** Three levels; a drawable descends into child 1 of the root, then into
    child 2 of that octant. *)
Definition example_geometry : OctreeGeometry :=
  {| numLevels_ := 3;
     FitChild := fun this _ =>
       match this with
       | [] => Some 1%fin
       | [_] => Some 2%fin
       | _ => None
       end |}.

Definition example_drawable : Drawable :=
  mkDrawable (Some 3%nat) None fone 2 0 None (Some 3%nat) [3; 1; 2]%nat []
    (mkBoundingBox (mkVector3 fzero fzero fzero) (mkVector3 fone fone fone))
    true 0.

Definition example_objects : gmap DrawablePtr Drawable :=
  {[ 7%nat := example_drawable ]}.

(** Drawable 7 inserted into a new octree: it lands in the octant [[2; 1]]. *)
Definition example_scene : Scene :=
  InsertDrawable (geometry := example_geometry) 2 [] 7%nat (Scene_new example_objects).

(** The drawable added to the root, marked for update and marked dirty:
    it is in both queues. *)
Definition example_queued_scene : Scene :=
  OnMarkedDirty 7%nat (Some 3%nat)
    (MarkForUpdate 7%nat (AddToOctree true 7%nat (Scene_new example_objects))).

(** [LimitLights] on the example drawable: three lights, at most two. *)
Definition example_limited : Drawable * SortValues :=
  LimitLights (variant := example_variant) (lightModel := example_lights)
    (fun _ => O) example_drawable (fun _ => fzero).

Definition example_frame : FrameInfo := mkFrameInfo 5 (Some 1%nat).

Definition example_shadow_frame : FrameInfo := mkFrameInfo 5 (Some 2%nat).

(** The example drawable after a query of its box: the box is clean. *)
Definition example_clean_drawable : Drawable :=
  fst (GetWorldBoundingBox (variant := example_variant) example_drawable).

(** The clean drawable added to the root of a new octree. *)
Definition example_clean_scene : Scene :=
  AddToOctree true 7%nat (Scene_new {[ 7%nat := example_clean_drawable ]}).

(** The queued drawable taken out of the root by a direct call of
    [Octant::RemoveDrawable]: its [octant_] is null, its queue entries are
    still there. *)
Definition example_unlinked_scene : Scene :=
  RemoveDrawable [] 7%nat true example_queued_scene.

(** Two drawables: 7 as before, and 9 as constructed. *)
Definition example_pair_objects : gmap DrawablePtr Drawable :=
  {[ 7%nat := example_drawable; 9%nat := Drawable_new ]}.

(** Drawable 7 inserted into a new octree, drawable 9 in no octant. *)
Definition example_pair_scene : Scene :=
  InsertDrawable (geometry := example_geometry) 2 [] 7%nat
    (Scene_new example_pair_objects).

(** Both drawables in the octant [[2; 1]]. *)
Definition example_shared_scene : Scene :=
  AddDrawable [2; 1]%nat 9%nat example_pair_scene.

(** * Properties *)

(** Two lists that cannot be equal because their lengths differ. *)
Ltac length_clash E :=
  apply (f_equal length) in E; rewrite ?length_app in E; simpl in E;
  rewrite ?length_app in E; simpl in E; lia.

(** ** The embedding on the small scene *)

Example example_scene_octree :
  octree example_scene
  = mkOctant []
      [None;
       Some (mkOctant []
               [None; None;
                Some (mkOctant [7%nat] (replicate NUM_OCTANTS None) 1);
                None; None; None; None; None] 1);
       None; None; None; None; None; None] 1.
Proof. reflexivity. Qed.

Example example_scene_octant :
  objects example_scene !! 7%nat ≫= octant_ = Some [2; 1]%nat.
Proof. reflexivity. Qed.

Example example_scene_removed :
  octree (RemoveDrawable [2; 1]%nat 7%nat true example_scene) = Octant_new /\
  objects (RemoveDrawable [2; 1]%nat 7%nat true example_scene) !! 7%nat ≫= octant_
  = None.
Proof. split; reflexivity. Qed.

Example example_scene_reinserted :
  octree (Reinsert (geometry := example_geometry) 7%nat example_scene)
  = octree example_scene.
Proof. reflexivity. Qed.

Example example_limited_lights :
  lights_ example_drawable = [3; 1; 2]%nat /\
  lights_ (fst example_limited) = [1; 2]%nat /\
  worldBoundingBoxDirty_ (fst example_limited) = false.
Proof. repeat split; reflexivity. Qed.

(** ** Floats: the comparisons *)

Lemma SFcompare_antisym a b c :
  SFcompare a b = Some c -> SFcompare b a = Some (CompOpp c).
Proof.
  destruct a as [sa|sa| |sa ma ea], b as [sb|sb| |sb mb eb]; simpl; intros Hc;
    try discriminate; try (injection Hc as <-);
    try (destruct sa; reflexivity); try (destruct sb; reflexivity);
    try (destruct sa, sb; reflexivity).
  f_equal.
  destruct sa, sb; try reflexivity;
    rewrite (Z.compare_antisym ea eb); destruct (ea ?= eb)%Z; simpl;
    try reflexivity; rewrite Pos.compare_cont_antisym;
    rewrite ?CompOpp_involutive; reflexivity.
Qed.

Lemma SFcompare_refl a : a <> S754_nan -> SFcompare a a = Some Eq.
Proof.
  destruct a as [s|s| |s m e]; simpl; intros Hn; try congruence.
  - destruct s; reflexivity.
  - f_equal. destruct s; rewrite Z.compare_refl, Pos.compare_cont_refl; reflexivity.
Qed.

Lemma SFltb_asym a b : SFltb a b = true -> SFltb b a = false.
Proof.
  unfold SFltb. destruct (SFcompare a b) as [c|] eqn:E; [|discriminate].
  rewrite (SFcompare_antisym _ _ _ E). destruct c; simpl; congruence.
Qed.

Lemma SFltb_false_SFleb a b :
  a <> S754_nan -> b <> S754_nan -> SFltb a b = false -> SFleb b a = true.
Proof.
  unfold SFltb, SFleb. intros Ha Hb.
  destruct (SFcompare a b) as [c|] eqn:E.
  - rewrite (SFcompare_antisym _ _ _ E). destruct c; simpl; congruence.
  - destruct a, b; simpl in E; congruence.
Qed.

Lemma SFltb_SFleb a b : SFltb a b = true -> SFleb a b = true.
Proof. unfold SFltb, SFleb. destruct (SFcompare a b) as [[]|]; congruence. Qed.

Lemma SFltb_fzero_not_nan a : SFltb fzero a = true -> a <> S754_nan.
Proof. intros H ->. discriminate. Qed.

Lemma SFleb_trans a b c :
  SFleb a b = true -> SFleb b c = true -> SFleb a c = true.
Proof.
  unfold SFleb.
  destruct a as [sa|sa| |sa ma ea], b as [sb|sb| |sb mb eb], c as [sc|sc| |sc mc ec];
    simpl; try discriminate; try reflexivity;
    try (destruct sa; simpl; try discriminate; try reflexivity; fail);
    try (destruct sb; simpl; try discriminate; try reflexivity; fail);
    try (destruct sc; simpl; try discriminate; try reflexivity; fail);
    try (destruct sa, sb; simpl; try discriminate; try reflexivity; fail);
    try (destruct sa, sc; simpl; try discriminate; try reflexivity; fail);
    try (destruct sb, sc; simpl; try discriminate; try reflexivity; fail);
    try (destruct sa, sb, sc; simpl; try discriminate; try reflexivity; fail).
  change (Pos.compare_cont Eq ma mb) with (ma ?= mb)%positive.
  change (Pos.compare_cont Eq mb mc) with (mb ?= mc)%positive.
  change (Pos.compare_cont Eq ma mc) with (ma ?= mc)%positive.
  destruct sa, sb, sc; simpl; try discriminate; try reflexivity;
    destruct (Z.compare_spec ea eb), (Z.compare_spec eb ec), (Z.compare_spec ea ec);
    try discriminate; try reflexivity; try lia; subst;
    destruct (Pos.compare_spec ma mb), (Pos.compare_spec mb mc),
      (Pos.compare_spec ma mc);
    simpl; try discriminate; try reflexivity; try lia.
Qed.

Lemma fgt_positive eps b :
  SFltb fzero eps = true -> fgt b eps = true -> SFltb fzero b = true.
Proof.
  unfold fgt, SFltb, fzero.
  destruct eps as [s|s| |s m e], b as [s'|s'| |s' m' e']; simpl;
    try discriminate; try reflexivity;
    try (destruct s; discriminate); try (destruct s'; discriminate);
    destruct s, s'; simpl; try discriminate; reflexivity.
Qed.

(** ** The drawable bookkeeping *)

(** C8. For every float [bias], NaN, zero and the negative ones included,
    [SetLodBias] stores [Max(bias, M_EPSILON)]: the stored value is [bias]
    or [M_EPSILON], it is not below [M_EPSILON], not below [bias] when
    [bias] is a number, and it is strictly positive. [M_EPSILON] is any
    positive float. *)
Theorem SetLodBias_clamped (M_EPSILON bias : spec_float) (d : Drawable) :
  SFltb fzero M_EPSILON = true ->
  let b := lodBias_ (SetLodBias M_EPSILON bias d) in
  b = Max bias M_EPSILON /\
  (b = bias \/ b = M_EPSILON) /\
  SFleb M_EPSILON b = true /\
  (bias <> S754_nan -> SFleb bias b = true) /\
  SFltb fzero b = true.
Proof.
  intros Heps b. subst b. simpl. unfold Max.
  pose proof (SFltb_fzero_not_nan _ Heps) as Hn.
  destruct (fgt bias M_EPSILON) eqn:E.
  - repeat split.
    + by left.
    + by apply SFltb_SFleb.
    + intros Hb. unfold SFleb. by rewrite SFcompare_refl.
    + by eapply fgt_positive.
  - repeat split.
    + by right.
    + unfold SFleb. by rewrite SFcompare_refl.
    + intros Hb. by apply SFltb_false_SFleb.
    + done.
Qed.

Lemma SetLodBias_clamped_witness :
  lodBias_ (SetLodBias M_EPSILON_f (S754_finite true 8388608 (-23)) Drawable_new)
    = M_EPSILON_f /\
  lodBias_ (SetLodBias M_EPSILON_f fzero Drawable_new) = M_EPSILON_f /\
  SFltb fzero (lodBias_ (SetLodBias M_EPSILON_f S754_nan Drawable_new)) = true.
Proof.
  split; [|split].
  - apply (SetLodBias_clamped M_EPSILON_f (S754_finite true 8388608 (-23)) Drawable_new).
    reflexivity.
  - apply (SetLodBias_clamped M_EPSILON_f fzero Drawable_new). reflexivity.
  - apply (SetLodBias_clamped M_EPSILON_f S754_nan Drawable_new). reflexivity.
Defined.

(** C5. [GetWorldBoundingBox] runs the recompute hook once if the dirty
    flag is set and not at all otherwise, leaves the flag cleared and
    returns the cached box; a second call right after it runs no hook,
    changes nothing and returns the same box. *)
Theorem GetWorldBoundingBox_cached {variant : DrawableVariant} (d : Drawable) :
  let d1 := fst (GetWorldBoundingBox d) in
  let box1 := snd (GetWorldBoundingBox d) in
  let d2 := fst (GetWorldBoundingBox d1) in
  let box2 := snd (GetWorldBoundingBox d1) in
  hookCalls_ d1 = (hookCalls_ d + if worldBoundingBoxDirty_ d then 1 else 0)%nat /\
  worldBoundingBoxDirty_ d1 = false /\
  box1 = worldBoundingBox_ d1 /\
  (if worldBoundingBoxDirty_ d
   then box1 = ComputeWorldBoundingBox d
   else d1 = d) /\
  d2 = d1 /\ box2 = box1 /\
  (hookCalls_ d2 <= hookCalls_ d + 1)%nat.
Proof.
  unfold GetWorldBoundingBox. simpl.
  destruct (worldBoundingBoxDirty_ d) eqn:E; simpl; rewrite ?E; simpl.
  - repeat split; lia.
  - repeat split; lia.
Qed.

(** C10. [MarkInShadowView] leaves the drawable as it is when the stored
    frame number is the frame's; otherwise it stores the frame number and
    clears the camera. After [MarkInView] for a frame, [MarkInShadowView]
    for a frame with the same number changes nothing, and [IsInView] for
    the frame and its camera is still true. *)
Theorem MarkInShadowView_effect (frame : FrameInfo) (d : Drawable) :
  (viewFrameNumber_ d = frameNumber_ frame -> MarkInShadowView frame d = d) /\
  (viewFrameNumber_ d <> frameNumber_ frame ->
     MarkInShadowView frame d = set_view (frameNumber_ frame) None d) /\
  (forall shadowFrame,
     frameNumber_ shadowFrame = frameNumber_ frame ->
     MarkInShadowView shadowFrame (MarkInView frame d) = MarkInView frame d /\
     IsInView frame (MarkInShadowView shadowFrame (MarkInView frame d)) = true).
Proof.
  unfold MarkInShadowView. split; [|split].
  - intros E. by rewrite decide_False by (by intros []).
  - intros E. by rewrite decide_True.
  - intros shadowFrame E. simpl. rewrite decide_False by (by intros []).
    split; [done|]. unfold IsInView. simpl. by rewrite !bool_decide_eq_true_2.
Qed.

Lemma MarkInShadowView_effect_witness :
  MarkInShadowView example_frame Drawable_new = set_view 5 None Drawable_new /\
  IsInView example_frame
    (MarkInShadowView example_shadow_frame (MarkInView example_frame Drawable_new))
  = true.
Proof.
  destruct (MarkInShadowView_effect example_frame Drawable_new)
    as (_ & Hdiff & Hsame).
  split.
  - apply Hdiff. simpl. lia.
  - apply (Hsame example_shadow_frame). reflexivity.
Defined.

(** C1. [SetBasePass] computes the word index with [batchIndex << 5] where
    [HasBasePass] uses [batchIndex >> 5]: on a new drawable, after
    [SetBasePass(1)] the query [HasBasePass(1)] is still false, the storage
    has grown to 33 words, and the bit of pass 1025, which was not set,
    reads as set. Pass 0, where both shifts give word 0, works. *)
Theorem SetBasePass_shift_mismatch :
  let d := SetBasePass fresh_junk 1 Drawable_new in
  HasBasePass 1 d = false /\
  length (basePassFlags_ d) = 33%nat /\
  HasBasePass 1025 Drawable_new = false /\
  HasBasePass 1025 d = true /\
  HasBasePass 0 (SetBasePass fresh_junk 0 Drawable_new) = true.
Proof.
  vm_compute. split; [reflexivity|]. split; [reflexivity|].
  split; [reflexivity|]. split; reflexivity.
Qed.

(** ** Light limiting *)

Section Sort.
Context {A : Type} (compare : A -> A -> bool).
Hypothesis compare_asym : forall a b, compare a b = true -> compare b a = false.

Lemma SortInsert_Permutation x l : SortInsert compare x l ≡ₚ x :: l.
Proof.
  induction l as [|y l IH]; simpl; [done|].
  destruct (compare x y); [done|]. rewrite IH. apply perm_swap.
Qed.

Lemma Sort_foldl_Permutation l acc :
  foldl (fun acc x => SortInsert compare x acc) acc l ≡ₚ l ++ acc.
Proof.
  revert acc. induction l as [|x l IH]; intros acc; simpl; [done|].
  rewrite IH, SortInsert_Permutation. by rewrite Permutation_middle.
Qed.

Lemma Sort_Permutation l : Sort compare l ≡ₚ l.
Proof. unfold Sort. by rewrite Sort_foldl_Permutation, app_nil_r. Qed.

Lemma SortInsert_HdRel a x l :
  not_after compare a x -> HdRel (not_after compare) a l ->
  HdRel (not_after compare) a (SortInsert compare x l).
Proof.
  intros Hax Hl. destruct l as [|y l]; simpl.
  - by constructor.
  - destruct (compare x y); constructor; [done|]. by inversion Hl.
Qed.

Lemma SortInsert_Sorted x l :
  Sorted (not_after compare) l -> Sorted (not_after compare) (SortInsert compare x l).
Proof.
  induction 1 as [|y l Hl IH Hhd]; simpl.
  - by repeat constructor.
  - destruct (compare x y) eqn:E.
    + constructor; [by constructor|]. constructor. by apply compare_asym.
    + constructor; [done|]. by apply SortInsert_HdRel.
Qed.

Lemma Sort_Sorted l : Sorted (not_after compare) (Sort compare l).
Proof.
  unfold Sort. generalize (Sorted_nil (not_after compare)). generalize (@nil A).
  induction l as [|x l IH]; intros acc Hacc; simpl; [done|].
  apply IH. by apply SortInsert_Sorted.
Qed.
End Sort.

Lemma Sorted_take {A} (R : A -> A -> Prop) n l : Sorted R l -> Sorted R (take n l).
Proof.
  intros Hl. revert n. induction Hl as [|x l Hl IH Hhd]; intros [|n]; simpl;
    try by constructor.
  constructor; [apply IH|]. destruct Hhd; destruct n; simpl; by constructor.
Qed.

Lemma Sorted_impl_Forall {A} (R R' : A -> A -> Prop) l :
  (forall a b, a ∈ l -> b ∈ l -> R a b -> R' a b) -> Sorted R l -> Sorted R' l.
Proof.
  intros Himpl Hl. induction Hl as [|x l Hl IH Hhd]; constructor.
  - apply IH. intros a b Ha Hb. apply Himpl; by right.
  - destruct Hhd as [|y l' Hxy]; constructor.
    apply Himpl; [by left|by right; left|done].
Qed.

Lemma Resize_shrink {A} (junk : nat -> A) n (v : list A) :
  (n <= length v)%nat -> Resize junk n v = take n v.
Proof.
  intros Hn. unfold Resize. replace (n - length v)%nat with O by lia.
  simpl. by rewrite app_nil_r.
Qed.

Section LimitLights.
Context {variant : DrawableVariant} {lightModel : LightModel}.

Lemma foldl_SetIntensitySortValue position lights sv l :
  foldl (fun st light => SetIntensitySortValue light position st) sv lights l
  = if decide (l ∈ lights) then IntensitySortValue l position else sv l.
Proof.
  revert sv. induction lights as [|x lights IH]; intros sv; cbn [foldl].
  - destruct (decide (l ∈ [])) as [Hin|_]; [by apply elem_of_nil in Hin|done].
  - rewrite IH. destruct (decide (l ∈ lights)) as [Hin|Hin].
    + destruct (decide (l ∈ x :: lights)) as [_|Hn]; [done|].
      exfalso. apply Hn. by right.
    + unfold SetIntensitySortValue. destruct (decide (l = x)) as [->|Hne].
      * destruct (decide (x ∈ x :: lights)) as [_|Hn]; [done|].
        exfalso. apply Hn. by left.
      * destruct (decide (l ∈ x :: lights)) as [[?|?]%elem_of_cons|_]; done.
Qed.

(** C4. With [maxLights_] zero, [LimitLights] changes neither the
    drawable nor the lights. Otherwise every light of the list gets its
    intensity sort value for the center of the drawable's world bounding
    box, and the list becomes the first [maxLights_] elements of a
    permutation of itself in which no light has a smaller sort value than
    the light before it: at most [maxLights_] lights, in ascending order of
    the sort value when no sort value is NaN. *)
Theorem LimitLights_sorted (junk : nat -> LightPtr) (d : Drawable) (sv : SortValues) :
  0 <= maxLights_ d ->
  let d' := fst (LimitLights junk d sv) in
  let sv' := snd (LimitLights junk d sv) in
  let worldPos := Center (snd (GetWorldBoundingBox d)) in
  (maxLights_ d = 0 -> d' = d /\ sv' = sv) /\
  (maxLights_ d <> 0 ->
     Z.of_nat (length (lights_ d')) <= maxLights_ d /\
     (forall l, l ∈ lights_ d -> sv' l = IntensitySortValue l worldPos) /\
     Sorted (fun a b =>
               SFltb (IntensitySortValue b worldPos)
                     (IntensitySortValue a worldPos) = false) (lights_ d') /\
     ((forall l, l ∈ lights_ d -> IntensitySortValue l worldPos <> S754_nan) ->
      StronglySorted (fun a b =>
                SFleb (IntensitySortValue a worldPos)
                      (IntensitySortValue b worldPos) = true) (lights_ d')) /\
     exists sorted, sorted ≡ₚ lights_ d /\
                    lights_ d' = take (Z.to_nat (maxLights_ d)) sorted).
Proof.
  intros Hmax d' sv' worldPos. subst d' sv'. unfold LimitLights.
  destruct (decide (maxLights_ d = 0)) as [Hz|Hnz]; [by split|].
  split; [done|]. intros _.
  destruct (GetWorldBoundingBox d) as [d1 box] eqn:Hget.
  assert (Hl1 : lights_ d1 = lights_ d).
  { unfold GetWorldBoundingBox in Hget. injection Hget as <- _.
    by destruct (worldBoundingBoxDirty_ d). }
  assert (Hm1 : maxLights_ d1 = maxLights_ d).
  { unfold GetWorldBoundingBox in Hget. injection Hget as <- _.
    by destruct (worldBoundingBoxDirty_ d). }
  simpl in worldPos. cbn [fst snd].
  set (sv1 := foldl _ sv (lights_ d1)).
  set (sorted := Sort (CompareDrawables sv1) (lights_ d1)).
  assert (Hperm : sorted ≡ₚ lights_ d).
  { unfold sorted. by rewrite Sort_Permutation, Hl1. }
  assert (Hsv1 : forall l, l ∈ lights_ d -> sv1 l = IntensitySortValue l worldPos).
  { intros l Hl. unfold sv1. rewrite foldl_SetIntensitySortValue.
    rewrite decide_True; [done|]. by rewrite Hl1. }
  assert (Hcut : (if decide (maxLights_ d1 < Z.of_nat (length sorted))
                  then Resize junk (Z.to_nat (maxLights_ d1)) sorted
                  else sorted)
                 = take (Z.to_nat (maxLights_ d)) sorted).
  { rewrite Hm1. case_decide.
    - apply Resize_shrink. lia.
    - symmetry. apply take_ge. lia. }
  simpl. rewrite Hcut.
  assert (Hsorted : Sorted (fun a b =>
                      SFltb (IntensitySortValue b worldPos)
                            (IntensitySortValue a worldPos) = false)
                      (take (Z.to_nat (maxLights_ d)) sorted)).
  { apply Sorted_take.
    apply (Sorted_impl_Forall (not_after (CompareDrawables sv1))).
    - intros a b Ha Hb. unfold not_after, CompareDrawables.
      rewrite !Hsv1; [done|by rewrite <- Hperm..].
    - apply Sort_Sorted. intros a b. apply SFltb_asym. }
  split; [|split; [|split; [|split]]].
  - rewrite length_take. lia.
  - done.
  - done.
  - intros Hnan. apply Sorted_StronglySorted.
    { intros a b c. apply SFleb_trans. }
    revert Hsorted. apply Sorted_impl_Forall.
    intros a b Ha%subseteq_take Hb%subseteq_take Hab.
    rewrite Hperm in Ha, Hb.
    apply SFltb_false_SFleb; auto.
  - by exists sorted.
Qed.
End LimitLights.

Lemma LimitLights_sorted_witness :
  Z.of_nat (length (lights_ (fst example_limited))) <= 2 /\
  StronglySorted
    (fun a b =>
       SFleb (S754_finite false (Pos.of_succ_nat a) 0)
             (S754_finite false (Pos.of_succ_nat b) 0) = true)
    (lights_ (fst example_limited)) /\
  lights_ (fst example_limited) = [1; 2]%nat.
Proof.
  destruct (LimitLights_sorted (variant := example_variant) (lightModel := example_lights)
              (fun _ => O) example_drawable (fun _ => fzero))
    as [_ Hlimit].
  { simpl. lia. }
  destruct Hlimit as (Hlen & _ & _ & Hsorted & _).
  { simpl. lia. }
  split; [exact Hlen|]. split; [|reflexivity].
  apply Hsorted. intros l _. discriminate.
Defined.

(** ** The octant tree: lookups and updates *)

Lemma Octant_nested_ind (P : Octant -> Prop) :
  (forall ds cs n,
      Forall (fun c => forall c', c = Some c' -> P c') cs ->
      P (mkOctant ds cs n)) ->
  forall o, P o.
Proof.
  intros H. fix IH 1. intros [ds cs n]. apply H.
  induction cs as [|c cs IHcs]; constructor; [|exact IHcs].
  destruct c as [c0|]; intros c' e; [|discriminate].
  injection e as <-. apply IH.
Qed.

Lemma Octant_eta o : mkOctant (drawables_ o) (children_ o) (numDrawables_ o) = o.
Proof. by destruct o. Qed.

Lemma child_set_child_eq i c o :
  (i < length (children_ o))%nat -> child i (set_child i c o) = c.
Proof. intros Hi. unfold child. simpl. by rewrite list_lookup_insert_eq. Qed.

Lemma child_set_child_ne i j c o : i <> j -> child j (set_child i c o) = child j o.
Proof. intros Hi. unfold child. simpl. by rewrite list_lookup_insert_ne. Qed.

Lemma child_Some_lt i o c : child i o = Some c -> (i < length (children_ o))%nat.
Proof.
  unfold child. destruct (children_ o !! i) eqn:E; [|done].
  intros _. by eapply lookup_lt_Some.
Qed.

Lemma child_Some_lookup i o c : child i o = Some c <-> children_ o !! i = Some (Some c).
Proof.
  unfold child. destruct (children_ o !! i) as [[?|]|]; simpl; split; congruence.
Qed.

Lemma set_child_id i o c : child i o = Some c -> set_child i (Some c) o = o.
Proof.
  intros H%child_Some_lookup. unfold set_child. rewrite list_insert_id by done.
  apply Octant_eta.
Qed.

Lemma octant_at_app s p root :
  octant_at (s ++ p) root = octant_at p root ≫= octant_at s.
Proof.
  induction s as [|i s IH]; simpl.
  - by destruct (octant_at p root).
  - rewrite IH. by destruct (octant_at p root).
Qed.

Lemma octant_at_snoc s i o : octant_at (s ++ [i]) o = child i o ≫= octant_at s.
Proof. by rewrite octant_at_app. Qed.

Lemma octant_at_app_Some s p root o :
  octant_at (s ++ p) root = Some o ->
  exists op, octant_at p root = Some op /\ octant_at s op = Some o.
Proof.
  rewrite octant_at_app. destruct (octant_at p root) as [op|]; [|done]. eauto.
Qed.

Lemma set_octant_at_id p root o :
  octant_at p root = Some o -> set_octant_at p o root = root.
Proof.
  revert o. induction p as [|i p IH]; simpl; intros o.
  - congruence.
  - destruct (octant_at p root) as [op|] eqn:E; [|done]. simpl.
    intros Hc. rewrite (set_child_id _ _ _ Hc). by apply IH.
Qed.

Lemma octant_at_set_octant_at p root old new :
  octant_at p root = Some old ->
  octant_at p (set_octant_at p new root) = Some new.
Proof.
  revert old new. induction p as [|i p IH]; simpl; intros old new.
  - done.
  - destruct (octant_at p root) as [op|] eqn:E; [|done]. simpl.
    intros Hc. rewrite (IH op) by done. simpl.
    apply child_set_child_eq. by eapply child_Some_lt.
Qed.

Lemma set_octant_at_app s p root op new :
  octant_at p root = Some op ->
  set_octant_at (s ++ p) new root = set_octant_at p (set_octant_at s new op) root.
Proof.
  intros Hp. revert new. induction s as [|i s IH]; simpl; intros new.
  - done.
  - rewrite octant_at_app, Hp. simpl.
    destruct (octant_at s op) as [q|]; [apply IH|].
    symmetry. by apply set_octant_at_id.
Qed.

Lemma set_octant_at_snoc s i o c new :
  child i o = Some c ->
  set_octant_at (s ++ [i]) new o = set_child i (Some (set_octant_at s new c)) o.
Proof.
  intros Hc. by rewrite (set_octant_at_app s [i] o c).
Qed.

Lemma set_octant_at_fields s new c :
  s <> [] ->
  numDrawables_ (set_octant_at s new c) = numDrawables_ c /\
  drawables_ (set_octant_at s new c) = drawables_ c.
Proof.
  revert new. induction s as [|i s IH]; [done|]. intros new _. simpl.
  destruct (octant_at s c) as [p|] eqn:E; [|done].
  destruct s as [|j s]; [by simplify_eq/=|]. by apply IH.
Qed.

Lemma prefix_trichotomy (a b : list nat) :
  (exists s, b = a ++ s) \/
  (exists s i, a = b ++ i :: s) \/
  (exists p s1 s2 i j, i <> j /\ a = p ++ i :: s1 /\ b = p ++ j :: s2).
Proof.
  revert b. induction a as [|x a IH]; intros b.
  - left. by exists b.
  - destruct b as [|y b].
    + right. left. by exists a, x.
    + destruct (decide (x = y)) as [->|Hne].
      * destruct (IH b) as [[s ->]|[(s & i & ->)|(p & s1 & s2 & i & j & Hij & -> & ->)]].
        -- left. by exists s.
        -- right. left. by exists s, i.
        -- right. right. by exists (y :: p), s1, s2, i, j.
      * right. right. by exists [], a, b, x, y.
Qed.

Lemma position_trichotomy (q this : OctantPtr) :
  (exists s, q = s ++ this) \/
  (exists s k, this = s ++ k :: q) \/
  diverge q this.
Proof.
  destruct (prefix_trichotomy (rev this) (rev q))
    as [[s E]|[(s & i & E)|(p & s1 & s2 & i & j & Hij & E1 & E2)]].
  - left. exists (rev s). apply (f_equal (@rev nat)) in E.
    by rewrite rev_app_distr, !rev_involutive in E.
  - right. left. exists (rev s), i. apply (f_equal (@rev nat)) in E.
    rewrite rev_app_distr, !rev_involutive in E. simpl in E.
    by rewrite <- app_assoc in E.
  - right. right. exists (rev s2), (rev s1), i, j, (rev p).
    apply (f_equal (@rev nat)) in E1, E2.
    rewrite rev_app_distr, !rev_involutive in E1, E2. simpl in E1, E2.
    rewrite <- app_assoc in E1, E2. by split.
Qed.

Lemma octant_at_set_octant_at_cases this root o o' q o1 :
  octant_at this root = Some o ->
  octant_at q (set_octant_at this o' root) = Some o1 ->
  (exists s, q = s ++ this /\ octant_at s o' = Some o1) \/
  (exists s k oq c, this = s ++ k :: q /\ octant_at q root = Some oq /\
      child k oq = Some c /\ octant_at s c = Some o /\
      o1 = set_child k (Some (set_octant_at s o' c)) oq) \/
  (octant_at q root = Some o1 /\ diverge q this).
Proof.
  intros Hthis Hq.
  destruct (position_trichotomy q this)
    as [[s ->]|[(s & k & ->)|(s1 & s2 & i & j & p & Hij & -> & ->)]].
  - left. exists s. split; [done|].
    rewrite octant_at_app, (octant_at_set_octant_at _ _ _ _ Hthis) in Hq. done.
  - right. left.
    replace (s ++ k :: q) with ((s ++ [k]) ++ q) in * by by rewrite <- app_assoc.
    destruct (octant_at_app_Some _ _ _ _ Hthis) as (oq & Hoq & Hs).
    rewrite octant_at_snoc in Hs.
    destruct (child k oq) as [c|] eqn:Hc; [|done]. simpl in Hs.
    rewrite (set_octant_at_app _ _ _ _ _ Hoq) in Hq.
    rewrite (octant_at_set_octant_at _ _ _ _ Hoq) in Hq.
    rewrite (set_octant_at_snoc _ _ _ _ _ Hc) in Hq.
    exists s, k, oq, c. rewrite <- app_assoc. repeat split; try done. congruence.
  - right. right. split; [|by exists s1, s2, i, j, p].
    revert Hthis Hq.
    replace (s2 ++ i :: p) with ((s2 ++ [i]) ++ p) by by rewrite <- app_assoc.
    replace (s1 ++ j :: p) with ((s1 ++ [j]) ++ p) by by rewrite <- app_assoc.
    intros Hthis Hq.
    destruct (octant_at_app_Some _ _ _ _ Hthis) as (op & Hop & Hs).
    rewrite octant_at_snoc in Hs.
    destruct (child i op) as [c|] eqn:Hc; [|done]. simpl in Hs.
    rewrite (set_octant_at_app _ _ _ _ _ Hop) in Hq.
    rewrite octant_at_app, (octant_at_set_octant_at _ _ _ _ Hop) in Hq.
    simpl in Hq. rewrite octant_at_snoc in Hq.
    rewrite (set_octant_at_snoc _ _ _ _ _ Hc) in Hq.
    rewrite child_set_child_ne in Hq by done.
    rewrite octant_at_app, Hop. simpl. by rewrite octant_at_snoc.
Qed.

Lemma u32_id z : 0 <= z < 2 ^ 32 -> u32 z = z.
Proof. intros Hz. unfold u32. by apply Z.mod_small. Qed.

Lemma children_count_insert (l : list (option Octant)) k c c' :
  l !! k = Some c ->
  foldr (fun c acc => child_count c + acc) 0 (<[k := c']> l)
  = foldr (fun c acc => child_count c + acc) 0 l - child_count c + child_count c'.
Proof.
  revert k. induction l as [|x l IH]; intros [|k] Hk; simplify_eq/=.
  - lia.
  - rewrite (IH k) by done. lia.
Qed.

Lemma children_count_set_child k c c' o :
  children_ o !! k = Some c ->
  children_count (set_child k c' o) = children_count o - child_count c + child_count c'.
Proof. intros Hk. unfold children_count. simpl. by apply children_count_insert. Qed.

Lemma octant_at_children_ext s o o' :
  s <> [] -> children_ o = children_ o' -> octant_at s o = octant_at s o'.
Proof.
  intros Hs Hc. destruct (exists_last Hs) as (s' & k & ->).
  rewrite !octant_at_snoc. unfold child. by rewrite Hc.
Qed.

Lemma app_cons_ne {A} (s : list A) k q : s ++ k :: q <> q.
Proof.
  intros E. length_clash E.
Qed.

Lemma app_cons_same_tail {A} (s : list A) k i q :
  s ++ k :: q = i :: q -> s = [] /\ k = i.
Proof.
  destruct s as [|y s]; simpl.
  - by intros [= ->].
  - intros [= _ E]. length_clash E.
Qed.

Lemma app_cons_app_ne {A} (s : list A) x q : (x :: s) ++ q <> q.
Proof.
  intros E. length_clash E.
Qed.

Lemma diverge_not_suffix q this : diverge q this -> ~ this `suffix_of` q.
Proof.
  intros (s1 & s2 & i & j & p & Hij & -> & ->) [k E].
  replace (s1 ++ j :: p) with ((s1 ++ [j]) ++ p) in E by by rewrite <- app_assoc.
  replace (k ++ s2 ++ i :: p) with ((k ++ s2 ++ [i]) ++ p) in E
    by by rewrite <- !app_assoc.
  apply app_inv_tail in E.
  rewrite app_assoc in E. apply app_inj_tail in E as [_ E]. congruence.
Qed.

Lemma diverge_not_parent q this : diverge q this -> parent_ this <> Some q.
Proof.
  intros (s1 & s2 & i & j & p & Hij & -> & ->) E.
  destruct s2 as [|x s2]; simplify_eq/=.
  - symmetry in E. by apply app_cons_ne in E.
  - replace (s1 ++ j :: p) with ((s1 ++ [j]) ++ p) in E by by rewrite <- app_assoc.
    replace (s2 ++ i :: p) with ((s2 ++ [i]) ++ p) in E by by rewrite <- app_assoc.
    apply app_inv_tail in E. apply app_inj_tail in E as [_ E]. congruence.
Qed.

(** What a lookup sees after the octant [this] got a new value: an octant
    of the new value, or an octant that was there before, with the old
    members except for the child on the way to [this]. *)
Lemma set_octant_at_lookup this root o o' q o1 :
  octant_at this root = Some o ->
  octant_at q (set_octant_at this o' root) = Some o1 ->
  (exists s, q = s ++ this /\ octant_at s o' = Some o1) \/
  (~ this `suffix_of` q /\ exists oq, octant_at q root = Some oq /\
     drawables_ o1 = drawables_ oq /\
     numDrawables_ o1 = numDrawables_ oq /\
     length (children_ o1) = length (children_ oq) /\
     children_count o1 = children_count oq +
       (if decide (parent_ this = Some q)
        then numDrawables_ o' - numDrawables_ o else 0) /\
     (forall j, ~ (j :: q) `suffix_of` this ->
        children_ o1 !! j = children_ oq !! j)).
Proof.
  intros Hthis Hq.
  destruct (octant_at_set_octant_at_cases _ _ _ _ _ _ Hthis Hq)
    as [(s & -> & Hs)|[(s & k & oq & c & -> & Hoq & Hc & Hsc & ->)|[Hsame Hdiv]]].
  - left. by exists s.
  - right. split.
    { intros [k' E]. length_clash E. }
    exists oq. split; [done|]. split; [done|]. split; [done|].
    apply child_Some_lookup in Hc. split; [|split].
    + simpl. by rewrite length_insert.
    + rewrite (children_count_set_child _ _ _ _ Hc). simpl.
      destruct s as [|x s]; simpl in *.
      * simplify_eq. rewrite decide_True by done. lia.
      * rewrite decide_False.
        2:{ intros [= E]. by apply app_cons_ne in E. }
        destruct (octant_at s c) as [pp|] eqn:Epp; [|done].
        destruct (set_octant_at_fields (x :: s) o' c) as [Hn _]; [done|].
        simpl in Hn. rewrite Epp in Hn. lia.
    + intros j Hj. simpl. apply list_lookup_insert_ne. intros ->.
      apply Hj. by exists s.
  - right. split; [by apply diverge_not_suffix|].
    exists o1. split; [done|].
    rewrite decide_False by by apply diverge_not_parent.
    repeat split; lia.
Qed.

(** The same when the new value keeps the children of the old one. *)
Lemma set_octant_at_frame this root o o' q o1 :
  octant_at this root = Some o ->
  children_ o' = children_ o ->
  octant_at q (set_octant_at this o' root) = Some o1 ->
  (q = this /\ o1 = o') \/
  (q <> this /\ exists oq, octant_at q root = Some oq /\
     drawables_ o1 = drawables_ oq /\
     numDrawables_ o1 = numDrawables_ oq /\
     length (children_ o1) = length (children_ oq) /\
     children_count o1 = children_count oq +
       (if decide (parent_ this = Some q)
        then numDrawables_ o' - numDrawables_ o else 0) /\
     (forall j, ~ (j :: q) `suffix_of` this ->
        children_ o1 !! j = children_ oq !! j)).
Proof.
  intros Hthis Hch Hq.
  destruct (set_octant_at_lookup _ _ _ _ _ _ Hthis Hq)
    as [(s & -> & Hs)|(Hns & oq & Hoq & H1 & H2 & H3 & H4 & H5)].
  - destruct s as [|x s].
    + left. simpl in Hs. by simplify_eq.
    + right. split; [apply app_cons_app_ne|].
      exists o1. rewrite (octant_at_children_ext _ o' o) in Hs by done.
      rewrite octant_at_app, Hthis. simpl. split; [done|].
      rewrite decide_False; [repeat split; lia|].
      destruct this as [|y this]; simpl; [done|]. intros [= E].
      length_clash E.
  - right. split; [intros ->; apply Hns; by exists []|]. exists oq. by repeat split.
Qed.

Lemma octant_at_parent_Some i parent root o :
  octant_at (i :: parent) root = Some o ->
  exists op, octant_at parent root = Some op /\ child i op = Some o.
Proof.
  simpl. destruct (octant_at parent root) as [op|]; [|done]. eauto.
Qed.

(** Setting the old value back gives the old tree: lookups in the old
    tree can be read off the new one. *)
Lemma set_octant_at_back this root o o' :
  octant_at this root = Some o ->
  set_octant_at this o (set_octant_at this o' root) = root.
Proof.
  revert o o'. induction this as [|i p IH]; intros o o' Hp;
    [simpl in *; congruence|].
  destruct (octant_at_parent_Some _ _ _ _ Hp) as (op & Hop & Hc).
  simpl. rewrite Hop. rewrite (octant_at_set_octant_at _ _ _ _ Hop).
  unfold set_child at 1. simpl. rewrite list_insert_insert_eq.
  fold (set_child i (Some o) op). rewrite (set_child_id _ _ _ Hc).
  by apply IH.
Qed.

Lemma octant_wf_transfer o1 oq :
  numDrawables_ o1 = numDrawables_ oq ->
  length (children_ o1) = length (children_ oq) ->
  octant_wf oq -> octant_wf o1.
Proof. unfold octant_wf. intros -> ->. done. Qed.

(** ** The counts under the tree operations *)

(** [IncDrawableCount] on an octant whose count is one too low. *)
Lemma IncDrawableCount_restores this :
  forall root o,
    octant_at this root = Some o ->
    counts_ok_but this 1 root ->
    (forall p op, p `suffix_of` this -> octant_at p root = Some op ->
       numDrawables_ op < 2 ^ 32 - 1) ->
    CountInvariant (IncDrawableCount this root) /\
    numDrawables_ (IncDrawableCount this root) = numDrawables_ root + 1.
Proof.
  induction this as [|i parent IH]; intros root o Ho Hbut Hbound.
  - simpl in *. simplify_eq. unfold modify_octant. simpl.
    destruct (Hbut [] o eq_refl) as [Hc [Hr Hl]]. rewrite decide_True in Hc by done.
    pose proof (Hbound [] o (suffix_nil _) eq_refl) as Hb.
    rewrite u32_id by lia. split; [|done].
    intros q o1 Hq.
    destruct (set_octant_at_frame [] o o
                (set_numDrawables (numDrawables_ o + 1) o) q o1 eq_refl eq_refl Hq)
      as [[-> ->]|[Hne (oq & Hoq & Hd & Hn & Hlen & Hcc & _)]].
    + unfold count_ok, octant_wf, children_count in *. simpl. split; [|split]; lia.
    + destruct (Hbut q oq Hoq) as [Hc' Hwf']. rewrite decide_False in Hc' by done.
      simpl in Hcc. unfold count_ok. rewrite Hd, Hn, Hcc.
      split; [lia|by eapply octant_wf_transfer].
  - cbn [IncDrawableCount]. unfold modify_octant. rewrite Ho.
    set (o' := set_numDrawables (u32 (numDrawables_ o + 1)) o).
    set (root1 := set_octant_at (i :: parent) o' root).
    destruct (Hbut _ o Ho) as [Hc [Hr Hl]]. rewrite decide_True in Hc by done.
    assert (Hb : numDrawables_ o < 2 ^ 32 - 1) by by eapply Hbound.
    assert (Ho' : numDrawables_ o' = numDrawables_ o + 1).
    { unfold o'. simpl. apply u32_id. lia. }
    assert (Hframe : forall q o1, octant_at q root1 = Some o1 ->
              (q = i :: parent /\ o1 = o') \/
              (q <> i :: parent /\ exists oq, octant_at q root = Some oq /\
                 drawables_ o1 = drawables_ oq /\
                 numDrawables_ o1 = numDrawables_ oq /\
                 length (children_ o1) = length (children_ oq) /\
                 children_count o1 = children_count oq +
                   (if decide (q = parent) then 1 else 0))).
    { intros q o1 Hq.
      destruct (set_octant_at_frame _ _ _ o' _ _ Ho eq_refl Hq)
        as [?|[? (oq & ? & ? & ? & ? & Hcc & _)]]; [by left|right].
      split; [done|]. exists oq.
      change (parent_ (i :: parent)) with (Some parent) in Hcc.
      repeat split; try done. rewrite Hcc.
      repeat case_decide; simplify_eq; (done || lia). }
    destruct (octant_at_parent_Some _ _ _ _ Ho) as (op & Hop & Hchild).
    assert (Hop1 : is_Some (octant_at parent root1)).
    { unfold root1. simpl. rewrite Hop.
      rewrite (octant_at_set_octant_at _ _ _ _ Hop). eauto. }
    destruct Hop1 as [op1 Hop1].
    destruct (IH root1 op1 Hop1) as [Hinv Hroot].
    + intros q o1 Hq.
      destruct (Hframe q o1 Hq) as [[-> ->]|[Hne (oq & Hoq & Hd & Hn & Hlen & Hcc)]].
      * rewrite decide_False.
        2:{ intros E. length_clash E. }
        rewrite Ho'. unfold o', octant_wf, children_count in *. simpl.
        rewrite u32_id by lia. split; [|split]; lia.
      * destruct (Hbut q oq Hoq) as [Hc' Hwf']. rewrite decide_False in Hc' by done.
        rewrite Hd, Hn, Hcc. split; [|by eapply octant_wf_transfer].
        repeat case_decide; lia.
    + intros p op' Hp Hop'.
      destruct (Hframe p op' Hop') as [[-> ->]|[Hne (oq & Hoq & Hd & Hn & _)]].
      * apply suffix_length in Hp. simpl in Hp. lia.
      * rewrite Hn. apply (Hbound p oq); [by apply suffix_cons_r|done].
    + split; [done|]. rewrite Hroot.
      destruct (Hframe [] root1 eq_refl) as [[? _]|[_ (oq & Hoq & _ & Hn & _)]]; [done|].
      simpl in Hoq. simplify_eq. lia.
Qed.

Lemma children_count_nonneg o :
  (forall j c, child j o = Some c -> 0 <= numDrawables_ c) ->
  0 <= children_count o /\
  (forall j c, child j o = Some c -> numDrawables_ c <= children_count o) /\
  (children_count o = 0 ->
   forall j c, child j o = Some c -> numDrawables_ c = 0).
Proof.
  unfold children_count, child. destruct o as [ds cs n]. simpl.
  induction cs as [|x cs IH]; intros Hnn.
  - simpl. split; [done|]. split; intros; by simplify_eq/=.
  - destruct IH as (IH1 & IH2 & IH3).
    { intros j c Hj. apply (Hnn (S j)). done. }
    assert (0 <= child_count x).
    { destruct x as [c|]; simpl; [|done]. by apply (Hnn O). }
    simpl. split; [lia|]. split.
    + intros [|j] c Hj; simpl in Hj.
      * subst x. simpl. lia.
      * specialize (IH2 j c Hj). lia.
    + intros Hz [|j] c Hj; simpl in Hj.
      * subst x. simpl in *. lia.
      * apply (IH3 ltac:(lia) j c Hj).
Qed.

Lemma CountInvariant_child_nonneg root q o :
  CountInvariant root -> octant_at q root = Some o ->
  forall j c, child j o = Some c -> 0 <= numDrawables_ c.
Proof.
  intros Hinv Hq j c Hj.
  destruct (Hinv (j :: q) c) as [_ [? _]]; [|lia]. simpl. by rewrite Hq.
Qed.

Lemma counts_ok_but_child_nonneg this delta root q o :
  counts_ok_but this delta root -> octant_at q root = Some o ->
  forall j c, child j o = Some c -> 0 <= numDrawables_ c.
Proof.
  intros Hinv Hq j c Hj.
  destruct (Hinv (j :: q) c) as [_ [? _]]; [|lia]. simpl. by rewrite Hq.
Qed.

Lemma CountInvariant_le_root root p op :
  CountInvariant root -> octant_at p root = Some op ->
  numDrawables_ op <= numDrawables_ root.
Proof.
  intros Hinv. revert op. induction p as [|i p IH]; intros op Hp.
  - simpl in Hp. simplify_eq. lia.
  - destruct (octant_at_parent_Some _ _ _ _ Hp) as (opp & Hopp & Hc).
    specialize (IH opp Hopp).
    destruct (Hinv p opp Hopp) as [Hok _]. unfold count_ok in Hok.
    destruct (children_count_nonneg opp) as (_ & Hle & _).
    { by eapply CountInvariant_child_nonneg. }
    specialize (Hle i op Hc). lia.
Qed.

Lemma AddDrawable_tree this drawable s :
  octree (AddDrawable this drawable s)
  = IncDrawableCount this
      (modify_octant this
         (fun o => set_drawables (drawables_ o ++ [drawable]) o) (octree s)).
Proof. done. Qed.

Lemma AddDrawable_CountInvariant this drawable s :
  is_Some (octant_at this (octree s)) ->
  CountInvariant (octree s) ->
  numDrawables_ (octree s) < 2 ^ 32 - 1 ->
  CountInvariant (octree (AddDrawable this drawable s)) /\
  numDrawables_ (octree (AddDrawable this drawable s))
    = numDrawables_ (octree s) + 1.
Proof.
  intros [o Ho] Hinv Hroot. rewrite AddDrawable_tree.
  unfold modify_octant. rewrite Ho.
  set (o' := set_drawables (drawables_ o ++ [drawable]) o).
  set (t2 := set_octant_at this o' (octree s)).
  assert (Hframe : forall q o1, octant_at q t2 = Some o1 ->
            (q = this /\ o1 = o') \/
            (q <> this /\ exists oq, octant_at q (octree s) = Some oq /\
               drawables_ o1 = drawables_ oq /\
               numDrawables_ o1 = numDrawables_ oq /\
               length (children_ o1) = length (children_ oq) /\
               children_count o1 = children_count oq)).
  { intros q o1 Hq.
    destruct (set_octant_at_frame _ _ _ o' _ _ Ho eq_refl Hq)
      as [?|[? (oq & ? & ? & ? & ? & Hcc & _)]]; [by left|right].
    split; [done|]. exists oq. repeat split; try done.
    rewrite Hcc. simpl. case_decide; lia. }
  destruct (IncDrawableCount_restores this t2 o') as [H1 H2].
  - by eapply octant_at_set_octant_at.
  - intros q o1 Hq.
    destruct (Hframe q o1 Hq) as [[-> ->]|[Hne (oq & Hoq & Hd & Hn & Hlen & Hcc)]].
    + rewrite decide_True by done. destruct (Hinv _ _ Ho) as [Hok Hwf].
      unfold count_ok, children_count in *. unfold o'. simpl.
      rewrite length_app. simpl. split; [lia|done].
    + rewrite decide_False by done. destruct (Hinv _ _ Hoq) as [Hok Hwf].
      unfold count_ok in Hok. rewrite Hd, Hn, Hcc.
      split; [lia|by eapply octant_wf_transfer].
  - intros p op Hp Hop.
    destruct (Hframe p op Hop) as [[-> ->]|[Hne (oq & Hoq & Hd & Hn & _)]].
    + pose proof (CountInvariant_le_root _ _ _ Hinv Ho). unfold o'. simpl. lia.
    + pose proof (CountInvariant_le_root _ _ _ Hinv Hoq). lia.
  - split; [done|]. rewrite H2.
    destruct (Hframe [] t2 eq_refl) as [[<- ->]|[_ (oq & Hoq & _ & Hn & _)]].
    + simpl in Ho. by simplify_eq.
    + simpl in Hoq. simplify_eq. lia.
Qed.

Lemma flat_map_nil {A B} (f : A -> list B) (l : list A) :
  (forall j x, l !! j = Some x -> f x = []) -> flat_map f l = [].
Proof.
  induction l as [|x l IH]; intros H; simpl; [done|].
  rewrite (H O x eq_refl), IH; [done|]. intros j y Hj. by apply (H (S j)).
Qed.

Lemma subtree_drawables_empty c :
  (forall q o, octant_at q c = Some o -> count_ok o /\ 0 <= numDrawables_ o) ->
  numDrawables_ c = 0 ->
  subtree_drawables c = [].
Proof.
  induction c as [ds cs n IH] using Octant_nested_ind. intros Hinv Hz.
  simpl in Hz. subst n.
  destruct (Hinv [] _ eq_refl) as [Hok _]. unfold count_ok in Hok. simpl in Hok.
  destruct (children_count_nonneg (mkOctant ds cs 0)) as (Hnn & _ & Hzero).
  { intros j c Hj. destruct (Hinv [j] c) as [_ ?]; [|done]. simpl. done. }
  assert (ds = []) as -> by (apply length_zero_iff_nil; lia).
  simpl. apply flat_map_nil. intros j [c|] Hj; [|done].
  rewrite Forall_lookup in IH. apply (IH j _ Hj c eq_refl).
  - intros q o Hq. apply (Hinv (q ++ [j])). rewrite octant_at_snoc.
    unfold child. simpl. by rewrite Hj.
  - apply (Hzero ltac:(lia) j). unfold child. simpl. by rewrite Hj.
Qed.

Lemma set_octree_set_octree t1 t2 s : set_octree t2 (set_octree t1 s) = set_octree t2 s.
Proof. done. Qed.

Lemma DeleteChild_empty parent i s c :
  octant_at (i :: parent) (octree s) = Some c ->
  subtree_drawables c = [] ->
  DeleteChild parent (i :: parent) s
  = set_octree (modify_octant parent (set_child i None) (octree s)) s.
Proof.
  intros Hc Hempty. unfold DeleteChild. rewrite decide_True by done.
  rewrite Hc, Hempty. simpl. unfold modify_octant at 2. simpl.
  rewrite app_nil_r. unfold set_drawables. by rewrite Octant_eta.
Qed.

Lemma set_child_set_child i a b o :
  set_child i b (set_child i a o) = set_child i b o.
Proof. unfold set_child. simpl. by rewrite list_insert_insert_eq. Qed.

Lemma set_octant_at_twice p root old a b :
  octant_at p root = Some old ->
  set_octant_at p b (set_octant_at p a root) = set_octant_at p b root.
Proof.
  revert old a b. induction p as [|i p IH]; intros old a b Hp; [done|].
  destruct (octant_at_parent_Some _ _ _ _ Hp) as (op & Hop & Hc).
  simpl. rewrite Hop. rewrite (octant_at_set_octant_at _ _ _ _ Hop).
  rewrite set_child_set_child. by eapply IH.
Qed.

Lemma suffix_cons_inv_or (i : nat) p j this :
  i :: p `suffix_of` j :: this -> (i = j /\ p = this) \/ i :: p `suffix_of` this.
Proof.
  intros [[|x k] E]; simplify_eq/=; [by left|right]. by exists k.
Qed.

Lemma suffix_inv_or (p : list nat) j this :
  p `suffix_of` j :: this -> p = j :: this \/ p `suffix_of` this.
Proof.
  intros [[|x k] E]; simplify_eq/=; [by left|right]. by exists k.
Qed.

(** [DecDrawableCount] on an octant whose count is one too high: the
    counts are consistent afterwards, the root count went down by one, the
    octants on the way up whose count was 1 are gone, and the subtrees that
    hang off that way are untouched wherever their parent is still there. *)
Lemma DecDrawableCount_spec this :
  forall s o,
    octant_at this (octree s) = Some o ->
    counts_ok_but this (-1) (octree s) ->
    let s' := DecDrawableCount this s in
    objects s' = objects s /\
    drawableUpdates_ s' = drawableUpdates_ s /\
    drawableReinsertions_ s' = drawableReinsertions_ s /\
    CountInvariant (octree s') /\
    numDrawables_ (octree s') = numDrawables_ (octree s) - 1 /\
    (forall i p ob,
        i :: p `suffix_of` this ->
        octant_at (i :: p) (octree s) = Some ob ->
        numDrawables_ ob = 1 ->
        octant_at (i :: p) (octree s') = None) /\
    (forall p j op',
        p `suffix_of` this -> ~ j :: p `suffix_of` this ->
        octant_at p (octree s') = Some op' ->
        exists op, octant_at p (octree s) = Some op /\
                   children_ op' !! j = children_ op !! j).
Proof.
  induction this as [|i parent IH]; intros s o Ho Hbut.
  - (* the root *)
    cbn zeta. cbn [DecDrawableCount]. rewrite Ho. simpl in Ho. simplify_eq.
    destruct (Hbut [] _ eq_refl) as [Hc [Hr Hl]]. rewrite decide_True in Hc by done.
    destruct (children_count_nonneg (octree s)) as (Hnn & _ & _).
    { by apply (counts_ok_but_child_nonneg _ _ _ [] _ Hbut). }
    rewrite u32_id by lia. simpl.
    split; [done|]. split; [done|]. split; [done|]. split; [|split; [done|split]].
    + intros q o1 Hq.
      destruct (set_octant_at_frame [] (octree s) (octree s)
                  (set_numDrawables (numDrawables_ (octree s) - 1) (octree s))
                  q o1 eq_refl eq_refl Hq)
        as [[-> ->]|[Hne (oq & Hoq & Hd & Hn & Hlen & Hcc & _)]].
      * unfold count_ok, octant_wf, children_count in *. simpl.
        split; [|split]; lia.
      * destruct (Hbut q oq Hoq) as [Hc' Hwf']. rewrite decide_False in Hc' by done.
        simpl in Hcc. unfold count_ok. rewrite Hd, Hn, Hcc.
        split; [lia|by eapply octant_wf_transfer].
    + intros i p ob Hs. by apply suffix_cons_nil_inv in Hs.
    + intros p j op' Hp%suffix_nil_inv _ Hop'. subst p. simpl in Hop'.
      simplify_eq. by exists (octree s).
  - (* a child octant *)
    destruct (octant_at_parent_Some _ _ _ _ Ho) as (op & Hop & Hchild).
    destruct (Hbut _ _ Ho) as [Hc [Hr Hl]]. rewrite decide_True in Hc by done.
    destruct (children_count_nonneg o) as (Hnn & _ & _).
    { by apply (counts_ok_but_child_nonneg _ _ _ _ _ Hbut Ho). }
    set (n := numDrawables_ o - 1).
    set (o_n := set_numDrawables n o).
    set (X := if decide (n = 0) then None else Some o_n).
    set (newp := set_child i X op).
    set (root2 := set_octant_at parent newp (octree s)).
    assert (Hstep : DecDrawableCount (i :: parent) s
                    = DecDrawableCount parent (set_octree root2 s)).
    { cbn [DecDrawableCount]. rewrite Ho. rewrite u32_id by lia.
      fold n. fold o_n. f_equal.
      assert (Hroot1 : set_octant_at (i :: parent) o_n (octree s)
                       = set_octant_at parent (set_child i (Some o_n) op) (octree s)).
      { simpl. by rewrite Hop. }
      unfold root2, newp, X. destruct (decide (n = 0)) as [Hn0|Hn0].
      - rewrite (DeleteChild_empty parent i _ o_n).
        + rewrite Hroot1. cbn [octree set_octree]. unfold modify_octant.
          rewrite (octant_at_set_octant_at _ _ _ _ Hop).
          rewrite set_child_set_child.
          by rewrite (set_octant_at_twice _ _ _ _ _ Hop).
        + cbn [octree set_octree]. exact (octant_at_set_octant_at _ _ _ _ Ho).
        + apply subtree_drawables_empty; [|done].
          intros q oq Hq. destruct q as [|x q] using rev_ind.
          * simpl in Hq. injection Hq as <-.
            unfold count_ok, o_n, children_count in *. simpl. split; lia.
          * clear IHq.
            rewrite (octant_at_children_ext _ o_n o) in Hq; [|by destruct q|done].
            destruct (Hbut ((q ++ [x]) ++ i :: parent) oq) as [Hc' [Hr' _]].
            { by rewrite octant_at_app, Ho. }
            rewrite decide_False in Hc'.
            2:{ intros E. length_clash E. }
            unfold count_ok. split; lia.
      - by rewrite Hroot1. }
    assert (Hnewp : octant_at parent root2 = Some newp).
    { by eapply octant_at_set_octant_at. }
    assert (HX : child_count X = numDrawables_ o - 1).
    { unfold X. destruct (decide (n = 0)); simpl; unfold n in *; lia. }
    assert (Hcc_newp : children_count newp = children_count op - 1).
    { unfold newp. apply child_Some_lookup in Hchild.
      rewrite (children_count_set_child _ _ _ _ Hchild). simpl. lia. }
    assert (Hlook : forall q o2, octant_at q root2 = Some o2 ->
              (q = parent /\ o2 = newp) \/
              (q = i :: parent /\ o2 = o_n /\ n <> 0) \/
              (q <> parent /\ q <> i :: parent /\
               octant_at q (octree s) = Some o2) \/
              (~ parent `suffix_of` q /\ exists oq,
                 octant_at q (octree s) = Some oq /\
                 drawables_ o2 = drawables_ oq /\
                 numDrawables_ o2 = numDrawables_ oq /\
                 length (children_ o2) = length (children_ oq) /\
                 children_count o2 = children_count oq /\
                 (forall j, ~ j :: q `suffix_of` parent ->
                    children_ o2 !! j = children_ oq !! j))).
    { intros q o2 Hq.
      destruct (set_octant_at_lookup _ _ _ newp _ _ Hop Hq)
        as [(s0 & -> & Hs0)|(Hns & oq & Hoq & Hd & Hn & Hlen & Hcc & Hch)].
      - destruct s0 as [|k s0 _] using rev_ind.
        + left. simpl in Hs0. by simplify_eq.
        + right. rewrite octant_at_snoc in Hs0.
          destruct (decide (k = i)) as [->|Hki].
          * unfold newp in Hs0. rewrite child_set_child_eq in Hs0
              by by eapply child_Some_lt.
            unfold X in Hs0. destruct (decide (n = 0)) as [|Hn0]; [done|].
            simpl in Hs0. destruct s0 as [|y s0].
            -- left. simpl in Hs0. by simplify_eq.
            -- right. left.
               rewrite (octant_at_children_ext _ o_n o) in Hs0 by done.
               split; [|split].
               ++ intros E. length_clash E.
               ++ intros E. length_clash E.
               ++ rewrite <- app_assoc. change ([i] ++ parent) with (i :: parent).
                  rewrite octant_at_app, Ho. exact Hs0.
          * right. left. unfold newp in Hs0.
            rewrite child_set_child_ne in Hs0 by done.
            split; [|split].
            -- intros E. length_clash E.
            -- rewrite <- app_assoc. simpl. intros E.
               apply app_cons_same_tail in E as [_ E]. by apply Hki.
            -- rewrite octant_at_app, Hop. simpl. by rewrite octant_at_snoc.
      - right. right. right. split; [done|]. exists oq.
        repeat split; try done.
        rewrite Hcc. unfold newp. simpl.
        destruct (octant_at_parent_Some _ _ _ _ Ho) as (? & ? & ?).
        case_decide; lia. }
    destruct (IH (set_octree root2 s) newp Hnewp) as (I1 & I2 & I3 & I4 & I5 & I6 & I7).
    { intros q o2 Hq. simpl in Hq.
      destruct (Hlook q o2 Hq)
        as [[-> ->]|[(-> & -> & Hn0)|[(Hq1 & Hq2 & Hq3)|
            (Hns & oq & Hoq & Hd & Hn & Hlen & Hcc & Hch)]]].
      - rewrite decide_True by done.
        destruct (Hbut _ _ Hop) as [Hc' [Hr' Hl']].
        rewrite decide_False in Hc'.
        2:{ intros E. length_clash E. }
        rewrite Hcc_newp. unfold newp, octant_wf. simpl.
        rewrite length_insert. split; [lia|done].
      - rewrite decide_False.
        2:{ intros E. length_clash E. }
        unfold o_n, octant_wf, children_count in *. simpl. unfold n.
        split; [|split]; lia.
      - rewrite decide_False by done.
        destruct (Hbut _ _ Hq3) as [Hc' Hr'].
        rewrite decide_False in Hc' by done. split; [lia|done].
      - rewrite decide_False.
        2:{ intros ->. by apply Hns. }
        destruct (Hbut _ _ Hoq) as [Hc' Hr'].
        rewrite decide_False in Hc'.
        2:{ intros ->. apply Hns. by apply suffix_cons_r. }
        rewrite Hd, Hn, Hcc. split; [lia|by eapply octant_wf_transfer]. }
    rewrite Hstep. cbn zeta. simpl in I1, I2, I3, I5.
    split; [done|]. split; [done|]. split; [done|]. split; [done|].
    assert (Hnum_anc : forall q o2, q `suffix_of` parent ->
              octant_at q root2 = Some o2 ->
              exists oq, octant_at q (octree s) = Some oq /\
                         numDrawables_ o2 = numDrawables_ oq /\
                         forall j, ~ j :: q `suffix_of` i :: parent ->
                           children_ o2 !! j = children_ oq !! j).
    { intros q o2 Hsuf Hq.
      destruct (Hlook q o2 Hq)
        as [[-> ->]|[(-> & -> & Hn0)|[(Hq1 & Hq2 & Hq3)|
            (Hns & oq & Hoq & Hd & Hn & Hlen & Hcc & Hch)]]].
      - exists op. split; [done|]. split; [done|].
        intros j Hj. unfold newp. simpl. apply list_lookup_insert_ne.
        intros ->. by apply Hj.
      - apply suffix_length in Hsuf. simpl in Hsuf. lia.
      - exists o2. by repeat split.
      - exists oq. split; [done|]. split; [done|].
        intros j Hj. apply Hch. intros Hj'. apply Hj. by apply suffix_cons_r. }
    split; [|split].
    + rewrite I5.
      destruct (Hnum_anc [] root2 (suffix_nil _) eq_refl) as (oq & Hoq & Hn & _).
      simpl in Hoq. injection Hoq as <-. lia.
    + intros i0 p ob Hsuf Hob Hone.
      destruct (suffix_cons_inv_or _ _ _ _ Hsuf) as [[-> ->]|Hsuf'].
      * rewrite Ho in Hob. injection Hob as <-.
        assert (Hn0 : n = 0) by (unfold n; lia).
        simpl.
        destruct (octant_at parent
                    (octree (DecDrawableCount parent (set_octree root2 s))))
          as [op'|] eqn:Hop'; [|done].
        simpl. destruct (I7 parent i op') as (op2 & Hop2 & Hch); [done| |done|].
        { apply suffix_cons_not. }
        simpl in Hop2. rewrite Hnewp in Hop2. injection Hop2 as <-.
        unfold child. rewrite Hch. unfold newp, X. simpl.
        rewrite decide_True by done.
        rewrite list_lookup_insert_eq; [done|].
        eapply lookup_lt_Some. by apply child_Some_lookup in Hchild.
      * destruct (octant_at (i0 :: p) root2) as [ob2|] eqn:Hob2.
        -- destruct (Hnum_anc _ _ Hsuf' Hob2) as (oq & Hoq & Hn & _).
           rewrite Hob in Hoq. injection Hoq as <-.
           apply (I6 i0 p ob2); [done|done|lia].
        -- destruct (Hlook parent newp Hnewp) as [_|[(E & _)|[(E & _)|(E & _)]]].
           ++ (* the octant is on the chain of the parent: it exists *)
              exfalso. destruct Hsuf' as [k Hk].
              rewrite Hk, octant_at_app in Hnewp.
              destruct (octant_at (i0 :: p) root2); done.
           ++ length_clash E.
           ++ done.
           ++ exfalso. by apply E.
    + intros p j op' Hsuf Hnot Hop'.
      destruct (suffix_inv_or _ _ _ Hsuf) as [->|Hsuf'].
      * (* the octant itself *)
        destruct (octant_at_parent_Some _ _ _ _ Hop') as (opp' & Hopp' & Hch').
        destruct (I7 parent i opp') as (op2 & Hop2 & Hch); [done| |done|].
        { apply suffix_cons_not. }
        simpl in Hop2. rewrite Hnewp in Hop2. injection Hop2 as <-.
        apply child_Some_lookup in Hch'. rewrite Hch in Hch'.
        unfold newp in Hch'. simpl in Hch'.
        rewrite list_lookup_insert_eq in Hch'.
        2:{ eapply lookup_lt_Some. by apply child_Some_lookup in Hchild. }
        unfold X in Hch'. destruct (decide (n = 0)); [done|].
        injection Hch' as <-. by exists o.
      * destruct (I7 p j op') as (op2 & Hop2 & Hch); [done| |done|].
        { intros Hj. apply Hnot. by apply suffix_cons_r. }
        simpl in Hop2.
        destruct (Hnum_anc _ _ Hsuf' Hop2) as (oq & Hoq & _ & Hch2).
        exists oq. split; [done|]. rewrite Hch. by apply Hch2.
Qed.

(** ** Removal of a drawable *)

(** [Find] on a list that does not hold the drawable. *)
Lemma Find_absent (drawable : DrawablePtr) (l : list DrawablePtr) :
  drawable ∉ l -> list_find (fun x => x = drawable) l = None.
Proof.
  intros Hd. apply list_find_None, Forall_forall. by intros x Hx ->.
Qed.

(** C9. [RemoveDrawable] on an octant whose list does not hold the
    drawable changes nothing: the tree with every list and count, the
    drawables with their octant back-references, and the queues are the
    same. *)
Theorem RemoveDrawable_not_held (this : OctantPtr) (drawable : DrawablePtr)
    (resetOctant : bool) (s : Scene) (o : Octant) :
  octant_at this (octree s) = Some o ->
  drawable ∉ drawables_ o ->
  RemoveDrawable this drawable resetOctant s = s.
Proof.
  intros Ho Hd. unfold RemoveDrawable. rewrite Ho.
  destruct (list_find (fun x => x = drawable) (drawables_ o)) as [[i x]|] eqn:Hfind.
  - apply list_find_Some in Hfind as (Hi & -> & _).
    exfalso. apply Hd. by eapply list_elem_of_lookup_2.
  - reflexivity.
Qed.

Lemma RemoveDrawable_not_held_witness :
  RemoveDrawable [1%nat] 8%nat true example_scene = example_scene.
Proof.
  eapply RemoveDrawable_not_held.
  - reflexivity.
  - simpl. intros Hin. apply elem_of_nil in Hin. exact Hin.
Defined.

(** Lookups of the old tree, read in the new one. *)
Lemma set_octant_at_frame_old this root o o' q oq :
  octant_at this root = Some o ->
  children_ o' = children_ o ->
  octant_at q root = Some oq ->
  (q = this /\ oq = o /\ octant_at q (set_octant_at this o' root) = Some o') \/
  (q <> this /\ exists o1, octant_at q (set_octant_at this o' root) = Some o1 /\
     numDrawables_ o1 = numDrawables_ oq).
Proof.
  intros Hthis Hch Hq.
  pose proof (octant_at_set_octant_at _ _ _ o' Hthis) as Hnew.
  rewrite <- (set_octant_at_back this root o o' Hthis) in Hq.
  destruct (set_octant_at_frame _ _ _ o _ _ Hnew (eq_sym Hch) Hq)
    as [[-> ->]|[Hne (o1 & Ho1 & _ & Hn & _)]].
  - by left.
  - right. split; [done|]. by exists o1.
Qed.

Lemma RemoveDrawable_held this drawable resetOctant s o :
  CountInvariant (octree s) ->
  octant_at this (octree s) = Some o ->
  drawable ∈ drawables_ o ->
  let s' := RemoveDrawable this drawable resetOctant s in
  objects s' =
    (if resetOctant then alter (set_octant None) drawable (objects s)
     else objects s) /\
  drawableUpdates_ s' = drawableUpdates_ s /\
  drawableReinsertions_ s' = drawableReinsertions_ s /\
  CountInvariant (octree s') /\
  numDrawables_ (octree s') = numDrawables_ (octree s) - 1 /\
  (forall i p ob,
      i :: p `suffix_of` this ->
      octant_at (i :: p) (octree s) = Some ob ->
      numDrawables_ ob = 1 ->
      octant_at (i :: p) (octree s') = None) /\
  (forall p j op',
      p `suffix_of` this -> ~ j :: p `suffix_of` this ->
      octant_at p (octree s') = Some op' ->
      exists op, octant_at p (octree s) = Some op /\
                 children_ op' !! j = children_ op !! j).
Proof.
  intros Hinv Ho Hd. cbn zeta. unfold RemoveDrawable. rewrite Ho.
  destruct (list_find_elem_of (fun x => x = drawable) _ _ Hd eq_refl) as [[i y] Hfind].
  rewrite Hfind. apply list_find_Some in Hfind as (Hi & -> & _).
  set (s1 := if resetOctant then SetOctant drawable None s else s).
  assert (Hs1 : octree s1 = octree s) by (unfold s1; by destruct resetOctant).
  rewrite Hs1.
  set (o_del := set_drawables (delete i (drawables_ o)) o).
  set (t2 := set_octant_at this o_del (octree s)).
  assert (Ht2 : octant_at this t2 = Some o_del) by by eapply octant_at_set_octant_at.
  assert (Hlen : Z.of_nat (length (drawables_ o_del))
                 = Z.of_nat (length (drawables_ o)) - 1).
  { unfold o_del. simpl. rewrite length_delete by eauto.
    apply lookup_lt_Some in Hi. lia. }
  destruct (DecDrawableCount_spec this (set_octree t2 s1) o_del Ht2)
    as (I1 & I2 & I3 & I4 & I5 & I6 & I7).
  { intros q o1 Hq. simpl in Hq.
    destruct (set_octant_at_frame _ _ _ o_del _ _ Ho eq_refl Hq)
      as [[-> ->]|[Hne (oq & Hoq & Hdr & Hn & Hl & Hcc & _)]].
    - rewrite decide_True by done. destruct (Hinv _ _ Ho) as [Hok Hwf].
      unfold count_ok in Hok. rewrite Hlen. unfold o_del, children_count in *.
      simpl. split; [lia|done].
    - rewrite decide_False by done. destruct (Hinv _ _ Hoq) as [Hok Hwf].
      unfold count_ok in Hok. rewrite Hdr, Hn, Hcc. simpl.
      split; [case_decide; lia|by eapply octant_wf_transfer]. }
  simpl in I1, I2, I3, I5.
  split; [by rewrite I1; unfold s1; destruct resetOctant|].
  split; [by rewrite I2; unfold s1; destruct resetOctant|].
  split; [by rewrite I3; unfold s1; destruct resetOctant|].
  split; [done|]. split; [|split].
  - rewrite I5.
    destruct (set_octant_at_frame _ _ _ o_del [] t2 Ho eq_refl eq_refl)
      as [[<- ->]|[_ (oq & Hoq & _ & Hn & _)]].
    + simpl in Ho. by simplify_eq.
    + simpl in Hoq. simplify_eq. lia.
  - intros i0 p ob Hsuf Hob Hone.
    destruct (set_octant_at_frame_old _ _ _ o_del _ _ Ho eq_refl Hob)
      as [(E & -> & Hnew)|(Hne & o1 & Ho1 & Hn)].
    + apply (I6 i0 p o_del Hsuf); [done|]. unfold o_del. simpl. lia.
    + apply (I6 i0 p o1 Hsuf); [done|]. lia.
  - intros p j op' Hsuf Hnot Hop'.
    destruct (I7 p j op' Hsuf Hnot Hop') as (op2 & Hop2 & Hch). simpl in Hop2.
    destruct (set_octant_at_frame _ _ _ o_del _ _ Ho eq_refl Hop2)
      as [[-> ->]|[Hne (oq & Hoq & _ & _ & _ & _ & Hch2)]].
    + by exists o.
    + exists oq. split; [done|]. rewrite Hch. by apply Hch2.
Qed.

Lemma RemoveDrawable_CountInvariant this drawable resetOctant s :
  CountInvariant (octree s) ->
  CountInvariant (octree (RemoveDrawable this drawable resetOctant s)) /\
  numDrawables_ (octree (RemoveDrawable this drawable resetOctant s))
    <= numDrawables_ (octree s).
Proof.
  intros Hinv.
  destruct (octant_at this (octree s)) as [o|] eqn:Ho.
  - destruct (decide (drawable ∈ drawables_ o)) as [Hd|Hd].
    + destruct (RemoveDrawable_held this drawable resetOctant s o Hinv Ho Hd)
        as (_ & _ & _ & H4 & H5 & _). split; [done|lia].
    + unfold RemoveDrawable. rewrite Ho, (Find_absent _ _ Hd). split; [done|lia].
  - unfold RemoveDrawable. rewrite Ho. split; [done|lia].
Qed.

Lemma child_Octant_new (k : nat) : child k Octant_new = @None Octant.
Proof.
  unfold child, Octant_new. cbn [children_].
  destruct (replicate NUM_OCTANTS (@None Octant) !! k) as [c|] eqn:E; [|done].
  apply lookup_replicate in E as [-> _]. done.
Qed.

Lemma octant_at_Octant_new q o :
  octant_at q Octant_new = Some o -> q = [] /\ o = Octant_new.
Proof.
  destruct q as [|k q _] using rev_ind; simpl; [by intros [= <-]|].
  rewrite octant_at_snoc, child_Octant_new. done.
Qed.

Lemma CountInvariant_Octant_new : CountInvariant Octant_new.
Proof.
  intros q o Hq. apply octant_at_Octant_new in Hq as [-> ->].
  split; [reflexivity|]. split; [|reflexivity]. simpl. lia.
Qed.

Lemma GetOrCreateChild_CountInvariant this i s o :
  CountInvariant (octree s) ->
  octant_at this (octree s) = Some o ->
  (i < NUM_OCTANTS)%nat ->
  let s' := GetOrCreateChild this i s in
  CountInvariant (octree s') /\
  is_Some (octant_at (i :: this) (octree s')) /\
  numDrawables_ (octree s') = numDrawables_ (octree s) /\
  objects s' = objects s.
Proof.
  intros Hinv Ho Hi. cbn zeta. unfold GetOrCreateChild. rewrite Ho.
  destruct (child i o) as [c|] eqn:Hc.
  - split; [done|]. split; [|done]. simpl. rewrite Ho. simpl. rewrite Hc. eauto.
  - destruct (Hinv _ _ Ho) as [Hok [Hr Hl]].
    assert (Hslot : children_ o !! i = Some None).
    { destruct (lookup_lt_is_Some_2 (children_ o) i) as [[c|] Hci]; [lia| |done].
      apply child_Some_lookup in Hci. congruence. }
    set (o' := set_child i (Some Octant_new) o).
    assert (Hn' : numDrawables_ o' = numDrawables_ o) by done.
    simpl. split; [|split; [|split; [|done]]].
    + intros q o1 Hq.
      destruct (set_octant_at_lookup _ _ _ o' _ _ Ho Hq)
        as [(s0 & -> & Hs0)|(Hns & oq & Hoq & Hd & Hn & Hlen & Hcc & _)].
      * destruct s0 as [|k s0 _] using rev_ind.
        -- simpl in Hs0. injection Hs0 as <-. unfold count_ok, octant_wf in *.
           unfold o'. rewrite (children_count_set_child _ _ _ _ Hslot). simpl.
           rewrite length_insert. split; [lia|done].
        -- rewrite octant_at_snoc in Hs0. destruct (decide (k = i)) as [->|Hki].
           ++ unfold o' in Hs0. rewrite child_set_child_eq in Hs0 by lia.
              simpl in Hs0. apply octant_at_Octant_new in Hs0 as [-> ->].
              by apply (CountInvariant_Octant_new []).
           ++ unfold o' in Hs0. rewrite child_set_child_ne in Hs0 by done.
              apply (Hinv ((s0 ++ [k]) ++ this)).
              by rewrite octant_at_app, Ho; simpl; rewrite octant_at_snoc.
      * destruct (Hinv _ _ Hoq) as [Hok' Hwf']. unfold count_ok in *.
        rewrite Hd, Hn, Hcc, Hn'. split; [case_decide; lia|].
        by eapply octant_wf_transfer.
    + rewrite (octant_at_set_octant_at _ _ _ _ Ho). simpl.
      unfold o'. rewrite child_set_child_eq by lia. eauto.
    + destruct (set_octant_at_lookup _ _ _ o' [] _ Ho eq_refl)
        as [(s0 & E & Hs0)|(Hns & oq & Hoq & _ & Hn & _)].
      * symmetry in E. apply app_eq_nil in E as [-> ->]. simpl in *.
        simplify_eq. done.
      * simpl in Hoq. by simplify_eq.
Qed.

Section Geometry.
Context {geometry : OctreeGeometry}.

Lemma InsertDrawable_CountInvariant levels :
  forall this drawable s,
    is_Some (octant_at this (octree s)) ->
    CountInvariant (octree s) ->
    numDrawables_ (octree s) < 2 ^ 32 - 1 ->
    CountInvariant (octree (InsertDrawable levels this drawable s)) /\
    numDrawables_ (octree (InsertDrawable levels this drawable s))
      = numDrawables_ (octree s) + 1.
Proof.
  induction levels as [|l IH]; intros this drawable s Hthis Hinv Hroot.
  - by apply AddDrawable_CountInvariant.
  - simpl. destruct (objects s !! drawable ≫= FitChild this) as [i|] eqn:E.
    + destruct Hthis as [o Ho]. cbn zeta.
      pose proof (fin_to_nat_lt i) as Hi.
      destruct (GetOrCreateChild_CountInvariant this (fin_to_nat i) s o Hinv Ho Hi)
        as (G1 & G2 & G3 & _).
      destruct (IH (fin_to_nat i :: this) drawable
                  (GetOrCreateChild this (fin_to_nat i) s) G2 G1)
        as [I1 I2]; [lia|]. split; [done|lia].
    + by apply AddDrawable_CountInvariant.
Qed.

Lemma octree_mutation_CountInvariant s s' :
  CountInvariant (octree s) -> octree_mutation s s' ->
  CountInvariant (octree s').
Proof.
  intros Hinv Hstep.
  destruct Hstep as [this d s Hthis Hroot|this d r s|d s Hroot|d s Hroot].
  - by apply AddDrawable_CountInvariant.
  - by apply RemoveDrawable_CountInvariant.
  - apply InsertDrawable_CountInvariant; [by eexists|done|done].
  - unfold Reinsert.
    destruct (objects s !! d ≫= octant_) as [o|].
    + destruct (RemoveDrawable_CountInvariant o d true s Hinv) as [R1 R2].
      apply InsertDrawable_CountInvariant; [by eexists|done|lia].
    + apply InsertDrawable_CountInvariant; [by eexists|done|done].
Qed.

Lemma octree_reachable_CountInvariant s :
  octree_reachable s -> CountInvariant (octree s).
Proof.
  induction 1 as [objs|s s' _ IH Hstep].
  - apply CountInvariant_Octant_new.
  - by eapply octree_mutation_CountInvariant.
Qed.

End Geometry.

Lemma check_counts_sound root : check_counts root = true -> CountInvariant root.
Proof.
  induction root as [ds cs n IH] using Octant_nested_ind. intros Hcheck q o Hq.
  simpl in Hcheck.
  apply andb_prop in Hcheck as [Hcheck Hall].
  apply andb_prop in Hcheck as [Hcheck Hlen].
  apply andb_prop in Hcheck as [Hcheck Hub].
  apply andb_prop in Hcheck as [Hcount Hlb].
  destruct q as [|k q _] using rev_ind.
  - simpl in Hq. injection Hq as <-. unfold count_ok, octant_wf. simpl.
    apply bool_decide_eq_true_1 in Hlen. split; [lia|]. split; [lia|done].
  - rewrite octant_at_snoc in Hq.
    destruct (child k (mkOctant ds cs n)) as [c|] eqn:Hc; [|done].
    apply child_Some_lookup in Hc. simpl in Hc, Hq.
    rewrite Forall_lookup in IH. apply (IH k _ Hc c eq_refl) with (q := q); [|exact Hq].
    rewrite forallb_forall in Hall. apply (Hall (Some c)).
    apply list_elem_of_In. by eapply list_elem_of_lookup_2.
Qed.




(** ** The drawable and the queues *)

(** C6. [OnMarkedDirty] called with the drawable's own node sets the
    drawable's world-bounding-box-dirty flag and nothing else in the
    drawables; it appends the drawable to the reinsertion queue if the
    drawable has an octant and leaves the queue alone if it has none. The
    drawable's octant back-reference, the update queue and the tree are
    unchanged: nothing is reinserted by the call. *)
Theorem OnMarkedDirty_own_node (this : DrawablePtr) (s : Scene) (d : Drawable) :
  objects s !! this = Some d ->
  let s' := OnMarkedDirty this (node_ d) s in
  worldBoundingBoxDirty_ <$> objects s' !! this = Some true /\
  objects s' = <[this := set_worldBoundingBoxDirty true d]> (objects s) /\
  (objects s' !! this ≫= octant_) = octant_ d /\
  drawableReinsertions_ s' =
    (if octant_ d is Some _ then drawableReinsertions_ s ++ [this]
     else drawableReinsertions_ s) /\
  drawableUpdates_ s' = drawableUpdates_ s /\
  octree s' = octree s.
Proof.
  intros Hd s'. subst s'. unfold OnMarkedDirty. rewrite Hd.
  rewrite decide_True by done.
  destruct (octant_ d) eqn:E; simpl; rewrite lookup_insert_eq; simpl; by rewrite ?E.
Qed.

Lemma OnMarkedDirty_own_node_witness :
  worldBoundingBoxDirty_ <$> objects example_clean_scene !! 7%nat = Some false /\
  worldBoundingBoxDirty_
    <$> objects (OnMarkedDirty 7%nat (Some 3%nat) example_clean_scene) !! 7%nat
  = Some true /\
  drawableReinsertions_ (OnMarkedDirty 7%nat (Some 3%nat) example_clean_scene)
  = [7%nat] /\
  drawableReinsertions_ (OnMarkedDirty 7%nat (Some 3%nat) example_scene) = [7%nat] /\
  drawableReinsertions_
    (OnMarkedDirty 7%nat (Some 3%nat) (Scene_new example_objects)) = [] /\
  octree (OnMarkedDirty 7%nat (Some 3%nat) example_scene) = octree example_scene.
Proof.
  destruct (OnMarkedDirty_own_node 7%nat example_clean_scene
              (set_octant (Some []) example_clean_drawable) eq_refl)
    as (Hdirty & _ & _ & Hqueue1 & _).
  destruct (OnMarkedDirty_own_node 7%nat example_scene
              (set_octant (Some [2; 1]%nat) example_drawable) eq_refl)
    as (_ & _ & _ & Hqueue & _ & Htree).
  destruct (OnMarkedDirty_own_node 7%nat (Scene_new example_objects)
              example_drawable eq_refl)
    as (_ & _ & _ & Hqueue0 & _).
  split; [reflexivity|]. split; [exact Hdirty|]. split; [exact Hqueue1|].
  split; [exact Hqueue|]. split; [exact Hqueue0|exact Htree].
Defined.

(** Queues and back-references under the tree operations. *)

Lemma same_queues_refl s : same_queues s s.
Proof. by split. Qed.

Lemma same_queues_trans s1 s2 s3 :
  same_queues s1 s2 -> same_queues s2 s3 -> same_queues s1 s3.
Proof. intros [? ?] [? ?]. split; congruence. Qed.

Lemma octants_kept_refl but m : octants_kept but m m.
Proof. by intros d _ ?. Qed.

Lemma octants_kept_trans but m1 m2 m3 :
  octants_kept but m1 m2 -> octants_kept but m2 m3 -> octants_kept but m1 m3.
Proof. intros H1 H2 d Hd Hm. apply H2, H1; done. Qed.

Lemma octants_kept_weaken but m m' :
  octants_kept None m m' -> octants_kept but m m'.
Proof. intros Hk d _ Hm. by apply Hk. Qed.

Lemma lookup_alter_octant (m : gmap DrawablePtr Drawable) d d' o :
  alter (set_octant o) d m !! d' ≫= octant_
  = if decide (d = d') then (m !! d' ≫= fun _ => o) else m !! d' ≫= octant_.
Proof.
  rewrite lookup_alter. destruct (decide (d = d')) as [->|Hne]; [|done].
  by destruct (m !! d').
Qed.

Lemma SetOctant_Some_kept d o m :
  octants_kept None m (alter (set_octant (Some o)) d m).
Proof.
  intros d' _ Hm. rewrite lookup_alter_octant. case_decide; [|done].
  destruct (m !! d'); [by eexists|]. by destruct Hm.
Qed.

Lemma SetOctant_None_kept d m :
  octants_kept (Some d) m (alter (set_octant None) d m).
Proof.
  intros d' Hne Hm. rewrite lookup_alter_octant.
  rewrite decide_False; [done|]. congruence.
Qed.

Lemma move_to_root_effect moved : forall s,
  let s' := foldl (fun s' d => SetOctant d (Some []) s') s moved in
  same_queues s s' /\ octree s' = octree s /\
  octants_kept None (objects s) (objects s').
Proof.
  induction moved as [|d moved IH]; intros s; simpl.
  - split; [apply same_queues_refl|]. split; [done|apply octants_kept_refl].
  - destruct (IH (SetOctant d (Some []) s)) as (I1 & I2 & I3).
    split; [|split].
    + destruct I1 as [? ?]. by split.
    + by rewrite I2.
    + eapply octants_kept_trans; [|exact I3]. apply SetOctant_Some_kept.
Qed.

Lemma DeleteChild_effect parent octant s :
  same_queues s (DeleteChild parent octant s) /\
  octants_kept None (objects s) (objects (DeleteChild parent octant s)).
Proof.
  unfold DeleteChild. destruct octant as [|i p].
  { split; [apply same_queues_refl|apply octants_kept_refl]. }
  case_decide; [|split; [apply same_queues_refl|apply octants_kept_refl]].
  destruct (octant_at (i :: p) (octree s)) as [c|];
    [|split; [apply same_queues_refl|apply octants_kept_refl]].
  destruct (move_to_root_effect (subtree_drawables c) s) as ([? ?] & _ & ?).
  split; [by split|done].
Qed.

Lemma DecDrawableCount_effect this : forall s,
  same_queues s (DecDrawableCount this s) /\
  octants_kept None (objects s) (objects (DecDrawableCount this s)).
Proof.
  induction this as [|i parent IH]; intros s; cbn [DecDrawableCount];
    destruct (octant_at _ (octree s)) as [o|];
    try (split; [apply same_queues_refl|apply octants_kept_refl]).
  { split; [by split|apply octants_kept_refl]. }
  set (s1 := set_octree _ s).
  set (s2 := if decide (u32 (numDrawables_ o - 1) = 0)
             then DeleteChild parent (i :: parent) s1 else s1).
  assert (H12 : same_queues s s2 /\ octants_kept None (objects s) (objects s2)).
  { unfold s2. case_decide.
    - apply (DeleteChild_effect parent (i :: parent) s1).
    - split; [by split|apply octants_kept_refl]. }
  destruct H12 as [Hq Hk]. destruct (IH s2) as [Hq' Hk'].
  split; [by eapply same_queues_trans|by eapply octants_kept_trans].
Qed.

Lemma RemoveDrawable_effect this d resetOctant s :
  same_queues s (RemoveDrawable this d resetOctant s) /\
  octants_kept (Some d) (objects s) (objects (RemoveDrawable this d resetOctant s)).
Proof.
  unfold RemoveDrawable.
  destruct (octant_at this (octree s)) as [o|];
    [|split; [apply same_queues_refl|apply octants_kept_refl]].
  destruct (list_find _ _) as [[i y]|];
    [|split; [apply same_queues_refl|apply octants_kept_refl]].
  set (s1 := if resetOctant then SetOctant d None s else s).
  set (s2 := set_octree _ s1).
  destruct (DecDrawableCount_effect this s2) as [Hq Hk].
  split.
  - eapply same_queues_trans; [|exact Hq]. unfold s2, s1. by destruct resetOctant.
  - eapply octants_kept_trans; [|apply octants_kept_weaken, Hk].
    unfold s2, s1. destruct resetOctant; simpl;
      [apply SetOctant_None_kept|apply octants_kept_refl].
Qed.

Lemma AddDrawable_effect this d s :
  same_queues s (AddDrawable this d s) /\
  octants_kept None (objects s) (objects (AddDrawable this d s)).
Proof.
  split; [by split|]. unfold AddDrawable. simpl. apply SetOctant_Some_kept.
Qed.

Lemma GetOrCreateChild_effect this i s :
  same_queues s (GetOrCreateChild this i s) /\
  objects (GetOrCreateChild this i s) = objects s.
Proof.
  unfold GetOrCreateChild. destruct (octant_at this (octree s)) as [o|]; [|by split].
  destruct (child i o); by split.
Qed.

Section Protocol.
Context {variant : DrawableVariant} {geometry : OctreeGeometry}.

Lemma InsertDrawable_effect levels : forall this d s,
  same_queues s (InsertDrawable levels this d s).
Proof.
  induction levels as [|l IH]; intros this d s; simpl.
  - apply AddDrawable_effect.
  - destruct (objects s !! d ≫= FitChild this) as [i|].
    + eapply same_queues_trans; [|apply IH]. apply GetOrCreateChild_effect.
    + apply AddDrawable_effect.
Qed.

Lemma Reinsert_effect d s : same_queues s (Reinsert d s).
Proof.
  unfold Reinsert. eapply same_queues_trans; [|apply InsertDrawable_effect].
  destruct (objects s !! d ≫= octant_); [|apply same_queues_refl].
  apply RemoveDrawable_effect.
Qed.

Lemma foldl_Reinsert_updates l : forall s0,
  drawableUpdates_
    (foldl (fun s' d => if objects s' !! d is Some _ then Reinsert d s' else s')
       s0 l)
  = drawableUpdates_ s0.
Proof.
  induction l as [|d l IH]; intros s0; simpl; [done|].
  rewrite IH. destruct (objects s0 !! d); [|done].
  by destruct (Reinsert_effect d s0) as [-> _].
Qed.

Lemma Update_queues s :
  drawableUpdates_ (Update s) = [] /\ drawableReinsertions_ (Update s) = [].
Proof.
  unfold Update, ReinsertDrawables. split; [|done].
  cbn [drawableUpdates_ set_drawableReinsertions].
  by rewrite foldl_Reinsert_updates.
Qed.

Lemma RemoveFromOctree_queues this s :
  queues_linked s ->
  (this ∉ drawableUpdates_ (RemoveFromOctree this s)) /\
  (this ∉ drawableReinsertions_ (RemoveFromOctree this s)).
Proof.
  intros Hlinked. unfold RemoveFromOctree.
  destruct (objects s !! this ≫= octant_) as [o|] eqn:Ho.
  - destruct (RemoveDrawable_effect o this true
                (CancelReinsertion this (CancelUpdate this s))) as [[-> ->] _].
    simpl. split; intros [Hne _]%list_elem_of_filter; done.
  - split; intros Hin.
    + destruct (Hlinked this (or_introl Hin)) as [? E]. congruence.
    + destruct (Hlinked this (or_intror Hin)) as [? E]. congruence.
Qed.

Lemma RemoveFromOctree_linked this s :
  queues_linked s -> queues_linked (RemoveFromOctree this s).
Proof.
  intros Hlinked. unfold RemoveFromOctree.
  destruct (objects s !! this ≫= octant_) as [o|] eqn:Ho; [|done].
  set (mid := CancelReinsertion this (CancelUpdate this s)).
  destruct (RemoveDrawable_effect o this true mid) as [[Hu Hr] Hk].
  intros d Hd. rewrite Hu, Hr in Hd. simpl in Hd.
  assert (d <> this /\ (d ∈ drawableUpdates_ s \/ d ∈ drawableReinsertions_ s))
    as [Hne Hold].
  { destruct Hd as [[? ?]%list_elem_of_filter|[? ?]%list_elem_of_filter]; auto. }
  apply Hk; [congruence|]. by apply Hlinked.
Qed.

Lemma protocol_step_linked s s' :
  queues_linked s -> protocol_step s s' -> queues_linked s'.
Proof.
  intros Hlinked Hstep.
  destruct Hstep as [b this s|this s|this node s|this s|s|this s].
  - unfold AddToOctree. destruct b; [|done].
    destruct (AddDrawable_effect [] this s) as [[Hu Hr] Hk].
    intros d Hd. rewrite Hu, Hr in Hd. apply Hk; [done|]. by apply Hlinked.
  - unfold MarkForUpdate.
    destruct (objects s !! this ≫= octant_) as [o|] eqn:Ho; [|done].
    intros d. simpl. rewrite elem_of_app, list_elem_of_singleton.
    intros [[Hd| ->]|Hd]; [by apply Hlinked; left|by rewrite Ho|by apply Hlinked; right].
  - unfold OnMarkedDirty.
    destruct (objects s !! this) as [dr|] eqn:Hdr; [|done].
    case_decide; [|done].
    assert (Hkeep : forall d, is_Some (objects s !! d ≫= octant_) ->
              is_Some (<[this := set_worldBoundingBoxDirty true dr]> (objects s)
                         !! d ≫= octant_)).
    { intros d Hd. destruct (decide (d = this)) as [->|Hne].
      - rewrite lookup_insert_eq. simpl. by rewrite Hdr in Hd.
      - by rewrite lookup_insert_ne. }
    destruct (octant_ dr) as [o|] eqn:Ho.
    + intros d. simpl. rewrite elem_of_app, list_elem_of_singleton.
      intros [Hd|[Hd| ->]].
      * apply Hkeep, Hlinked. by left.
      * apply Hkeep, Hlinked. by right.
      * rewrite lookup_insert_eq. simpl. rewrite Ho. by eexists.
    + intros d Hd. simpl in *. by apply Hkeep, Hlinked.
  - by apply RemoveFromOctree_linked.
  - intros d. destruct (Update_queues s) as [-> ->].
    intros [Hd|Hd]; by apply elem_of_nil in Hd.
  - unfold Drawable_destroy.
    pose proof (RemoveFromOctree_linked this s Hlinked) as Hl.
    destruct (RemoveFromOctree_queues this s Hlinked) as [Hu Hr].
    intros d Hd. simpl in *.
    rewrite lookup_delete_ne; [by apply Hl|].
    intros ->. destruct Hd; done.
Qed.

Lemma protocol_reachable_linked s : protocol_reachable s -> queues_linked s.
Proof.
  induction 1 as [objs|s s' _ IH Hstep].
  - intros d [Hd|Hd]; by apply elem_of_nil in Hd.
  - by eapply protocol_step_linked.
Qed.

(** C7. A drawable in a queue whose [octant_] is null stays queued through
    the destructor: the guard of [RemoveFromOctree] skips the cancelling.
    Here the drawable was queued and then taken out of the root by a direct
    [Octant::RemoveDrawable]; after [~Drawable] it is gone from the objects
    and still in both queues. *)
Lemma destroyed_drawable_still_queued :
  drawableUpdates_ example_unlinked_scene = [7%nat] /\
  drawableReinsertions_ example_unlinked_scene = [7%nat] /\
  objects example_unlinked_scene !! 7%nat ≫= octant_ = None /\
  objects (Drawable_destroy 7%nat example_unlinked_scene) !! 7%nat = None /\
  drawableUpdates_ (Drawable_destroy 7%nat example_unlinked_scene) = [7%nat] /\
  drawableReinsertions_ (Drawable_destroy 7%nat example_unlinked_scene) = [7%nat].
Proof. repeat split; reflexivity. Qed.

(** C7, as amended. For every scene and drawable. When the drawable has an
    octant, [RemoveFromOctree] is [RemoveDrawable] run on the scene in which
    [CancelUpdate] and [CancelReinsertion] have already taken the drawable
    out of both queues while it still points to its octant, and after
    [RemoveFromOctree] and after the destructor the drawable is in neither
    queue. When its [octant_] is null, [RemoveFromOctree] does nothing, and
    the destructor leaves both queues as they are. After the destructor the
    drawable is no longer among the objects. So a destroyed drawable is in
    neither queue whenever every queued drawable has an octant, and that
    holds in every scene that the drawable protocol produces from a new
    octree. *)
Theorem destroyed_drawable_not_queued (this : DrawablePtr) (s : Scene) :
  (forall octant, objects s !! this ≫= octant_ = Some octant ->
     let mid := CancelReinsertion this (CancelUpdate this s) in
     RemoveFromOctree this s = RemoveDrawable octant this true mid /\
     (this ∉ drawableUpdates_ mid) /\
     (this ∉ drawableReinsertions_ mid) /\
     objects mid !! this ≫= octant_ = Some octant /\
     (this ∉ drawableUpdates_ (RemoveFromOctree this s)) /\
     (this ∉ drawableReinsertions_ (RemoveFromOctree this s)) /\
     (this ∉ drawableUpdates_ (Drawable_destroy this s)) /\
     (this ∉ drawableReinsertions_ (Drawable_destroy this s))) /\
  (objects s !! this ≫= octant_ = None ->
     RemoveFromOctree this s = s /\
     drawableUpdates_ (Drawable_destroy this s) = drawableUpdates_ s /\
     drawableReinsertions_ (Drawable_destroy this s) = drawableReinsertions_ s) /\
  objects (Drawable_destroy this s) !! this = None /\
  (queues_linked s ->
     (this ∉ drawableUpdates_ (RemoveFromOctree this s)) /\
     (this ∉ drawableReinsertions_ (RemoveFromOctree this s)) /\
     (this ∉ drawableUpdates_ (Drawable_destroy this s)) /\
     (this ∉ drawableReinsertions_ (Drawable_destroy this s))) /\
  (protocol_reachable s -> queues_linked s).
Proof.
  split; [|split; [|split; [|split]]].
  - intros octant Ho. cbn zeta.
    set (mid := CancelReinsertion this (CancelUpdate this s)).
    assert (RemoveFromOctree this s = RemoveDrawable octant this true mid) as Hcall.
    { unfold RemoveFromOctree. by rewrite Ho. }
    assert (this ∉ drawableUpdates_ mid) as Hu
      by (simpl; by intros [? _]%list_elem_of_filter).
    assert (this ∉ drawableReinsertions_ mid) as Hr
      by (simpl; by intros [? _]%list_elem_of_filter).
    destruct (RemoveDrawable_effect octant this true mid) as [[Hq1 Hq2] _].
    split; [done|]. split; [done|]. split; [done|]. split; [done|].
    unfold Drawable_destroy. cbn [set_objects drawableUpdates_ drawableReinsertions_].
    rewrite Hcall, Hq1, Hq2. done.
  - intros Ho. unfold Drawable_destroy, RemoveFromOctree. by rewrite Ho.
  - unfold Drawable_destroy. simpl. apply lookup_delete_eq.
  - intros Hlinked. destruct (RemoveFromOctree_queues this s Hlinked) as [Hu Hr].
    done.
  - apply protocol_reachable_linked.
Qed.
End Protocol.

Lemma destroyed_drawable_not_queued_witness :
  drawableUpdates_ example_queued_scene = [7%nat] /\
  drawableReinsertions_ example_queued_scene = [7%nat] /\
  (7%nat ∉ drawableUpdates_ (Drawable_destroy 7%nat example_queued_scene)) /\
  (7%nat ∉ drawableReinsertions_ (Drawable_destroy 7%nat example_queued_scene)) /\
  objects (Drawable_destroy 7%nat example_queued_scene) !! 7%nat = None /\
  drawableUpdates_ (Drawable_destroy 7%nat example_unlinked_scene)
  = drawableUpdates_ example_unlinked_scene.
Proof.
  split; [reflexivity|]. split; [reflexivity|].
  destruct (destroyed_drawable_not_queued (variant := example_variant)
              (geometry := example_geometry) 7%nat example_queued_scene)
    as (Hheld & _ & Hgone & _).
  destruct (Hheld [] eq_refl) as (_ & _ & _ & _ & _ & _ & Hupdates & Hreinsertions).
  destruct (destroyed_drawable_not_queued (variant := example_variant)
              (geometry := example_geometry) 7%nat example_unlinked_scene)
    as (_ & Hnull & _).
  destruct (Hnull eq_refl) as (_ & Hkept & _).
  split; [exact Hupdates|]. split; [exact Hreinsertions|].
  split; [exact Hgone|exact Hkept].
Defined.

(** * Further properties of the code *)

(** ** Base pass flags and lights *)

(** The zeroing loop [for (i = a; i < a + n; ++i) v[i] = 0], element by
    element. *)
Lemma lookup_zero_loop (n : nat) : forall (a : nat) (v : list Z) (i : nat),
  foldl (fun v i => <[i := 0]> v) v (seq a n) !! i
  = (fun w => if decide (a <= i < a + n)%nat then 0 else w) <$> v !! i.
Proof.
  induction n as [|n IH]; intros a v i; simpl.
  - destruct (v !! i) as [w|] eqn:E; simpl; [|done].
    by rewrite decide_False by lia.
  - rewrite IH. destruct (decide (a = i)) as [->|Hne].
    + destruct (decide (i < length v)%nat) as [Hlt|Hge].
      * rewrite list_lookup_insert_eq by done.
        destruct (lookup_lt_is_Some_2 v i Hlt) as [w ->]. simpl.
        f_equal. repeat case_decide; (done || lia).
      * rewrite !(proj2 (lookup_ge_None _ _)); [done|lia|rewrite length_insert; lia].
    + rewrite list_lookup_insert_ne by done.
      destruct (v !! i) as [w|]; simpl; [|done].
      f_equal. repeat case_decide; (done || lia).
Qed.

Lemma length_zero_loop (l : list nat) : forall (v : list Z),
  length (foldl (fun v i => <[i := 0]> v) v l) = length v.
Proof.
  induction l as [|a l IH]; intros v; simpl; [done|].
  by rewrite IH, length_insert.
Qed.

(** [w & (1 << k)] is non-zero exactly when bit [k] of [w] is set. *)
Lemma land_bit_testbit (w k : Z) :
  0 <= k < 32 ->
  negb (Z.land w (shl32 1 k) =? 0) = Z.testbit w k.
Proof.
  intros Hk. unfold shl32. rewrite Z.shiftl_1_l.
  rewrite u32_id by (split; [lia | apply Z.pow_lt_mono_r; lia]).
  assert (Z.land w (2 ^ k) = if Z.testbit w k then 2 ^ k else 0) as ->.
  { apply Z.bits_inj'. intros n Hn. rewrite Z.land_spec, Z.pow2_bits_eqb by lia.
    destruct (Z.eqb_spec k n) as [->|Hne].
    - destruct (Z.testbit w n); simpl.
      + rewrite Z.pow2_bits_eqb by lia. by rewrite Z.eqb_refl.
      + by rewrite Z.bits_0.
    - rewrite andb_false_r. destruct (Z.testbit w k).
      + rewrite Z.pow2_bits_eqb by lia. symmetry. by apply Z.eqb_neq.
      + by rewrite Z.bits_0. }
  destruct (Z.testbit w k); [|done].
  assert (0 < 2 ^ k) by (apply Z.pow_pos_nonneg; lia).
  destruct (Z.eqb_spec (2 ^ k) 0); [lia|done].
Qed.

Lemma land_31_range (b : Z) : 0 <= Z.land b 31 < 32.
Proof.
  change 31 with (Z.ones 5). rewrite Z.land_ones by lia.
  apply Z.mod_pos_bound. lia.
Qed.

(** [HasBasePass] reads a bit; a word beyond the storage reads as zero. *)
Lemma HasBasePass_testbit (j : Z) (d : Drawable) :
  HasBasePass j d
  = Z.testbit (default 0 (basePassFlags_ d !! Z.to_nat (shr32 j 5))) (Z.land j 31).
Proof.
  unfold HasBasePass. destruct (basePassFlags_ d !! _) as [w|]; simpl.
  - apply land_bit_testbit, land_31_range.
  - by rewrite Z.bits_0.
Qed.

(** The word index [batchIndex << 5] leaves room for [index + 1]. *)
Lemma shl32_5_range (b : Z) : 0 <= shl32 b 5 <= 2 ^ 32 - 32.
Proof.
  unfold shl32, u32. rewrite Z.shiftl_mul_pow2 by lia.
  change (2 ^ 32) with (2 ^ 27 * 2 ^ 5) at 1 2.
  rewrite Z.mul_mod_distr_r by lia.
  pose proof (Z.mod_pos_bound b (2 ^ 27)). lia.
Qed.

(** The words of the storage after [SetBasePass], one by one. *)
Lemma SetBasePass_lookup (junk : nat -> Z) (b : Z) (d : Drawable) (i : nat) :
  basePassFlags_ (SetBasePass junk b d) !! i
  = if decide (i < length (basePassFlags_ d) `max` (Z.to_nat (shl32 b 5) + 1))%nat
    then Some (let w := default 0 (basePassFlags_ d !! i) in
               if decide (i = Z.to_nat (shl32 b 5))
               then Z.lor w (shl32 1 (Z.land b 31)) else w)
    else None.
Proof.
  pose proof (shl32_5_range b) as Hr.
  unfold SetBasePass. cbn [basePassFlags_ set_basePassFlags].
  set (index := shl32 b 5) in *. set (flags := basePassFlags_ d).
  set (bit := shl32 1 (Z.land b 31)).
  set (m := (length flags `max` (Z.to_nat index + 1))%nat).
  match goal with |- alter _ _ ?f1 !! _ = _ => set (flags1 := f1) end.
  assert (forall k, flags1 !! k
            = if decide (k < m)%nat then Some (default 0 (flags !! k)) else None) as Hk.
  { intros k. unfold flags1.
    destruct (decide (Z.of_nat (length flags) <= index)) as [Hgrow|Hfit].
    - rewrite lookup_zero_loop. unfold Resize.
      rewrite u32_id by lia. rewrite take_ge by lia.
      replace (Z.to_nat (index + 1)) with (Z.to_nat index + 1)%nat by lia.
      rewrite lookup_app.
      destruct (flags !! k) as [w|] eqn:E.
      + apply lookup_lt_Some in E as Hlt. simpl.
        rewrite decide_False by lia. by rewrite decide_True by lia.
      + apply lookup_ge_None in E as Hge. rewrite list_lookup_fmap.
        destruct (decide (k < m)%nat) as [Hin|Hout].
        * rewrite lookup_seq_lt by lia. simpl. by rewrite decide_True by lia.
        * by rewrite lookup_seq_ge by lia.
    - destruct (flags !! k) as [w|] eqn:E.
      + apply lookup_lt_Some in E as Hlt. by rewrite decide_True by lia.
      + apply lookup_ge_None in E as Hge. by rewrite decide_False by lia. }
  destruct (decide (Z.to_nat index = i)) as [<-|Hne].
  - rewrite list_lookup_alter_eq, Hk. rewrite decide_True by lia. simpl.
    repeat case_decide; (done || lia).
  - rewrite list_lookup_alter_ne by done. rewrite Hk.
    repeat case_decide; (done || lia).
Qed.

(** X1. [ClearLights] empties the light list, nulls [firstLight_] and zeroes
    every word of the base pass flags without changing the size of the
    storage: afterwards [HasBasePass] is false for every batch index. *)
Theorem ClearLights_clears (d : Drawable) :
  lights_ (ClearLights d) = [] /\
  firstLight_ (ClearLights d) = None /\
  length (basePassFlags_ (ClearLights d)) = length (basePassFlags_ d) /\
  forall batchIndex, HasBasePass batchIndex (ClearLights d) = false.
Proof.
  repeat split.
  - apply length_zero_loop.
  - intros j. rewrite HasBasePass_testbit. unfold ClearLights.
    cbn [basePassFlags_]. rewrite lookup_zero_loop.
    destruct (basePassFlags_ d !! _) as [w|] eqn:E; simpl.
    + apply lookup_lt_Some in E. rewrite decide_True by lia. apply Z.bits_0.
    + apply Z.bits_0.
Qed.

Lemma AddLight_foldl (ls : list LightPtr) : forall d,
  lights_ (foldl (fun d l => AddLight l d) d ls) = lights_ d ++ ls /\
  firstLight_ (foldl (fun d l => AddLight l d) d ls)
  = match lights_ d, ls with
    | [], l :: _ => Some l
    | _, _ => firstLight_ d
    end.
Proof.
  induction ls as [|l ls IH]; intros d; simpl.
  - rewrite app_nil_r. split; [done|]. by destruct (lights_ d).
  - destruct (IH (AddLight l d)) as [-> ->]. cbn [AddLight lights_ firstLight_].
    rewrite <- app_assoc. split; [done|].
    by destruct (lights_ d).
Qed.

(** X2. After [ClearLights], a run of [AddLight] calls leaves [lights_]
    holding exactly the added lights, in the order of the calls, and
    [firstLight_] is the first light added (null when none was added). *)
Theorem AddLight_sequence (d : Drawable) (ls : list LightPtr) :
  let d' := foldl (fun d l => AddLight l d) (ClearLights d) ls in
  lights_ d' = ls /\ firstLight_ d' = head ls.
Proof.
  destruct (AddLight_foldl ls (ClearLights d)) as [H1 H2]. split.
  - by rewrite H1.
  - rewrite H2. cbn [ClearLights lights_ firstLight_]. by destruct ls.
Qed.

(** X3. For every index [j] that is not negative, [HasBasePass(j)] after
    [SetBasePass(batchIndex)] is true exactly when it was true before or [j]
    is [(batchIndex << 5) * 32 + (batchIndex & 31)], the shift being the one
    on [unsigned]: the call turns on that one flag, changes no other flag
    and never clears one. *)
Theorem SetBasePass_observed (junk : nat -> Z) (batchIndex : Z) (d : Drawable) (j : Z) :
  0 <= j ->
  HasBasePass j (SetBasePass junk batchIndex d)
  = HasBasePass j d || (j =? 32 * shl32 batchIndex 5 + Z.land batchIndex 31).
Proof.
  intros Hj. pose proof (shl32_5_range batchIndex) as Hr.
  pose proof (land_31_range batchIndex) as Hb.
  pose proof (land_31_range j) as Hjb.
  rewrite !HasBasePass_testbit, SetBasePass_lookup.
  assert (j = 32 * shr32 j 5 + Z.land j 31) as Hsplit.
  { unfold shr32. rewrite Z.shiftr_div_pow2 by lia.
    change 31 with (Z.ones 5). rewrite Z.land_ones by lia.
    change (2 ^ 5) with 32. apply Z.div_mod. lia. }
  assert (0 <= shr32 j 5) as Hw.
  { unfold shr32. rewrite Z.shiftr_div_pow2 by lia. apply Z.div_pos; lia. }
  set (wj := shr32 j 5) in *. set (index := shl32 batchIndex 5) in *.
  set (flags := basePassFlags_ d).
  destruct (decide (Z.to_nat wj = Z.to_nat index)) as [Hsame|Hother].
  - rewrite decide_True by lia. cbn [default].
    unfold id. rewrite Z.lor_spec. f_equal.
    unfold shl32. rewrite Z.shiftl_1_l.
    rewrite u32_id by (split; [lia | apply Z.pow_lt_mono_r; lia]).
    rewrite Z.pow2_bits_eqb by lia.
    destruct (Z.eqb_spec (Z.land batchIndex 31) (Z.land j 31)) as [E|E];
      symmetry; [apply Z.eqb_eq | apply Z.eqb_neq]; lia.
  - assert ((j =? 32 * index + Z.land batchIndex 31) = false) as ->
      by (apply Z.eqb_neq; lia).
    rewrite orb_false_r. case_decide as Hin; cbn [default]; [done|].
    rewrite (proj2 (lookup_ge_None _ _)); [done|]. unfold flags in *. lia.
Qed.

Lemma SetBasePass_observed_witness :
  0 <= 1025 /\
  HasBasePass 1025 (SetBasePass fresh_junk 1 Drawable_new)
  = HasBasePass 1025 Drawable_new || (1025 =? 32 * shl32 1 5 + Z.land 1 31).
Proof.
  split; [lia | apply (SetBasePass_observed fresh_junk 1 Drawable_new 1025); lia].
Defined.

(** X4. The result of [SetBasePass] does not depend on what the memory of
    the words added by [Resize] held, every new word being zeroed before the
    flag is set; and the storage never shrinks: its size afterwards is the
    larger of the old size and [(batchIndex << 5) + 1]. *)
Theorem SetBasePass_storage (junk junk' : nat -> Z) (batchIndex : Z) (d : Drawable) :
  SetBasePass junk batchIndex d = SetBasePass junk' batchIndex d /\
  length (basePassFlags_ (SetBasePass junk batchIndex d))
  = (length (basePassFlags_ d) `max` (Z.to_nat (shl32 batchIndex 5) + 1))%nat.
Proof.
  split.
  - assert (basePassFlags_ (SetBasePass junk batchIndex d)
            = basePassFlags_ (SetBasePass junk' batchIndex d)) as E.
    { apply list_eq. intros i. by rewrite !SetBasePass_lookup. }
    unfold SetBasePass in *. cbn [basePassFlags_ set_basePassFlags] in E.
    unfold set_basePassFlags. by rewrite E.
  - set (l := basePassFlags_ (SetBasePass junk batchIndex d)).
    pose proof (SetBasePass_lookup junk batchIndex d (length l)) as Hend.
    pose proof (SetBasePass_lookup junk batchIndex d
                  (length (basePassFlags_ d) `max` (Z.to_nat (shl32 batchIndex 5) + 1))) as Hm.
    fold l in Hend, Hm.
    rewrite (proj2 (lookup_ge_None l (length l))) in Hend by lia.
    rewrite decide_False in Hm by lia. apply lookup_ge_None in Hm.
    case_decide; [done|lia].
Qed.

(** ** View marks and the bounding box *)

(** X5. For a frame that has a camera: after [MarkInShadowView] the drawable
    is in view for the frame number, [IsInView(frameNumber)], and the test
    for the frame and its camera, [IsInView(frame)], answers what it
    answered before the call: shadow marking never makes a drawable count as
    seen by the camera of the frame. *)
Theorem MarkInShadowView_observed (frame : FrameInfo) (d : Drawable) :
  camera_ frame <> None ->
  IsInViewFrame (frameNumber_ frame) (MarkInShadowView frame d) = true /\
  IsInView frame (MarkInShadowView frame d) = IsInView frame d.
Proof.
  intros Hcam. unfold MarkInShadowView, IsInViewFrame, IsInView.
  destruct (decide (viewFrameNumber_ d <> frameNumber_ frame)) as [Hne|He].
  - cbn [set_view viewFrameNumber_ viewCamera_]. split.
    + by apply bool_decide_eq_true.
    + rewrite (bool_decide_eq_false_2 (viewFrameNumber_ d = _)) by done.
      rewrite (bool_decide_eq_false_2 (None = _)) by done.
      by rewrite andb_false_r.
  - split; [|done]. apply bool_decide_eq_true. by destruct (decide (viewFrameNumber_ d = frameNumber_ frame)).
Qed.

Lemma MarkInShadowView_observed_witness :
  IsInViewFrame 5 (MarkInShadowView example_frame Drawable_new) = true /\
  IsInView example_frame (MarkInShadowView example_frame Drawable_new) = false.
Proof.
  exact (MarkInShadowView_observed example_frame Drawable_new ltac:(discriminate)).
Defined.

(** X6. For a live drawable: [OnMarkedDirty] with a node other than the
    drawable's own changes nothing at all; with the own node, the next
    [GetWorldBoundingBox] on the drawable runs the update hook once more,
    returns the box that the hook computes and leaves the box clean. *)
Theorem OnMarkedDirty_invalidates {variant : DrawableVariant}
    (this : DrawablePtr) (s : Scene) (d : Drawable) :
  objects s !! this = Some d ->
  (forall node, node <> node_ d -> OnMarkedDirty this node s = s) /\
  exists d', objects (OnMarkedDirty this (node_ d) s) !! this = Some d' /\
    snd (GetWorldBoundingBox d') = ComputeWorldBoundingBox d' /\
    hookCalls_ (fst (GetWorldBoundingBox d')) = S (hookCalls_ d) /\
    worldBoundingBoxDirty_ (fst (GetWorldBoundingBox d')) = false.
Proof.
  intros Hobj. split.
  - intros node Hne. unfold OnMarkedDirty. rewrite Hobj. by rewrite decide_False.
  - exists (set_worldBoundingBoxDirty true d). split; [|done].
    unfold OnMarkedDirty. rewrite Hobj, decide_True by done.
    destruct (octant_ d); cbn; apply lookup_insert_eq.
Qed.

Lemma OnMarkedDirty_invalidates_witness :
  OnMarkedDirty 7%nat (Some 4%nat) example_scene = example_scene.
Proof.
  refine (proj1 (OnMarkedDirty_invalidates (variant := example_variant) 7%nat
                   example_scene _ eq_refl) (Some 4%nat) _).
  discriminate.
Defined.

(** ** Counts and subtree contents *)

Lemma children_count_total (cs : list (option Octant)) :
  (forall j c, cs !! j = Some (Some c) ->
     numDrawables_ c = Z.of_nat (length (subtree_drawables c))) ->
  foldr (fun c acc => child_count c + acc) 0 cs
  = Z.of_nat (length (flat_map (fun c => match c with
                                         | Some c' => subtree_drawables c'
                                         | None => []
                                         end) cs)).
Proof.
  induction cs as [|c cs IH]; intros H; simpl; [done|].
  rewrite length_app, Nat2Z.inj_add, IH.
  - f_equal. destruct c as [c|]; simpl; [|done]. by apply (H O).
  - intros j c' Hj. by apply (H (S j)).
Qed.

Lemma count_is_subtree_size c :
  (forall q o, octant_at q c = Some o -> count_ok o) ->
  numDrawables_ c = Z.of_nat (length (subtree_drawables c)).
Proof.
  induction c as [ds cs n IH] using Octant_nested_ind. intros Hinv.
  pose proof (Hinv [] _ eq_refl) as Hok. unfold count_ok, children_count in Hok.
  simpl in Hok. simpl. rewrite length_app, Nat2Z.inj_add, Hok. f_equal.
  apply children_count_total. intros j c Hj.
  rewrite Forall_lookup in IH. apply (IH j _ Hj c eq_refl).
  intros q o Hq. apply (Hinv (q ++ [j])). rewrite octant_at_snoc.
  unfold child. simpl. by rewrite Hj.
Qed.

Lemma CountInvariant_subtree_size root q o :
  CountInvariant root -> octant_at q root = Some o ->
  numDrawables_ o = Z.of_nat (length (subtree_drawables o)).
Proof.
  intros Hinv Hq. apply count_is_subtree_size. intros s o' Hs.
  apply (Hinv (s ++ q)). rewrite octant_at_app, Hq. done.
Qed.

(** X7. In every scene reachable from a new octree by the public mutations,
    [GetNumDrawables] of an octant is the number of drawables held in the
    octant and below it, and [IsEmpty] is true exactly when no drawable is
    held in the octant or below it. *)
Theorem GetNumDrawables_subtree {geometry : OctreeGeometry}
    (s : Scene) (q : OctantPtr) (o : Octant) :
  octree_reachable s ->
  octant_at q (octree s) = Some o ->
  GetNumDrawables o = Z.of_nat (length (subtree_drawables o)) /\
  (IsEmpty o = true <-> subtree_drawables o = []).
Proof.
  intros Hreach Hq. apply octree_reachable_CountInvariant in Hreach.
  pose proof (CountInvariant_subtree_size _ _ _ Hreach Hq) as Hsize.
  split; [exact Hsize|]. unfold IsEmpty. rewrite Z.eqb_eq, Hsize.
  rewrite <- length_zero_iff_nil. lia.
Qed.

Lemma GetNumDrawables_subtree_witness :
  exists o, octant_at [1%nat] (octree example_scene) = Some o /\
            GetNumDrawables o = 1 /\ subtree_drawables o = [7%nat] /\
            IsEmpty o = false.
Proof.
  assert (octree_reachable (geometry := example_geometry) example_scene) as Hreach.
  { eapply reachable_step; [apply reachable_new|].
    assert (numDrawables_ (octree (Scene_new example_objects)) < 2 ^ 32 - 1) as Hroom
      by (simpl; lia).
    exact (mutation_InsertDrawable (geometry := example_geometry) 7%nat
             (Scene_new example_objects) Hroom). }
  eexists. split; [reflexivity|].
  split; [|split; reflexivity].
  exact (proj1 (GetNumDrawables_subtree (geometry := example_geometry)
                  example_scene [1%nat] _ Hreach eq_refl)).
Defined.

(** ** Octants kept in place *)

Lemma same_octants_trans d1 c1 d2 c2 a b c :
  same_octants d1 c1 a b -> same_octants d2 c2 b c ->
  same_octants (fun q => d1 q + d2 q) (fun q l => c2 q (c1 q l)) a c.
Proof.
  intros H1 H2 q. specialize (H1 q). specialize (H2 q).
  destruct (octant_at q a), (octant_at q b), (octant_at q c); try done.
  destruct H1 as (? & ? & ?), H2 as (? & ? & ?). repeat split; [lia|congruence|lia].
Qed.

Lemma same_octants_ext d1 c1 d2 c2 a b :
  same_octants d1 c1 a b ->
  (forall q o, octant_at q a = Some o ->
     d1 q = d2 q /\ c1 q (drawables_ o) = c2 q (drawables_ o)) ->
  same_octants d2 c2 a b.
Proof.
  intros H1 He q. specialize (H1 q). specialize (He q).
  destruct (octant_at q a) as [o|], (octant_at q b); try done.
  destruct (He o eq_refl) as [<- <-]. done.
Qed.

(** A tree is determined by what its octants hold, place by place. *)
Lemma same_octants_eq a : forall b,
  same_octants (fun _ => 0) (fun _ l => l) a b -> a = b.
Proof.
  induction a as [ds cs n IH] using Octant_nested_ind. intros [ds' cs' n'] H.
  pose proof (H []) as H0. simpl in H0. destruct H0 as (Hn & Hd & Hl).
  assert (cs = cs') as <-; [|f_equal; [done|lia]].
  apply list_eq_same_length with (length cs); [done|done|].
  intros j x y Hj Hx Hy.
  pose proof (H [j]) as Hj1. simpl in Hj1. unfold child in Hj1. simpl in Hj1.
  rewrite Hx, Hy in Hj1. simpl in Hj1.
  destruct x as [x|], y as [y|]; try done.
  f_equal. rewrite Forall_lookup in IH. apply (IH j _ Hx x eq_refl).
  intros q. specialize (H (q ++ [j])). rewrite !octant_at_snoc in H.
  unfold child in H. simpl in H. rewrite Hx, Hy in H. exact H.
Qed.

(** Replacing one octant by one with the same children keeps every octant
    in place. *)
Lemma set_octant_at_same_octants this root o o' :
  octant_at this root = Some o ->
  children_ o' = children_ o ->
  same_octants
    (fun q => if decide (q = this) then numDrawables_ o' - numDrawables_ o else 0)
    (fun q l => if decide (q = this) then drawables_ o' else l)
    root (set_octant_at this o' root).
Proof.
  intros Ho Hc q.
  destruct (octant_at q (set_octant_at this o' root)) as [o1|] eqn:E1.
  - destruct (set_octant_at_frame _ _ _ _ _ _ Ho Hc E1)
      as [[-> ->] | (Hne & oq & -> & Hd & Hn & Hl & _)].
    + rewrite Ho, !decide_True by done. rewrite Hc. repeat split; lia.
    + rewrite !decide_False by done. repeat split; (done || lia).
  - destruct (octant_at q root) as [oq|] eqn:E; [|done].
    destruct (set_octant_at_frame_old _ _ _ o' _ _ Ho Hc E)
      as [(_ & _ & Hq) | (_ & o1 & Hq & _)]; congruence.
Qed.

Lemma suffix_cons_iff (q : list nat) i parent :
  q `suffix_of` i :: parent <-> q = i :: parent \/ q `suffix_of` parent.
Proof.
  split.
  - apply suffix_inv_or.
  - intros [->|H]; [done|by apply suffix_cons_r].
Qed.

(** [IncDrawableCount] adds one to the count of the octant and of each of
    its ancestors, and touches nothing else. *)
Lemma IncDrawableCount_same_octants this : forall root o,
  octant_at this root = Some o ->
  (forall p op, p `suffix_of` this -> octant_at p root = Some op ->
     0 <= numDrawables_ op < 2 ^ 32 - 1) ->
  same_octants (fun q => if decide (q `suffix_of` this) then 1 else 0)
    (fun _ l => l) root (IncDrawableCount this root).
Proof.
  induction this as [|i parent IH]; intros root o Ho Hbound.
  - simpl in Ho. injection Ho as <-. simpl.
    pose proof (Hbound [] root (suffix_nil _) eq_refl) as Hr.
    eapply same_octants_ext.
    { apply (set_octant_at_same_octants [] root root
               (set_numDrawables (u32 (numDrawables_ root + 1)) root) eq_refl eq_refl). }
    intros q oq Hq. cbn [numDrawables_ drawables_ set_numDrawables].
    rewrite u32_id by lia.
    destruct (decide (q = [])) as [->|Hne].
    + simpl in Hq. injection Hq as <-. rewrite decide_True by done. split; [lia|done].
    + rewrite decide_False; [done|]. by intros ->%suffix_nil_inv.
  - cbn [IncDrawableCount]. unfold modify_octant. rewrite Ho.
    set (o' := set_numDrawables (u32 (numDrawables_ o + 1)) o).
    pose proof (set_octant_at_same_octants (i :: parent) root o o' Ho eq_refl) as Hstep.
    set (root1 := set_octant_at (i :: parent) o' root) in *.
    destruct (octant_at_parent_Some _ _ _ _ Ho) as (op & Hop & _).
    assert (forall p opp, p `suffix_of` parent -> octant_at p root = Some opp ->
              octant_at p root1 <> None /\
              forall op1, octant_at p root1 = Some op1 ->
                          numDrawables_ op1 = numDrawables_ opp) as Hsame.
    { intros p opp Hp Hopp. pose proof (Hstep p) as Hs. rewrite Hopp in Hs.
      assert (p <> i :: parent) as Hne.
      { intros ->. by apply suffix_cons_not in Hp. }
      rewrite decide_False in Hs by done.
      destruct (octant_at p root1) as [op1|]; [|done].
      split; [done|]. intros ? [= <-]. lia. }
    destruct (Hsame parent op (reflexivity _) Hop) as [Hex _].
    destruct (octant_at parent root1) as [op1|] eqn:Hop1; [|done].
    assert (same_octants (fun q => if decide (q `suffix_of` parent) then 1 else 0)
              (fun _ l => l) root1 (IncDrawableCount parent root1)) as Hrest.
    { apply (IH root1 op1 Hop1). intros p opp Hp Hopp.
      pose proof (Hstep p) as Hs. rewrite Hopp in Hs.
      destruct (octant_at p root) as [opp0|] eqn:E0; [|done].
      assert (p <> i :: parent) as Hne.
      { intros ->. by apply suffix_cons_not in Hp. }
      rewrite decide_False in Hs by done.
      pose proof (Hbound p opp0 (suffix_cons_r _ _ _ Hp) E0). lia. }
    eapply same_octants_ext; [exact (same_octants_trans _ _ _ _ _ _ _ Hstep Hrest)|].
    intros q oq Hq. cbn beta.
    pose proof (Hbound _ _ (reflexivity _) Ho) as Hr.
    destruct (decide (q = i :: parent)) as [->|Hne].
    + rewrite (decide_False (P := i :: parent `suffix_of` parent))
        by apply suffix_cons_not.
      rewrite decide_True by done. rewrite Ho in Hq. injection Hq as <-.
      unfold o'. cbn [numDrawables_ drawables_ set_numDrawables].
      rewrite u32_id by lia. split; [lia|done].
    + split; [|done].
      destruct (decide (q `suffix_of` parent)) as [Hs|Hs].
      * rewrite decide_True by by apply suffix_cons_r. lia.
      * rewrite decide_False; [lia|]. intros [?|?]%suffix_cons_iff; done.
Qed.

Lemma AddDrawable_same_octants (this : OctantPtr) (drawable : DrawablePtr)
    (s : Scene) (o : Octant) :
  CountInvariant (octree s) ->
  octant_at this (octree s) = Some o ->
  numDrawables_ (octree s) < 2 ^ 32 - 1 ->
  same_octants (fun q => if decide (q `suffix_of` this) then 1 else 0)
    (fun q l => if decide (q = this) then l ++ [drawable] else l)
    (octree s) (octree (AddDrawable this drawable s)).
Proof.
  intros Hinv Ho Hroom.
  rewrite AddDrawable_tree. unfold modify_octant. rewrite Ho.
  set (o1 := set_drawables (drawables_ o ++ [drawable]) o).
  pose proof (set_octant_at_same_octants this _ o o1 Ho eq_refl) as Hpush.
  set (t2 := set_octant_at this o1 (octree s)) in *.
  assert (same_octants (fun q => if decide (q `suffix_of` this) then 1 else 0)
            (fun _ l => l) t2 (IncDrawableCount this t2)) as Hinc.
  { apply (IncDrawableCount_same_octants this t2 o1).
    - unfold t2. by eapply octant_at_set_octant_at.
    - intros p op Hp Hop. pose proof (Hpush p) as Hs. rewrite Hop in Hs.
      destruct (octant_at p (octree s)) as [op0|] eqn:E0; [|done].
      destruct Hs as (Hn & _ & _).
      assert (numDrawables_ op = numDrawables_ op0) as ->.
      { rewrite Hn. case_decide; [|lia]. subst p. rewrite Ho in E0.
        injection E0 as <-. unfold o1. simpl. lia. }
      destruct (Hinv p op0 E0) as [_ [Hr _]].
      pose proof (CountInvariant_le_root _ _ _ Hinv E0). lia. }
  eapply same_octants_ext; [exact (same_octants_trans _ _ _ _ _ _ _ Hpush Hinc)|].
  intros q oq Hq. cbn beta. split.
  - case_decide; [|lia]. subst q. unfold o1. simpl. lia.
  - case_decide; [|done]. subst q. rewrite Ho in Hq. by injection Hq as <-.
Qed.

(** X8. [AddDrawable] on a live octant, under the count invariant and with
    the root count below the largest unsigned: [octant_] of the drawable is
    set to the octant and no other object changes, the queues are unchanged,
    no octant is created or removed, the drawable is appended to the list of
    this octant and no other list changes, the counts of the octant and of
    each of its ancestors grow by one and no other count changes. *)
Theorem AddDrawable_octants (this : OctantPtr) (drawable : DrawablePtr)
    (s : Scene) (o : Octant) :
  CountInvariant (octree s) ->
  octant_at this (octree s) = Some o ->
  numDrawables_ (octree s) < 2 ^ 32 - 1 ->
  let s' := AddDrawable this drawable s in
  (is_Some (objects s !! drawable) ->
   objects s' !! drawable ≫= octant_ = Some this) /\
  (forall d, d <> drawable -> objects s' !! d = objects s !! d) /\
  objects s' = alter (set_octant (Some this)) drawable (objects s) /\
  drawableUpdates_ s' = drawableUpdates_ s /\
  drawableReinsertions_ s' = drawableReinsertions_ s /\
  same_octants (fun q => if decide (q `suffix_of` this) then 1 else 0)
    (fun q l => if decide (q = this) then l ++ [drawable] else l)
    (octree s) (octree s').
Proof.
  intros Hinv Ho Hroom s'.
  assert (objects s' = alter (set_octant (Some this)) drawable (objects s)) as Hobj
    by done.
  split; [|split; [|split; [done|split; [done|split; [done|]]]]].
  - intros [d Hd]. rewrite Hobj, lookup_alter_octant, decide_True by done.
    by rewrite Hd.
  - intros d Hne. rewrite Hobj. by apply lookup_alter_ne.
  - by eapply AddDrawable_same_octants.
Qed.

Lemma AddDrawable_octants_witness :
  objects example_pair_scene !! 9%nat ≫= octant_ = None /\
  objects (AddDrawable [2; 1]%nat 9%nat example_pair_scene) !! 9%nat ≫= octant_
  = Some [2; 1]%nat /\
  octant_ <$> objects (AddDrawable [2; 1]%nat 9%nat example_pair_scene) !! 9%nat
  = Some (Some [2; 1]%nat) /\
  objects (AddDrawable [2; 1]%nat 9%nat example_pair_scene) !! 7%nat
  = objects example_pair_scene !! 7%nat /\
  same_octants (fun q => if decide (q `suffix_of` [2; 1]%nat) then 1 else 0)
    (fun q l => if decide (q = [2; 1]%nat) then l ++ [9%nat] else l)
    (octree example_pair_scene)
    (octree (AddDrawable [2; 1]%nat 9%nat example_pair_scene)) /\
  drawables_ <$> octant_at [2; 1]%nat
                   (octree (AddDrawable [2; 1]%nat 9%nat example_pair_scene))
  = Some [7; 9]%nat /\
  numDrawables_ <$> octant_at [1%nat]
                      (octree (AddDrawable [2; 1]%nat 9%nat example_pair_scene))
  = Some 2.
Proof.
  destruct (AddDrawable_octants [2; 1]%nat 9%nat example_pair_scene
              (mkOctant [7%nat] (replicate NUM_OCTANTS None) 1))
    as (Hoctant & Hothers & _ & _ & _ & Htree).
  - apply check_counts_sound. reflexivity.
  - reflexivity.
  - reflexivity.
  - split; [reflexivity|]. split; [apply Hoctant; by eexists|].
    split; [reflexivity|].
    split; [by apply Hothers|]. split; [exact Htree|]. split; reflexivity.
Defined.

(** [DecDrawableCount] when no count on the way reaches zero: it takes one
    from the count of the octant and of each of its ancestors, and frees
    nothing. *)
Lemma DecDrawableCount_same_octants this : forall s o,
  octant_at this (octree s) = Some o ->
  (forall p op, p `suffix_of` this -> octant_at p (octree s) = Some op ->
     (if p is [] then 1 else 2) <= numDrawables_ op < 2 ^ 32) ->
  let s' := DecDrawableCount this s in
  objects s' = objects s /\
  drawableUpdates_ s' = drawableUpdates_ s /\
  drawableReinsertions_ s' = drawableReinsertions_ s /\
  same_octants (fun q => if decide (q `suffix_of` this) then -1 else 0)
    (fun _ l => l) (octree s) (octree s').
Proof.
  induction this as [|i parent IH]; intros s o Ho Hbound; cbn zeta.
  - simpl in Ho. injection Ho as <-. simpl.
    pose proof (Hbound [] _ (suffix_nil _) eq_refl) as Hr. cbn in Hr.
    repeat split; [].
    eapply same_octants_ext.
    { apply (set_octant_at_same_octants [] (octree s) (octree s)
               (set_numDrawables (u32 (numDrawables_ (octree s) - 1)) (octree s))
               eq_refl eq_refl). }
    intros q oq Hq. cbn [numDrawables_ drawables_ set_numDrawables].
    rewrite u32_id by lia.
    destruct (decide (q = [])) as [->|Hne].
    + rewrite decide_True by done. split; [lia|]. simpl in Hq. by injection Hq as <-.
    + rewrite decide_False; [done|]. by intros ->%suffix_nil_inv.
  - cbn [DecDrawableCount]. rewrite Ho.
    pose proof (Hbound _ _ (reflexivity _) Ho) as Hr. cbn in Hr.
    rewrite u32_id by lia. rewrite decide_False by lia.
    set (o' := set_numDrawables (numDrawables_ o - 1) o).
    pose proof (set_octant_at_same_octants (i :: parent) _ o o' Ho eq_refl) as Hstep.
    set (root1 := set_octant_at (i :: parent) o' (octree s)) in *.
    destruct (octant_at_parent_Some _ _ _ _ Ho) as (op & Hop & _).
    assert (exists op1, octant_at parent root1 = Some op1) as [op1 Hop1].
    { pose proof (Hstep parent) as Hs. rewrite Hop in Hs.
      destruct (octant_at parent root1) as [op1|]; [by exists op1|done]. }
    destruct (IH (set_octree root1 s) op1 Hop1) as (I1 & I2 & I3 & I4).
    { intros p opp Hp Hopp. cbn [octree set_octree] in Hopp.
      pose proof (Hstep p) as Hs. rewrite Hopp in Hs.
      destruct (octant_at p (octree s)) as [opp0|] eqn:E0; [|done].
      assert (p <> i :: parent) as Hne.
      { intros ->. by apply suffix_cons_not in Hp. }
      rewrite decide_False in Hs by done.
      pose proof (Hbound p opp0 (suffix_cons_r _ _ _ Hp) E0).
      destruct Hs as (-> & _ & _). rewrite Z.add_0_r. done. }
    repeat split; [done..|].
    cbn [octree set_octree] in I4.
    eapply same_octants_ext; [exact (same_octants_trans _ _ _ _ _ _ _ Hstep I4)|].
    intros q oq Hq. cbn beta.
    destruct (decide (q = i :: parent)) as [->|Hne].
    + rewrite (decide_False (P := i :: parent `suffix_of` parent))
        by apply suffix_cons_not.
      rewrite decide_True by done. rewrite Ho in Hq. injection Hq as <-.
      unfold o'. cbn [numDrawables_ drawables_ set_numDrawables]. split; [lia|done].
    + split; [|done].
      destruct (decide (q `suffix_of` parent)) as [Hs|Hs].
      * rewrite decide_True by by apply suffix_cons_r. lia.
      * rewrite decide_False; [lia|]. intros [?|?]%suffix_cons_iff; done.
Qed.

(** [Find] on a list that holds the drawable only as its last element. *)
Lemma Find_last (drawable : DrawablePtr) (l : list DrawablePtr) :
  drawable ∉ l ->
  list_find (fun x => x = drawable) (l ++ [drawable]) = Some (length l, drawable).
Proof.
  intros Hnot. apply list_find_Some. split; [|split; [done|]].
  - by rewrite lookup_app_r, Nat.sub_diag.
  - intros j y Hj Hlt ->. apply Hnot. rewrite lookup_app_l in Hj by done.
    by eapply list_elem_of_lookup_2.
Qed.

Lemma CountInvariant_octant_at root p op :
  CountInvariant root -> octant_at p root = Some op -> CountInvariant op.
Proof.
  intros Hinv Hp s o Hs. apply (Hinv (s ++ p)). by rewrite octant_at_app, Hp.
Qed.

(** Under the invariant an octant holds no more than any of its ancestors. *)
Lemma CountInvariant_le_ancestor root p q op oq :
  CountInvariant root -> p `suffix_of` q ->
  octant_at p root = Some op -> octant_at q root = Some oq ->
  numDrawables_ oq <= numDrawables_ op.
Proof.
  intros Hinv [s ->] Hp Hq. rewrite octant_at_app, Hp in Hq. simpl in Hq.
  eapply CountInvariant_le_root; [by eapply CountInvariant_octant_at|done].
Qed.

(** X9. [RemoveDrawable] of a held drawable, under the count invariant, when
    no octant on the way to the root, the root excepted, has count 1: no
    octant is freed, the first occurrence of the drawable is erased from the
    list of this octant and no other list changes, the counts of the octant
    and of each of its ancestors go down by one and no other count changes;
    [octant_] of the drawable is reset exactly with [resetOctant], and the
    queues are unchanged. *)
Theorem RemoveDrawable_octants
    (this : OctantPtr) (drawable : DrawablePtr) (resetOctant : bool)
    (s : Scene) (o : Octant) :
  CountInvariant (octree s) ->
  octant_at this (octree s) = Some o ->
  drawable ∈ drawables_ o ->
  (forall i p op, i :: p `suffix_of` this ->
     octant_at (i :: p) (octree s) = Some op -> numDrawables_ op <> 1) ->
  let s' := RemoveDrawable this drawable resetOctant s in
  objects s' !! drawable ≫= octant_ =
    (if resetOctant then None else objects s !! drawable ≫= octant_) /\
  (forall d, d <> drawable -> objects s' !! d = objects s !! d) /\
  objects s' =
    (if resetOctant then alter (set_octant None) drawable (objects s)
     else objects s) /\
  drawableUpdates_ s' = drawableUpdates_ s /\
  drawableReinsertions_ s' = drawableReinsertions_ s /\
  same_octants (fun q => if decide (q `suffix_of` this) then -1 else 0)
    (fun q l =>
       if decide (q = this)
       then match list_find (fun x => x = drawable) l with
            | Some (i, _) => delete i l
            | None => l
            end
       else l)
    (octree s) (octree s').
Proof.
  intros Hinv Ho Hin Hnone. cbn zeta. unfold RemoveDrawable. rewrite Ho.
  destruct (list_find_elem_of (fun x => x = drawable) _ _ Hin eq_refl) as [[i y] Hfind].
  rewrite Hfind.
  set (s1 := if resetOctant then SetOctant drawable None s else s).
  assert (Hs1 : octree s1 = octree s) by (unfold s1; by destruct resetOctant).
  rewrite Hs1.
  set (o_del := set_drawables (delete i (drawables_ o)) o).
  pose proof (set_octant_at_same_octants this _ o o_del Ho eq_refl) as Hdel.
  set (t2 := set_octant_at this o_del (octree s)) in *.
  assert (Ht2 : octant_at this t2 = Some o_del) by by eapply octant_at_set_octant_at.
  assert (1 <= numDrawables_ o) as Hone.
  { destruct (Hinv _ _ Ho) as [Hok _]. unfold count_ok in Hok.
    destruct (children_count_nonneg o) as [Hnn _].
    { by eapply CountInvariant_child_nonneg. }
    apply list_elem_of_lookup_1 in Hin as [k Hk]. apply lookup_lt_Some in Hk. lia. }
  destruct (DecDrawableCount_same_octants this (set_octree t2 s1) o_del Ht2)
    as (I1 & I2 & I3 & I4).
  { intros p op Hp Hop. cbn [octree set_octree] in Hop.
    pose proof (Hdel p) as Hs. rewrite Hop in Hs.
    destruct (octant_at p (octree s)) as [op0|] eqn:E0; [|done].
    destruct Hs as (Hn & _ & _).
    assert (numDrawables_ op = numDrawables_ op0) as ->.
    { rewrite Hn. case_decide; [|lia]. unfold o_del. simpl. lia. }
    destruct (Hinv p op0 E0) as [_ [Hr _]].
    pose proof (CountInvariant_le_ancestor _ _ _ _ _ Hinv Hp E0 Ho).
    destruct p as [|j p]; [lia|]. pose proof (Hnone j p op0 Hp E0). lia. }
  cbn [octree set_octree objects drawableUpdates_ drawableReinsertions_] in I1, I2, I3, I4.
  assert (objects (DecDrawableCount this (set_octree t2 s1))
          = (if resetOctant then alter (set_octant None) drawable (objects s)
             else objects s)) as Hobj
    by (rewrite I1; unfold s1; by destruct resetOctant).
  split.
  { rewrite Hobj. destruct resetOctant; [|done].
    rewrite lookup_alter_octant, decide_True by done.
    by destruct (objects s !! drawable). }
  split.
  { intros d Hne. rewrite Hobj. destruct resetOctant; [|done].
    by apply lookup_alter_ne. }
  split; [exact Hobj|].
  split; [by rewrite I2; unfold s1; destruct resetOctant|].
  split; [by rewrite I3; unfold s1; destruct resetOctant|].
  eapply same_octants_ext; [exact (same_octants_trans _ _ _ _ _ _ _ Hdel I4)|].
  intros q oq Hq. cbn beta. split.
  - unfold o_del. cbn [numDrawables_ set_drawables]. repeat case_decide; lia.
  - case_decide; [|done]. subst q. rewrite Ho in Hq. injection Hq as <-.
    by rewrite Hfind.
Qed.

Lemma RemoveDrawable_octants_witness :
  objects example_shared_scene !! 9%nat ≫= octant_ = Some [2; 1]%nat /\
  objects (RemoveDrawable [2; 1]%nat 9%nat true example_shared_scene) !! 9%nat
    ≫= octant_ = None /\
  objects (RemoveDrawable [2; 1]%nat 9%nat false example_shared_scene) !! 9%nat
    ≫= octant_ = Some [2; 1]%nat /\
  same_octants (fun q => if decide (q `suffix_of` [2; 1]%nat) then -1 else 0)
    (fun q l =>
       if decide (q = [2; 1]%nat)
       then match list_find (fun x => x = 9%nat) l with
            | Some (i, _) => delete i l
            | None => l
            end
       else l)
    (octree example_shared_scene)
    (octree (RemoveDrawable [2; 1]%nat 9%nat true example_shared_scene)) /\
  numDrawables_ <$> octant_at [1%nat] (octree example_shared_scene) = Some 2 /\
  numDrawables_ <$> octant_at [1%nat]
                      (octree (RemoveDrawable [2; 1]%nat 9%nat true example_shared_scene))
  = Some 1 /\
  drawables_ <$> octant_at [2; 1]%nat
                   (octree (RemoveDrawable [2; 1]%nat 9%nat true example_shared_scene))
  = Some [7%nat].
Proof.
  assert (CountInvariant (octree example_shared_scene)) as Hinv
    by (apply check_counts_sound; reflexivity).
  assert (9%nat ∈ [7; 9]%nat) as Hheld
    by (apply list_elem_of_lookup_2 with 1%nat; reflexivity).
  assert (forall i p op, i :: p `suffix_of` [2; 1]%nat ->
            octant_at (i :: p) (octree example_shared_scene) = Some op ->
            numDrawables_ op <> 1) as Hchain.
  { intros i p op Hsuf Hop.
    assert (i :: p = [2; 1]%nat \/ i :: p = [1%nat]) as [E|E].
    { apply suffix_cons_iff in Hsuf as [E|Hsuf]; [by left|].
      apply suffix_cons_iff in Hsuf as [E|Hsuf]; [by right|].
      by apply suffix_nil_inv in Hsuf. }
    - rewrite E in Hop. vm_compute in Hop. by injection Hop as <-.
    - rewrite E in Hop. vm_compute in Hop. by injection Hop as <-. }
  destruct (RemoveDrawable_octants [2; 1]%nat 9%nat true example_shared_scene
              (mkOctant [7; 9]%nat (replicate NUM_OCTANTS None) 2)
              Hinv eq_refl Hheld Hchain)
    as (Hreset & _ & _ & _ & _ & Htree).
  destruct (RemoveDrawable_octants [2; 1]%nat 9%nat false example_shared_scene
              (mkOctant [7; 9]%nat (replicate NUM_OCTANTS None) 2)
              Hinv eq_refl Hheld Hchain)
    as (Hkept & _).
  split; [reflexivity|]. split; [exact Hreset|]. split; [exact Hkept|].
  split; [exact Htree|]. repeat split; reflexivity.
Defined.

(** X10. Round trip. Under the count invariant, adding to a live octant a
    drawable that its list does not hold and removing it again gives back
    the tree as it was, with the same queues, provided no octant on the way
    to the root, the root excepted, had count zero and the root count was
    below the largest unsigned. [octant_] of the drawable ends null with
    [resetOctant] and on this octant without. *)
Theorem AddDrawable_RemoveDrawable_round_trip
    (this : OctantPtr) (drawable : DrawablePtr) (resetOctant : bool)
    (s : Scene) (o : Octant) :
  CountInvariant (octree s) ->
  octant_at this (octree s) = Some o ->
  drawable ∉ drawables_ o ->
  numDrawables_ (octree s) < 2 ^ 32 - 1 ->
  (forall i p op, i :: p `suffix_of` this ->
     octant_at (i :: p) (octree s) = Some op -> numDrawables_ op <> 0) ->
  let s' := RemoveDrawable this drawable resetOctant (AddDrawable this drawable s) in
  octree s' = octree s /\
  drawableUpdates_ s' = drawableUpdates_ s /\
  drawableReinsertions_ s' = drawableReinsertions_ s /\
  objects s' =
    alter (set_octant (if resetOctant then None else Some this)) drawable (objects s) /\
  (is_Some (objects s !! drawable) ->
   objects s' !! drawable ≫= octant_ = (if resetOctant then None else Some this)) /\
  (forall d, d <> drawable -> objects s' !! d = objects s !! d).
Proof.
  intros Hinv Ho Hnot Hroom Hnz. cbn zeta.
  pose proof (AddDrawable_same_octants this drawable s o Hinv Ho Hroom) as Hadd.
  set (sa := AddDrawable this drawable s) in *.
  assert (objects sa = alter (set_octant (Some this)) drawable (objects s)) as Hobj by done.
  assert (drawableUpdates_ sa = drawableUpdates_ s) as Hq1 by done.
  assert (drawableReinsertions_ sa = drawableReinsertions_ s) as Hq2 by done.
  pose proof (Hadd this) as Hthis. rewrite Ho in Hthis.
  destruct (octant_at this (octree sa)) as [oa|] eqn:Hoa; [|done].
  rewrite !decide_True in Hthis by done. destruct Hthis as (Hna & Hda & Hla).
  unfold RemoveDrawable. rewrite Hoa, Hda, (Find_last _ _ Hnot).
  rewrite delete_middle, app_nil_r.
  set (s1 := if resetOctant then SetOctant drawable None sa else sa).
  assert (Hs1 : octree s1 = octree sa) by (unfold s1; by destruct resetOctant).
  rewrite Hs1.
  set (o_del := set_drawables (drawables_ o) oa).
  pose proof (set_octant_at_same_octants this _ oa o_del Hoa eq_refl) as Hdel.
  set (t2 := set_octant_at this o_del (octree sa)) in *.
  assert (Ht2 : octant_at this t2 = Some o_del) by by eapply octant_at_set_octant_at.
  pose proof (same_octants_trans _ _ _ _ _ _ _ Hadd Hdel) as Hmid.
  destruct (DecDrawableCount_same_octants this (set_octree t2 s1) o_del Ht2)
    as (I1 & I2 & I3 & I4).
  { intros p op Hp Hop. cbn [octree set_octree] in Hop.
    pose proof (Hmid p) as Hs. rewrite Hop in Hs. cbn beta in Hs.
    destruct (octant_at p (octree s)) as [op0|] eqn:E0; [|done].
    destruct Hs as (Hn & _ & _). rewrite decide_True in Hn by done.
    assert (numDrawables_ op = numDrawables_ op0 + 1) as ->.
    { rewrite Hn. case_decide; [|lia]. unfold o_del. simpl. lia. }
    destruct (Hinv p op0 E0) as [_ [Hr _]].
    pose proof (CountInvariant_le_root _ _ _ Hinv E0).
    destruct p as [|i p]; [lia|]. pose proof (Hnz i p op0 Hp E0). lia. }
  cbn [octree set_octree objects drawableUpdates_ drawableReinsertions_] in I1, I2, I3, I4.
  assert (objects (DecDrawableCount this (set_octree t2 s1))
          = alter (set_octant (if resetOctant then None else Some this)) drawable
              (objects s)) as Hobjs.
  { rewrite I1. unfold s1. destruct resetOctant; [|done].
    cbn [SetOctant objects set_objects]. rewrite Hobj. by rewrite alter_alter_eq. }
  split; [|split; [|split; [|split; [exact Hobjs|split]]]].
  - symmetry. apply same_octants_eq.
    eapply same_octants_ext; [exact (same_octants_trans _ _ _ _ _ _ _ Hmid I4)|].
    intros q oq Hq. cbn beta. split.
    + unfold o_del. cbn [numDrawables_ set_drawables]. repeat case_decide; lia.
    + case_decide; [|done]. subst q. rewrite Ho in Hq. by injection Hq as <-.
  - rewrite I2. unfold s1. by destruct resetOctant.
  - rewrite I3. unfold s1. by destruct resetOctant.
  - intros [d Hd]. rewrite Hobjs, lookup_alter_octant, decide_True by done.
    by rewrite Hd.
  - intros d Hne. rewrite Hobjs. by apply lookup_alter_ne.
Qed.

Lemma AddDrawable_RemoveDrawable_round_trip_witness :
  objects example_pair_scene !! 9%nat ≫= octant_ = None /\
  objects (AddDrawable [2; 1]%nat 9%nat example_pair_scene) !! 9%nat ≫= octant_
  = Some [2; 1]%nat /\
  octree (RemoveDrawable [2; 1]%nat 9%nat true
            (AddDrawable [2; 1]%nat 9%nat example_pair_scene))
  = octree example_pair_scene /\
  objects (RemoveDrawable [2; 1]%nat 9%nat true
             (AddDrawable [2; 1]%nat 9%nat example_pair_scene)) !! 9%nat ≫= octant_
  = None /\
  objects (RemoveDrawable [2; 1]%nat 9%nat false
             (AddDrawable [2; 1]%nat 9%nat example_pair_scene)) !! 9%nat ≫= octant_
  = Some [2; 1]%nat /\
  objects (RemoveDrawable [2; 1]%nat 9%nat true
             (AddDrawable [2; 1]%nat 9%nat example_pair_scene)) !! 7%nat
  = objects example_pair_scene !! 7%nat.
Proof.
  assert (CountInvariant (octree example_pair_scene)) as Hinv
    by (apply check_counts_sound; reflexivity).
  assert (9%nat ∉ [7%nat]) as Hnot
    by (by intros [[=]|[]%elem_of_nil]%elem_of_cons).
  assert (forall i p op, i :: p `suffix_of` [2; 1]%nat ->
            octant_at (i :: p) (octree example_pair_scene) = Some op ->
            numDrawables_ op <> 0) as Hchain.
  { intros i p op Hsuf Hop.
    assert (i :: p = [2; 1]%nat \/ i :: p = [1%nat]) as [E|E].
    { apply suffix_cons_iff in Hsuf as [E|Hsuf]; [by left|].
      apply suffix_cons_iff in Hsuf as [E|Hsuf]; [by right|].
      by apply suffix_nil_inv in Hsuf. }
    - rewrite E in Hop. vm_compute in Hop. by injection Hop as <-.
    - rewrite E in Hop. vm_compute in Hop. by injection Hop as <-. }
  destruct (AddDrawable_RemoveDrawable_round_trip [2; 1]%nat 9%nat true
              example_pair_scene (mkOctant [7%nat] (replicate NUM_OCTANTS None) 1)
              Hinv eq_refl Hnot eq_refl Hchain)
    as (Htree & _ & _ & _ & Hreset & Hothers).
  destruct (AddDrawable_RemoveDrawable_round_trip [2; 1]%nat 9%nat false
              example_pair_scene (mkOctant [7%nat] (replicate NUM_OCTANTS None) 1)
              Hinv eq_refl Hnot eq_refl Hchain)
    as (_ & _ & _ & _ & Hkept & _).
  split; [reflexivity|]. split; [reflexivity|]. split; [exact Htree|].
  split; [apply Hreset; by eexists|]. split; [apply Hkept; by eexists|].
  by apply Hothers.
Defined.

(** X11. The round trip does not keep an empty octant: under the count
    invariant, if an octant on the way from the octant to the root, the root
    excepted, had count zero, then after adding a drawable and removing it
    again that octant is gone from the tree. *)
Theorem AddDrawable_RemoveDrawable_frees_empty
    (this : OctantPtr) (drawable : DrawablePtr) (resetOctant : bool)
    (s : Scene) (o : Octant) (i : nat) (p : OctantPtr) (op : Octant) :
  CountInvariant (octree s) ->
  octant_at this (octree s) = Some o ->
  numDrawables_ (octree s) < 2 ^ 32 - 1 ->
  i :: p `suffix_of` this ->
  octant_at (i :: p) (octree s) = Some op ->
  numDrawables_ op = 0 ->
  octant_at (i :: p)
    (octree (RemoveDrawable this drawable resetOctant (AddDrawable this drawable s)))
  = None.
Proof.
  intros Hinv Ho Hroom Hsuf Hop Hzero.
  pose proof (AddDrawable_same_octants this drawable s o Hinv Ho Hroom) as Hadd.
  destruct (AddDrawable_CountInvariant this drawable s (mk_is_Some _ _ Ho) Hinv Hroom)
    as [Hinva _].
  set (sa := AddDrawable this drawable s) in *.
  pose proof (Hadd this) as Hthis. rewrite Ho in Hthis.
  destruct (octant_at this (octree sa)) as [oa|] eqn:Hoa; [|done].
  rewrite !decide_True in Hthis by done. destruct Hthis as (_ & Hda & _).
  pose proof (Hadd (i :: p)) as Hip. rewrite Hop in Hip.
  destruct (octant_at (i :: p) (octree sa)) as [opa|] eqn:Hopa; [|done].
  rewrite decide_True in Hip by done. destruct Hip as (Hn & _ & _).
  destruct (RemoveDrawable_held this drawable resetOctant sa oa Hinva Hoa)
    as (_ & _ & _ & _ & _ & Hfreed & _).
  { rewrite Hda. apply list_elem_of_lookup_2 with (length (drawables_ o)).
    by rewrite lookup_app_r, Nat.sub_diag. }
  apply (Hfreed i p opa Hsuf Hopa). lia.
Qed.

Lemma AddDrawable_RemoveDrawable_frees_empty_witness :
  octant_at [3%nat] (octree (GetOrCreateChild [] 3%nat example_scene)) <> None /\
  octant_at [3%nat]
    (octree (RemoveDrawable [3%nat] 9%nat true
               (AddDrawable [3%nat] 9%nat (GetOrCreateChild [] 3%nat example_scene))))
  = None.
Proof.
  split; [done|].
  refine (AddDrawable_RemoveDrawable_frees_empty [3%nat] 9%nat true
            (GetOrCreateChild [] 3%nat example_scene) _ 3%nat [] _ _ eq_refl _ _ eq_refl eq_refl).
  - apply check_counts_sound. reflexivity.
  - reflexivity.
  - done.
Defined.

(** ** The drawables held in the tree *)

Lemma flat_map_insert_Permutation {A B} (f : A -> list B) (l : list A) :
  forall i x, l !! i = Some x ->
  exists rest, flat_map f l ≡ₚ f x ++ rest /\
               forall x', flat_map f (<[i := x']> l) ≡ₚ f x' ++ rest.
Proof.
  induction l as [|y l IH]; intros i x Hi; [done|].
  destruct i as [|i]; simpl in *.
  - injection Hi as ->. by exists (flat_map f l).
  - destruct (IH i x Hi) as (rest & H1 & H2). exists (f y ++ rest). split.
    + rewrite H1. apply Permutation_app_swap_app.
    + intros x'. rewrite H2. apply Permutation_app_swap_app.
Qed.

(** The contents of a tree are those of any one of its octants and a rest
    that does not depend on that octant. *)
Lemma subtree_drawables_set_octant_at this : forall root o,
  octant_at this root = Some o ->
  exists rest,
    subtree_drawables root ≡ₚ subtree_drawables o ++ rest /\
    (forall o', subtree_drawables (set_octant_at this o' root)
                ≡ₚ subtree_drawables o' ++ rest) /\
    (forall i parent, this = i :: parent ->
       subtree_drawables (modify_octant parent (set_child i None) root) ≡ₚ rest).
Proof.
  induction this as [|i parent IH]; intros root o Ho.
  - simpl in Ho. injection Ho as <-. exists []. rewrite app_nil_r.
    split; [done|]. split; [|done]. intros o'. simpl. by rewrite app_nil_r.
  - destruct (octant_at_parent_Some _ _ _ _ Ho) as (p & Hp & Hchild).
    destruct (IH root p Hp) as (rest_p & H1 & H2 & _).
    apply child_Some_lookup in Hchild.
    destruct (flat_map_insert_Permutation
                (fun c => match c with
                          | Some c' => subtree_drawables c'
                          | None => []
                          end) (children_ p) i (Some o) Hchild)
      as (restc & Hc1 & Hc2).
    exists ((drawables_ p ++ restc) ++ rest_p).
    assert (forall x, subtree_drawables (set_child i x p) ++ rest_p
              ≡ₚ (if x is Some c then subtree_drawables c else [])
                  ++ (drawables_ p ++ restc) ++ rest_p) as Hset.
    { intros x. destruct p as [ds cs n]. cbn [subtree_drawables set_child drawables_ children_] in *.
      rewrite (Hc2 x). rewrite !app_assoc. apply Permutation_app_tail.
      rewrite <- !app_assoc. apply Permutation_app_swap_app. }
    split; [|split].
    + rewrite H1. destruct p as [ds cs n]. cbn [subtree_drawables drawables_ children_] in *.
      rewrite Hc1. rewrite !app_assoc. apply Permutation_app_tail.
      rewrite <- !app_assoc. apply Permutation_app_swap_app.
    + intros o'. cbn [set_octant_at]. rewrite Hp. rewrite H2. apply (Hset (Some o')).
    + intros i0 parent0 [= <- <-]. unfold modify_octant. rewrite Hp, H2.
      apply (Hset None).
Qed.

Lemma subtree_drawables_same_lists this root o o' :
  octant_at this root = Some o ->
  drawables_ o' = drawables_ o -> children_ o' = children_ o ->
  subtree_drawables (set_octant_at this o' root) ≡ₚ subtree_drawables root.
Proof.
  intros Ho Hd Hc. destruct (subtree_drawables_set_octant_at _ _ _ Ho) as (rest & H1 & H2 & _).
  rewrite H2, H1. destruct o, o'. simpl in *. by subst.
Qed.

(** [IncDrawableCount] changes counts only. *)
Lemma IncDrawableCount_contents this : forall root,
  subtree_drawables (IncDrawableCount this root) ≡ₚ subtree_drawables root.
Proof.
  assert (forall p root,
            subtree_drawables
              (modify_octant p (fun o => set_numDrawables (u32 (numDrawables_ o + 1)) o) root)
            ≡ₚ subtree_drawables root) as Hmod.
  { intros p root. unfold modify_octant.
    destruct (octant_at p root) as [o|] eqn:Ho; [|done].
    by apply (subtree_drawables_same_lists p root o). }
  induction this as [|i parent IH]; intros root; cbn [IncDrawableCount].
  - apply Hmod.
  - rewrite IH. apply Hmod.
Qed.

(** [DeleteChild] loses no drawable: what the freed octants still hold goes
    to the root. *)
Lemma DeleteChild_contents parent octant s :
  subtree_drawables (octree (DeleteChild parent octant s))
  ≡ₚ subtree_drawables (octree s).
Proof.
  unfold DeleteChild. destruct octant as [|i p]; [done|].
  destruct (decide (p = parent)) as [->|]; [|done].
  destruct (octant_at (i :: parent) (octree s)) as [c|] eqn:Hc; [|done].
  destruct (move_to_root_effect (subtree_drawables c) s) as (_ & Ht & _).
  cbn zeta in Ht. cbn [octree set_octree]. rewrite Ht.
  unfold modify_octant at 2. cbn [octant_at set_octant_at].
  set (t1 := set_drawables (drawables_ (octree s) ++ subtree_drawables c) (octree s)).
  assert (octant_at (i :: parent) t1 = Some c) as Hc1.
  { rewrite <- Hc. by apply octant_at_children_ext. }
  destruct (subtree_drawables_set_octant_at _ _ _ Hc1) as (rest & H1 & _ & H3).
  rewrite (H3 i parent eq_refl).
  apply (Permutation_app_inv_l (subtree_drawables c)). rewrite <- H1.
  unfold t1. destruct (octree s) as [ds cs n]. cbn [subtree_drawables set_drawables drawables_ children_].
  rewrite (Permutation_app_comm ds). by rewrite <- app_assoc.
Qed.

(** [DecDrawableCount] loses no drawable, freed octants included. *)
Lemma DecDrawableCount_contents this : forall s,
  subtree_drawables (octree (DecDrawableCount this s)) ≡ₚ subtree_drawables (octree s).
Proof.
  induction this as [|i parent IH]; intros s; cbn [DecDrawableCount];
    destruct (octant_at _ (octree s)) as [o|] eqn:Ho; try done.
  - cbn [octree set_octree]. by apply (subtree_drawables_same_lists [] (octree s) o).
  - rewrite IH. case_decide.
    + rewrite DeleteChild_contents. cbn [octree set_octree].
      by apply (subtree_drawables_same_lists _ (octree s) o).
    + cbn [octree set_octree]. by apply (subtree_drawables_same_lists _ (octree s) o).
Qed.

(** X12. [AddDrawable] on a live octant adds one occurrence of the drawable
    to the drawables held in the tree; it neither adds nor loses another
    one. *)
Theorem AddDrawable_contents (this : OctantPtr) (drawable : DrawablePtr) (s : Scene) :
  is_Some (octant_at this (octree s)) ->
  subtree_drawables (octree (AddDrawable this drawable s))
  ≡ₚ drawable :: subtree_drawables (octree s).
Proof.
  intros [o Ho]. rewrite AddDrawable_tree, IncDrawableCount_contents.
  unfold modify_octant. rewrite Ho.
  destruct (subtree_drawables_set_octant_at _ _ _ Ho) as (rest & H1 & H2 & _).
  rewrite H2, H1. destruct o as [ds cs n].
  cbn [subtree_drawables set_drawables drawables_ children_].
  rewrite <- !app_assoc. rewrite (Permutation_app_swap_app ds). simpl.
  by rewrite Permutation_middle.
Qed.

Lemma AddDrawable_contents_witness :
  subtree_drawables (octree (AddDrawable [1%nat] 9%nat example_scene))
  ≡ₚ [9; 7]%nat.
Proof.
  apply (AddDrawable_contents [1%nat] 9%nat example_scene). by eexists.
Defined.

Lemma RemoveDrawable_Permutation
    (this : OctantPtr) (drawable : DrawablePtr) (resetOctant : bool)
    (s : Scene) (o : Octant) :
  octant_at this (octree s) = Some o ->
  drawable ∈ drawables_ o ->
  subtree_drawables (octree s)
  ≡ₚ drawable :: subtree_drawables (octree (RemoveDrawable this drawable resetOctant s)).
Proof.
  intros Ho Hin. unfold RemoveDrawable. rewrite Ho.
  destruct (list_find_elem_of (fun x => x = drawable) _ _ Hin eq_refl) as [[i y] Hfind].
  rewrite Hfind. apply list_find_Some in Hfind as (Hi & -> & _).
  rewrite DecDrawableCount_contents. cbn [octree set_octree].
  assert (octree (if resetOctant then SetOctant drawable None s else s) = octree s) as ->
    by by destruct resetOctant.
  destruct (subtree_drawables_set_octant_at _ _ _ Ho) as (rest & H1 & H2 & _).
  rewrite H2, H1. destruct o as [ds cs n].
  cbn [subtree_drawables set_drawables drawables_ children_] in *.
  rewrite (delete_Permutation ds i drawable Hi) at 1. done.
Qed.

(** X13. [RemoveDrawable] of a held drawable takes exactly one occurrence of
    the drawable out of the drawables held in the tree and loses no other,
    freed octants included; so a drawable that was held once in a tree
    without duplicates is held nowhere afterwards. *)
Theorem RemoveDrawable_contents
    (this : OctantPtr) (drawable : DrawablePtr) (resetOctant : bool)
    (s : Scene) (o : Octant) :
  octant_at this (octree s) = Some o ->
  drawable ∈ drawables_ o ->
  let s' := RemoveDrawable this drawable resetOctant s in
  subtree_drawables (octree s) ≡ₚ drawable :: subtree_drawables (octree s') /\
  (NoDup (subtree_drawables (octree s)) ->
   drawable ∉ subtree_drawables (octree s')).
Proof.
  intros Ho Hin. cbn zeta.
  pose proof (RemoveDrawable_Permutation this drawable resetOctant s o Ho Hin) as Hperm.
  split; [exact Hperm|]. intros Hnd. rewrite Hperm in Hnd.
  by apply NoDup_cons in Hnd as [? _].
Qed.

Lemma RemoveDrawable_contents_witness :
  7%nat ∉ subtree_drawables (octree (RemoveDrawable [2; 1]%nat 7%nat true example_scene)).
Proof.
  refine (proj2 (RemoveDrawable_contents [2; 1]%nat 7%nat true example_scene _
                   eq_refl _) _).
  - apply list_elem_of_lookup_2 with O. reflexivity.
  - apply NoDup_singleton.
Defined.

(** X14. The destructor leaves no pointer to the drawable in the tree: for a
    drawable held in the octant it points to, in a tree that holds no
    drawable twice, after [~Drawable] the drawable is not among the objects
    and in the list of no octant, and the tree has lost that one entry and
    no other. *)
Theorem Drawable_destroy_not_held
    (this : DrawablePtr) (s : Scene) (d : Drawable) (octant : OctantPtr) (o : Octant) :
  objects s !! this = Some d ->
  octant_ d = Some octant ->
  octant_at octant (octree s) = Some o ->
  this ∈ drawables_ o ->
  NoDup (subtree_drawables (octree s)) ->
  let s' := Drawable_destroy this s in
  objects s' !! this = None /\
  (forall q oq, octant_at q (octree s') = Some oq -> this ∉ drawables_ oq) /\
  subtree_drawables (octree s) ≡ₚ this :: subtree_drawables (octree s').
Proof.
  intros Hobj Hoct Ho Hin Hnd. cbn zeta. unfold Drawable_destroy, RemoveFromOctree.
  rewrite Hobj. cbn [mbind option_bind]. rewrite Hoct.
  set (s2 := CancelReinsertion this (CancelUpdate this s)).
  pose proof (RemoveDrawable_Permutation octant this true s2 o Ho Hin) as Hperm.
  cbn [octree set_objects objects]. split; [apply lookup_delete_eq|].
  split; [|exact Hperm].
  change (octree s2) with (octree s) in Hperm. rewrite Hperm in Hnd.
  apply NoDup_cons in Hnd as [Hnot _].
  intros q oq Hq Hheld. apply Hnot.
  destruct (subtree_drawables_set_octant_at _ _ _ Hq) as (rest & H1 & _).
  rewrite H1. apply elem_of_app. left. destruct oq as [ds cs n].
  cbn [subtree_drawables drawables_] in *. apply elem_of_app. by left.
Qed.

Lemma Drawable_destroy_not_held_witness :
  objects (Drawable_destroy 7%nat example_scene) !! 7%nat = None /\
  subtree_drawables (octree (Drawable_destroy 7%nat example_scene)) = [].
Proof.
  destruct (Drawable_destroy_not_held 7%nat example_scene
              (set_octant (Some [2; 1]%nat) example_drawable) [2; 1]%nat
              (mkOctant [7%nat] (replicate NUM_OCTANTS None) 1))
    as (H1 & _ & _).
  - reflexivity.
  - reflexivity.
  - reflexivity.
  - apply list_elem_of_lookup_2 with O. reflexivity.
  - apply NoDup_singleton.
  - split; [exact H1|reflexivity].
Defined.

(** ** No empty octant is left in the tree *)

(** What is left of a tree when a child slot is cleared: the octants that
    are not below the slot, with their counts. *)
Lemma clear_child_lookup parent i root q o2 :
  octant_at q (modify_octant parent (set_child i None) root) = Some o2 ->
  exists oq, octant_at q root = Some oq /\
             numDrawables_ o2 = numDrawables_ oq /\
             (is_Some (octant_at (i :: parent) root) -> q <> i :: parent).
Proof.
  unfold modify_octant. destruct (octant_at parent root) as [p|] eqn:Hp.
  2: { intros Hq. exists o2. split; [done|]. split; [done|].
       intros [c Hc]. simpl in Hc. by rewrite Hp in Hc. }
  intros Hq.
  destruct (set_octant_at_lookup _ _ _ (set_child i None p) _ _ Hp Hq)
    as [(s0 & -> & Hs0)|(Hns & oq & Hoq & _ & Hn & _)].
  - destruct s0 as [|k s0 _] using rev_ind.
    + simpl in Hs0. injection Hs0 as <-. exists p. split; [done|]. split; [done|].
      intros _ E. simpl in E. length_clash E.
    + rewrite octant_at_snoc in Hs0. destruct (decide (k = i)) as [->|Hki].
      * destruct (decide (i < length (children_ p))%nat) as [Hlt|Hge].
        -- by rewrite child_set_child_eq in Hs0.
        -- unfold child in Hs0. cbn [children_ set_child] in Hs0.
           rewrite (proj2 (lookup_ge_None _ _)) in Hs0; [done|].
           rewrite length_insert. lia.
      * rewrite child_set_child_ne in Hs0 by done. exists o2. split.
        -- rewrite octant_at_app, Hp. simpl. by rewrite octant_at_snoc.
        -- split; [done|]. intros _. rewrite <- app_assoc. simpl. intros E.
           apply app_cons_same_tail in E as [_ E]. by apply Hki.
  - exists oq. split; [done|]. split; [done|]. intros _ ->. apply Hns.
    by apply suffix_cons_r.
Qed.

(** The octants of the tree after [DeleteChild], with their counts. *)
Lemma DeleteChild_lookup parent i s q o2 :
  octant_at q (octree (DeleteChild parent (i :: parent) s)) = Some o2 ->
  exists oq, octant_at q (octree s) = Some oq /\
             numDrawables_ o2 = numDrawables_ oq /\
             (is_Some (octant_at (i :: parent) (octree s)) -> q <> i :: parent).
Proof.
  unfold DeleteChild. rewrite decide_True by done.
  destruct (octant_at (i :: parent) (octree s)) as [c|] eqn:Hc.
  2: { intros Hq. exists o2. split; [done|]. split; [done|]. by intros [? ?]. }
  destruct (move_to_root_effect (subtree_drawables c) s) as (_ & Ht & _).
  cbn zeta in Ht. cbn [octree set_octree]. rewrite Ht.
  unfold modify_octant at 2. cbn [octant_at set_octant_at].
  set (t1 := set_drawables (drawables_ (octree s) ++ subtree_drawables c) (octree s)).
  intros Hq. destruct (clear_child_lookup _ _ _ _ _ Hq) as (o1 & Ho1 & Hn & Hne).
  assert (exists oq, octant_at q (octree s) = Some oq /\
                     numDrawables_ o1 = numDrawables_ oq) as (oq & Hoq & Hn1).
  { destruct q as [|k q].
    - simpl in Ho1. injection Ho1 as <-. by exists (octree s).
    - exists o1. split; [|done]. rewrite <- Ho1. by apply octant_at_children_ext. }
  exists oq. split; [done|]. split; [lia|]. intros _. apply Hne.
  exists c. rewrite <- Hc. by apply octant_at_children_ext.
Qed.

Lemma DeleteChild_parent_kept parent i s :
  is_Some (octant_at parent (octree s)) ->
  is_Some (octant_at parent (octree (DeleteChild parent (i :: parent) s))).
Proof.
  intros Hp. unfold DeleteChild. rewrite decide_True by done.
  destruct (octant_at (i :: parent) (octree s)) as [c|] eqn:Hc; [|done].
  destruct (move_to_root_effect (subtree_drawables c) s) as (_ & Ht & _).
  cbn zeta in Ht. cbn [octree set_octree]. rewrite Ht.
  unfold modify_octant at 2. cbn [octant_at set_octant_at].
  set (t1 := set_drawables (drawables_ (octree s) ++ subtree_drawables c) (octree s)).
  assert (is_Some (octant_at parent t1)) as [p1 Hp1].
  { destruct parent as [|k parent]; [by eexists|].
    by rewrite (octant_at_children_ext _ t1 (octree s)). }
  unfold modify_octant. rewrite Hp1. eexists. by eapply octant_at_set_octant_at.
Qed.

(** The counts after [DecDrawableCount], octant by octant: one less on the
    way to the root, where an octant whose count was 1 is gone. *)
Lemma DecDrawableCount_lookup this : forall s,
  is_Some (octant_at this (octree s)) ->
  (forall p op, p `suffix_of` this -> octant_at p (octree s) = Some op ->
     1 <= numDrawables_ op < 2 ^ 32) ->
  forall q o', octant_at q (octree (DecDrawableCount this s)) = Some o' ->
  exists o, octant_at q (octree s) = Some o /\
            numDrawables_ o' =
              numDrawables_ o - (if decide (q `suffix_of` this) then 1 else 0) /\
            (q `suffix_of` this -> q <> [] -> numDrawables_ o <> 1).
Proof.
  induction this as [|i parent IH]; intros s [o Ho] Hbound q o' Hq;
    cbn [DecDrawableCount] in Hq; rewrite Ho in Hq.
  - simpl in Ho. injection Ho as <-. cbn in Hq.
    pose proof (Hbound [] _ (suffix_nil _) eq_refl) as Hr.
    rewrite u32_id in Hq by lia. destruct q as [|k q].
    + simpl in Hq. injection Hq as <-. exists (octree s).
      rewrite decide_True by done. done.
    + exists o'. split.
      * rewrite <- Hq. symmetry. by apply octant_at_children_ext.
      * rewrite decide_False; [split; [lia|]|]; by intros ?%suffix_nil_inv.
  - pose proof (Hbound _ _ (reflexivity _) Ho) as Hr.
    rewrite u32_id in Hq by lia.
    set (o_n := set_numDrawables (numDrawables_ o - 1) o) in *.
    set (s1 := set_octree (set_octant_at (i :: parent) o_n (octree s)) s) in *.
    assert (forall q1 o1, octant_at q1 (octree s1) = Some o1 ->
              (q1 = i :: parent /\ o1 = o_n) \/
              (q1 <> i :: parent /\ exists oq, octant_at q1 (octree s) = Some oq /\
                 numDrawables_ o1 = numDrawables_ oq)) as Hs1.
    { intros q1 o1 Hq1. cbn [s1 octree set_octree] in Hq1.
      destruct (set_octant_at_frame _ _ _ o_n _ _ Ho eq_refl Hq1)
        as [[-> ->]|(Hne & oq & Hoq & _ & Hn & _)]; [by left|right].
      split; [done|]. by exists oq. }
    assert (is_Some (octant_at parent (octree s1))) as Hp1.
    { destruct (octant_at_parent_Some _ _ _ _ Ho) as (op & Hop & _).
      cbn [s1 octree set_octree].
      destruct (set_octant_at_frame_old _ _ _ o_n _ _ Ho eq_refl Hop)
        as [(E & _)|(_ & op1 & Hop1 & _)]; [length_clash E|by eexists]. }
    set (s2 := if decide (numDrawables_ o - 1 = 0)
               then DeleteChild parent (i :: parent) s1 else s1) in *.
    assert (is_Some (octant_at parent (octree s2))) as Hp2.
    { unfold s2. case_decide; [by apply DeleteChild_parent_kept|done]. }
    assert (forall q2 o2, octant_at q2 (octree s2) = Some o2 ->
              exists o1, octant_at q2 (octree s1) = Some o1 /\
                         numDrawables_ o2 = numDrawables_ o1 /\
                         (numDrawables_ o - 1 = 0 -> q2 <> i :: parent)) as Hs2.
    { intros q2 o2 Hq2. unfold s2 in Hq2. case_decide as Hz.
      - destruct (DeleteChild_lookup _ _ _ _ _ Hq2) as (o1 & Ho1 & Hn & Hne).
        exists o1. split; [done|]. split; [done|]. intros _. apply Hne.
        exists o_n. cbn [s1 octree set_octree].
        by eapply octant_at_set_octant_at.
      - exists o2. by repeat split. }
    destruct (IH s2 Hp2) with (q := q) (o' := o') as (o2 & Ho2 & Hn2 & Hone2); [|done|].
    { intros p op Hp Hop. destruct (Hs2 _ _ Hop) as (o1 & Ho1 & Hn & _).
      destruct (Hs1 _ _ Ho1) as [[-> _]|(_ & oq & Hoq & Hn1)].
      - by apply suffix_cons_not in Hp.
      - pose proof (Hbound p oq (suffix_cons_r _ _ _ Hp) Hoq). lia. }
    destruct (Hs2 _ _ Ho2) as (o1 & Ho1 & Hn1 & Hgone).
    destruct (Hs1 _ _ Ho1) as [[-> ->]|(Hne & oq & Hoq & Hnq)].
    + exists o. split; [done|]. rewrite decide_True by done.
      rewrite decide_False in Hn2 by apply suffix_cons_not.
      unfold o_n in Hn1. cbn [numDrawables_ set_numDrawables] in Hn1.
      split; [lia|]. intros _ _ Hc. apply Hgone; [lia|done].
    + exists oq. split; [done|].
      assert (q `suffix_of` i :: parent <-> q `suffix_of` parent) as Hiff.
      { rewrite suffix_cons_iff. tauto. }
      split.
      * rewrite Hn2, Hn1, Hnq.
        destruct (decide (q `suffix_of` parent)), (decide (q `suffix_of` i :: parent));
          (done || tauto).
      * intros Hs Hnil. rewrite <- Hnq, <- Hn1. apply Hone2; [tauto|done].
Qed.

Lemma RemoveDrawable_no_empty this drawable resetOctant s :
  CountInvariant (octree s) ->
  no_empty_octant (octree s) ->
  no_empty_octant (octree (RemoveDrawable this drawable resetOctant s)).
Proof.
  intros Hinv Hne. unfold RemoveDrawable.
  destruct (octant_at this (octree s)) as [o|] eqn:Ho; [|done].
  destruct (list_find _ _) as [[k y]|] eqn:Hfind; [|done].
  apply list_find_Some in Hfind as (Hk & -> & _).
  set (s1 := if resetOctant then SetOctant drawable None s else s).
  assert (Hs1 : octree s1 = octree s) by (unfold s1; by destruct resetOctant).
  rewrite Hs1.
  set (o_del := set_drawables (delete k (drawables_ o)) o).
  set (t2 := set_octant_at this o_del (octree s)).
  assert (forall q o2, octant_at q t2 = Some o2 ->
            exists oq, octant_at q (octree s) = Some oq /\
                       numDrawables_ o2 = numDrawables_ oq) as Ht2.
  { intros q o2 Hq.
    destruct (set_octant_at_frame _ _ _ o_del _ _ Ho eq_refl Hq)
      as [[-> ->]|(_ & oq & Hoq & _ & Hn & _)]; [by exists o|by exists oq]. }
  assert (1 <= numDrawables_ o) as Hone.
  { destruct (Hinv _ _ Ho) as [Hok _]. unfold count_ok in Hok.
    destruct (children_count_nonneg o) as [Hnn _].
    { by eapply CountInvariant_child_nonneg. }
    apply lookup_lt_Some in Hk. lia. }
  intros i p o' Hq.
  destruct (DecDrawableCount_lookup this (set_octree t2 s1)) with (q := i :: p) (o' := o')
    as (o2 & Ho2 & Hn2 & Hgone); [| |done|].
  { exists o_del. by eapply octant_at_set_octant_at. }
  { intros p0 op Hp Hop. cbn [octree set_octree] in Hop.
    destruct (Ht2 _ _ Hop) as (oq & Hoq & Hn).
    destruct (Hinv _ _ Hoq) as [_ [Hr _]].
    pose proof (CountInvariant_le_ancestor _ _ _ _ _ Hinv Hp Hoq Ho). lia. }
  cbn [octree set_octree] in Ho2.
  destruct (Ht2 _ _ Ho2) as (oq & Hoq & Hn).
  pose proof (Hne _ _ _ Hoq) as Hnz.
  case_decide as Hs; [|lia]. specialize (Hgone Hs ltac:(done)). lia.
Qed.

Lemma AddDrawable_no_empty this drawable s :
  CountInvariant (octree s) ->
  is_Some (octant_at this (octree s)) ->
  numDrawables_ (octree s) < 2 ^ 32 - 1 ->
  (forall i p o, octant_at (i :: p) (octree s) = Some o ->
     numDrawables_ o <> 0 \/ i :: p `suffix_of` this) ->
  no_empty_octant (octree (AddDrawable this drawable s)).
Proof.
  intros Hinv [o Ho] Hroom Hne i p o' Hq.
  pose proof (AddDrawable_same_octants this drawable s o Hinv Ho Hroom (i :: p)) as Hs.
  rewrite Hq in Hs.
  destruct (octant_at (i :: p) (octree s)) as [oq|] eqn:Hoq; [|done].
  destruct Hs as (Hn & _ & _). destruct (Hinv _ _ Hoq) as [_ [Hr _]].
  destruct (Hne _ _ _ Hoq) as [Hnz|Hsuf].
  - case_decide; lia.
  - rewrite decide_True in Hn by done. lia.
Qed.

Lemma GetOrCreateChild_lookup this index s o q o1 :
  octant_at this (octree s) = Some o ->
  octant_at q (octree (GetOrCreateChild this index s)) = Some o1 ->
  q = index :: this \/
  exists oq, octant_at q (octree s) = Some oq /\ numDrawables_ o1 = numDrawables_ oq.
Proof.
  intros Ho. unfold GetOrCreateChild. rewrite Ho.
  destruct (child index o) as [c|] eqn:Hc; [intros Hq; right; by exists o1|].
  cbn [octree set_octree]. intros Hq.
  destruct (set_octant_at_lookup _ _ _ (set_child index (Some Octant_new) o) _ _ Ho Hq)
    as [(s0 & -> & Hs0)|(Hns & oq & Hoq & _ & Hn & _)].
  - destruct s0 as [|k s0 _] using rev_ind.
    + simpl in Hs0. injection Hs0 as <-. right. by exists o.
    + rewrite octant_at_snoc in Hs0. destruct (decide (k = index)) as [->|Hki].
      * destruct (decide (index < length (children_ o))%nat) as [Hlt|Hge].
        -- rewrite child_set_child_eq in Hs0 by done. simpl in Hs0.
           apply octant_at_Octant_new in Hs0 as [-> _]. by left.
        -- unfold child in Hs0. cbn [children_ set_child] in Hs0.
           rewrite (proj2 (lookup_ge_None _ _)) in Hs0; [done|].
           rewrite length_insert. lia.
      * rewrite child_set_child_ne in Hs0 by done. right. exists o1. split; [|done].
        rewrite octant_at_app, Ho. simpl. by rewrite octant_at_snoc.
  - right. by exists oq.
Qed.

Lemma InsertDrawable_no_empty {geometry : OctreeGeometry} levels :
  forall this drawable s,
    CountInvariant (octree s) ->
    is_Some (octant_at this (octree s)) ->
    numDrawables_ (octree s) < 2 ^ 32 - 1 ->
    (forall i p o, octant_at (i :: p) (octree s) = Some o ->
       numDrawables_ o <> 0 \/ i :: p `suffix_of` this) ->
    no_empty_octant (octree (InsertDrawable levels this drawable s)).
Proof.
  induction levels as [|l IH]; intros this drawable s Hinv Hthis Hroom Hne;
    cbn [InsertDrawable].
  - by apply AddDrawable_no_empty.
  - destruct (objects s !! drawable ≫= FitChild this) as [k|];
      [|by apply AddDrawable_no_empty].
    destruct Hthis as [o Ho].
    destruct (GetOrCreateChild_CountInvariant this (fin_to_nat k) s o Hinv Ho)
      as (Hinv1 & Hchild & Hroot & _).
    { apply fin_to_nat_lt. }
    apply IH; [done|done|lia|].
    intros i p o1 Hq.
    destruct (GetOrCreateChild_lookup _ _ _ _ _ _ Ho Hq) as [E|(oq & Hoq & Hn)].
    + right. by rewrite E.
    + destruct (Hne _ _ _ Hoq) as [Hnz|Hsuf]; [left; lia|right].
      by apply suffix_cons_r.
Qed.

(** X15. No empty octant is left in the tree: in every scene reachable from
    a new octree by the public mutations, each octant other than the root
    has a count of at least one, so [IsEmpty] is false for it. *)
Theorem reachable_no_empty_octant {geometry : OctreeGeometry}
    (s : Scene) (i : nat) (p : OctantPtr) (o : Octant) :
  octree_reachable s ->
  octant_at (i :: p) (octree s) = Some o ->
  1 <= GetNumDrawables o /\ IsEmpty o = false.
Proof.
  intros Hreach Hq.
  assert (no_empty_octant (octree s)) as Hne.
  { clear Hq. induction Hreach as [objs|s s' Hreach IH Hstep].
    - intros i0 p0 o0 Hq0. by apply octant_at_Octant_new in Hq0 as [? _].
    - pose proof (octree_reachable_CountInvariant _ Hreach) as Hinv.
      destruct Hstep as [this drawable s Hthis Hroom|this drawable resetOctant s
                        |drawable s Hroom|drawable s Hroom].
      + apply AddDrawable_no_empty; [done..|]. intros i0 p0 o0 Hq0. left. by eapply IH.
      + by apply RemoveDrawable_no_empty.
      + apply InsertDrawable_no_empty; [done|by eexists|done|].
        intros i0 p0 o0 Hq0. left. by eapply IH.
      + unfold Reinsert.
        set (s1 := match objects s !! drawable ≫= octant_ with
                   | Some o0 => RemoveDrawable o0 drawable true s
                   | None => s
                   end).
        assert (CountInvariant (octree s1) /\ no_empty_octant (octree s1) /\
                numDrawables_ (octree s1) <= numDrawables_ (octree s)) as (H1 & H2 & H3).
        { unfold s1. destruct (objects s !! drawable ≫= octant_) as [o0|].
          - destruct (RemoveDrawable_CountInvariant o0 drawable true s Hinv) as [? ?].
            split; [done|]. split; [by apply RemoveDrawable_no_empty|done].
          - split; [done|]. split; [done|lia]. }
        apply InsertDrawable_no_empty; [done|by eexists|lia|].
        intros i0 p0 o0 Hq0. left. by eapply H2. }
  pose proof (octree_reachable_CountInvariant _ Hreach) as Hinv.
  destruct (Hinv _ _ Hq) as [_ [Hr _]]. pose proof (Hne _ _ _ Hq) as Hnz.
  unfold GetNumDrawables, IsEmpty. split; [lia|]. by apply Z.eqb_neq.
Qed.

Lemma reachable_no_empty_octant_witness :
  exists o, octant_at [2; 1]%nat (octree example_scene) = Some o /\
            1 <= GetNumDrawables o /\ IsEmpty o = false.
Proof.
  assert (octree_reachable (geometry := example_geometry) example_scene) as Hreach.
  { eapply reachable_step; [apply reachable_new|].
    assert (numDrawables_ (octree (Scene_new example_objects)) < 2 ^ 32 - 1) as Hroom
      by (simpl; lia).
    exact (mutation_InsertDrawable (geometry := example_geometry) 7%nat
             (Scene_new example_objects) Hroom). }
  eexists. split; [reflexivity|].
  exact (reachable_no_empty_octant (geometry := example_geometry)
           example_scene 2%nat [1%nat] _ Hreach eq_refl).
Defined.

(** ** The drawable and the octree *)

Lemma filter_ne_absent (d : DrawablePtr) (l : list DrawablePtr) :
  d ∉ l -> filter (fun x => x <> d) l = l.
Proof.
  induction l as [|x l IH]; intros Hnot; [done|].
  apply not_elem_of_cons in Hnot as [Hne Hnot].
  rewrite filter_cons_True by done. by rewrite IH.
Qed.

Lemma filter_ne_not_elem (d : DrawablePtr) (l : list DrawablePtr) :
  d ∉ filter (fun x => x <> d) l.
Proof. by intros [? _]%list_elem_of_filter. Qed.

Lemma set_octant_None_id (d : Drawable) :
  octant_ d = None -> set_octant None d = d.
Proof. destruct d. simpl. by intros ->. Qed.

(** X16. [AddToOctree] followed by [RemoveFromOctree] restores the whole
    scene, objects, tree and queues, for a live drawable that has no octant,
    is not in the list of the root and not in a queue, the root count being
    an unsigned; whether or not the node's scene has an octree. *)
Theorem AddToOctree_RemoveFromOctree_round_trip
    (hasOctree : bool) (this : DrawablePtr) (s : Scene) (d : Drawable) :
  objects s !! this = Some d ->
  octant_ d = None ->
  this ∉ drawables_ (octree s) ->
  this ∉ drawableUpdates_ s ->
  this ∉ drawableReinsertions_ s ->
  0 <= numDrawables_ (octree s) < 2 ^ 32 ->
  RemoveFromOctree this (AddToOctree hasOctree this s) = s.
Proof.
  intros Hobj Hoct Hnot Hq1 Hq2 Hr.
  destruct hasOctree; cbn [AddToOctree].
  2: { unfold RemoveFromOctree. rewrite Hobj. simpl. by rewrite Hoct. }
  destruct s as [objs [l cs c] q1 q2]. cbn in Hobj, Hnot, Hq1, Hq2, Hr.
  unfold RemoveFromOctree, AddDrawable, SetOctant, modify_octant.
  cbn [objects octree set_objects set_octree octant_at set_octant_at IncDrawableCount
       drawables_ children_ numDrawables_ set_drawables set_numDrawables
       drawableUpdates_ drawableReinsertions_].
  unfold modify_octant.
  cbn [objects octree set_objects set_octree octant_at set_octant_at
       drawables_ children_ numDrawables_ set_drawables set_numDrawables].
  rewrite lookup_alter_eq, Hobj. cbn [fmap option_fmap option_map mbind option_bind set_octant octant_].
  unfold CancelReinsertion, CancelUpdate, RemoveDrawable.
  cbn [objects octree set_objects set_octree octant_at set_octant_at
       set_drawableUpdates set_drawableReinsertions
       drawables_ children_ numDrawables_ set_drawables set_numDrawables
       drawableUpdates_ drawableReinsertions_].
  rewrite (Find_last _ _ Hnot), delete_middle, app_nil_r.
  rewrite !filter_ne_absent by done.
  cbn [SetOctant DecDrawableCount objects octree set_objects set_octree octant_at
       set_octant_at drawables_ children_ numDrawables_ set_drawables
       set_numDrawables drawableUpdates_ drawableReinsertions_].
  unfold set_octree, SetOctant, set_drawableReinsertions, set_drawableUpdates,
    set_objects, set_numDrawables, set_drawables.
  cbn [objects octree drawableUpdates_ drawableReinsertions_
       drawables_ children_ numDrawables_].
  rewrite alter_alter_eq.
  rewrite (alter_id _ objs this).
  2: { intros x Hx. rewrite Hobj in Hx. injection Hx as <-.
       exact (set_octant_None_id d Hoct). }
  f_equal. f_equal. unfold u32.
  rewrite Zminus_mod_idemp_l. replace (c + 1 - 1) with c by lia.
  by apply Z.mod_small.
Qed.

Lemma AddToOctree_RemoveFromOctree_round_trip_witness :
  RemoveFromOctree 7%nat (AddToOctree true 7%nat (Scene_new example_objects))
  = Scene_new example_objects.
Proof.
  refine (AddToOctree_RemoveFromOctree_round_trip true 7%nat
            (Scene_new example_objects) example_drawable eq_refl eq_refl _ _ _ _).
  - apply not_elem_of_nil.
  - apply not_elem_of_nil.
  - apply not_elem_of_nil.
  - simpl. lia.
Defined.

(** X17. [RemoveFromOctree] on a drawable that is held in the octant it
    points to, under the count invariant: its [octant_] becomes null and no
    other object changes; its entries are gone from both queues, the other
    entries staying in order; the count invariant still holds and the root
    count is one lower. Afterwards [MarkForUpdate] does nothing and
    [OnMarkedDirty] with the own node only sets the dirty flag, queueing
    nothing. *)
Theorem RemoveFromOctree_detaches
    (this : DrawablePtr) (s : Scene) (d : Drawable) (octant : OctantPtr) (o : Octant) :
  CountInvariant (octree s) ->
  objects s !! this = Some d ->
  octant_ d = Some octant ->
  octant_at octant (octree s) = Some o ->
  this ∈ drawables_ o ->
  let s' := RemoveFromOctree this s in
  objects s' = <[this := set_octant None d]> (objects s) /\
  drawableUpdates_ s' = filter (fun x => x <> this) (drawableUpdates_ s) /\
  drawableReinsertions_ s' = filter (fun x => x <> this) (drawableReinsertions_ s) /\
  CountInvariant (octree s') /\
  numDrawables_ (octree s') = numDrawables_ (octree s) - 1 /\
  MarkForUpdate this s' = s' /\
  OnMarkedDirty this (node_ d) s'
  = set_objects (<[this := set_worldBoundingBoxDirty true (set_octant None d)]> (objects s')) s'.
Proof.
  intros Hinv Hobj Hoct Ho Hin. cbn zeta.
  unfold RemoveFromOctree. rewrite Hobj. cbn [mbind option_bind]. rewrite Hoct.
  set (s2 := CancelReinsertion this (CancelUpdate this s)).
  destruct (RemoveDrawable_held octant this true s2 o Hinv Ho Hin)
    as (I1 & I2 & I3 & I4 & I5 & _).
  set (s' := RemoveDrawable octant this true s2) in *.
  cbn [s2 CancelReinsertion CancelUpdate objects octree drawableUpdates_
       drawableReinsertions_ set_drawableUpdates set_drawableReinsertions]
    in I1, I2, I3, I5.
  assert (objects s' = <[this := set_octant None d]> (objects s)) as Hobj'.
  { rewrite I1. apply map_eq. intros k. rewrite lookup_alter, lookup_insert.
    case_decide; [subst k; by rewrite Hobj|done]. }
  split; [done|]. split; [done|]. split; [done|]. split; [done|].
  split; [done|]. split.
  - unfold MarkForUpdate. rewrite Hobj', lookup_insert_eq. done.
  - unfold OnMarkedDirty. rewrite Hobj', lookup_insert_eq.
    cbn [node_ set_octant octant_]. by rewrite decide_True by done.
Qed.

Lemma RemoveFromOctree_detaches_witness :
  objects (RemoveFromOctree 7%nat example_scene) !! 7%nat
  = Some (set_octant None (set_octant (Some [2; 1]%nat) example_drawable)) /\
  numDrawables_ (octree (RemoveFromOctree 7%nat example_scene)) = 0.
Proof.
  destruct (RemoveFromOctree_detaches 7%nat example_scene
              (set_octant (Some [2; 1]%nat) example_drawable) [2; 1]%nat
              (mkOctant [7%nat] (replicate NUM_OCTANTS None) 1))
    as (H1 & _ & _ & _ & H5 & _).
  - apply check_counts_sound. reflexivity.
  - reflexivity.
  - reflexivity.
  - reflexivity.
  - apply list_elem_of_lookup_2 with O. reflexivity.
  - split; [|exact H5]. rewrite H1. apply lookup_insert_eq.
Defined.

Lemma filter_ne_twice (d : DrawablePtr) (l : list DrawablePtr) :
  filter (fun x => x <> d) (filter (fun x => x <> d) l) = filter (fun x => x <> d) l.
Proof. apply filter_ne_absent, filter_ne_not_elem. Qed.

(** X18. Under the count invariant [RemoveFromOctree] is idempotent: a
    second call changes nothing, whether the first call found the drawable
    in its octant or not. *)
Theorem RemoveFromOctree_idempotent (this : DrawablePtr) (s : Scene) :
  CountInvariant (octree s) ->
  RemoveFromOctree this (RemoveFromOctree this s) = RemoveFromOctree this s.
Proof.
  intros Hinv. unfold RemoveFromOctree at 2 3.
  destruct (objects s !! this ≫= octant_) as [octant|] eqn:Hoct.
  2: { unfold RemoveFromOctree. by rewrite Hoct. }
  set (s2 := CancelReinsertion this (CancelUpdate this s)).
  assert (RemoveFromOctree this s2 = RemoveDrawable octant this true s2) as Hs2.
  { unfold RemoveFromOctree. replace (objects s2) with (objects s) by done.
    rewrite Hoct. f_equal. unfold s2, CancelReinsertion, CancelUpdate.
    unfold set_drawableReinsertions, set_drawableUpdates.
    cbn [objects octree drawableUpdates_ drawableReinsertions_].
    by rewrite !filter_ne_twice. }
  assert (RemoveDrawable octant this true s2 = s2 ->
          RemoveFromOctree this (RemoveDrawable octant this true s2)
          = RemoveDrawable octant this true s2) as Hnoop.
  { intros E. rewrite E, Hs2. exact E. }
  destruct (octant_at octant (octree s2)) as [o|] eqn:Ho.
  2: { apply Hnoop. unfold RemoveDrawable. by rewrite Ho. }
  destruct (decide (this ∈ drawables_ o)) as [Hin|Hnot].
  - destruct (RemoveDrawable_held octant this true s2 o Hinv Ho Hin) as (I1 & _).
    unfold RemoveFromOctree at 1. rewrite I1.
    rewrite lookup_alter_octant, decide_True by done.
    by destruct (objects s2 !! this).
  - apply Hnoop. unfold RemoveDrawable. by rewrite Ho, (Find_absent _ _ Hnot).
Qed.

Lemma RemoveFromOctree_idempotent_witness :
  RemoveFromOctree 7%nat (RemoveFromOctree 7%nat example_queued_scene)
  = RemoveFromOctree 7%nat example_queued_scene.
Proof.
  apply (RemoveFromOctree_idempotent 7%nat example_queued_scene).
  apply check_counts_sound. reflexivity.
Defined.
